(** * BrickPico output control core: PWM planner, duty driver, fade effect, logger

    A shallow embedding of [src/pwm.c], [src/effects_fade.c] and [src/log.c]
    of the BrickPico firmware, with the properties its specification states
    about them.

    Conventions.  The target is a 32-bit ARM core: [uint] and [uint32_t] are
    32-bit unsigned, [uint8_t]/[uint16_t]/[uint64_t]/[int64_t] have the width
    their name says, [float] is IEEE-754 binary32.  Integers are carried as
    [Z] with every wrap-around written out; [float] values are the
    [spec_float] of the standard library at precision 24. *)

From Stdlib Require Import ZArith List Bool Lia String Ascii Sorted.
From Stdlib Require Import Floats.SpecFloat.
Import ListNotations.

Local Open Scope Z_scope.

(* ================================================================= *)
(** ** C integer conversions *)

Module CInt.

(** Conversion to an unsigned type of [w] bits: reduction modulo [2^w]. *)
Definition to_unsigned (w x : Z) : Z := x mod 2 ^ w.

(** Conversion to a signed two's complement type of [w] bits. *)
Definition to_signed (w x : Z) : Z :=
  let u := to_unsigned w x in
  if u <? 2 ^ (w - 1) then u else u - 2 ^ w.

Definition u8 := to_unsigned 8.
Definition u16 := to_unsigned 16.
Definition u32 := to_unsigned 32.
Definition u64 := to_unsigned 64.
Definition s64 := to_signed 64.

Lemma to_unsigned_small w x : 0 <= x < 2 ^ w -> to_unsigned w x = x.
Proof. intros H. unfold to_unsigned. now apply Z.mod_small. Qed.

Lemma to_unsigned_range w x : 0 <= w -> 0 <= to_unsigned w x < 2 ^ w.
Proof.
  intros Hw. unfold to_unsigned. apply Z.mod_pos_bound.
  now apply Z.pow_pos_nonneg.
Qed.

Lemma u8_small x : 0 <= x < 256 -> u8 x = x.
Proof. intros H. apply to_unsigned_small. assumption. Qed.

Lemma u16_small x : 0 <= x < 65536 -> u16 x = x.
Proof. intros H. apply to_unsigned_small. assumption. Qed.

Lemma u32_small x : 0 <= x < 4294967296 -> u32 x = x.
Proof. intros H. apply to_unsigned_small. assumption. Qed.

Lemma u64_small x : 0 <= x < 18446744073709551616 -> u64 x = x.
Proof. intros H. apply to_unsigned_small. assumption. Qed.

Lemma s64_small x :
  - 9223372036854775808 <= x < 9223372036854775808 -> s64 x = x.
Proof.
  intros H. unfold s64, to_signed, to_unsigned.
  change (2 ^ (64 - 1)) with 9223372036854775808.
  change (2 ^ 64) with 18446744073709551616.
  destruct (Z.ltb_spec (x mod 18446744073709551616) 9223372036854775808) as [L|L].
  - destruct (Z_lt_le_dec x 0) as [N|N].
    + exfalso.
      rewrite <- (Z.mod_add x 1 18446744073709551616) in L by lia.
      rewrite Z.mod_small in L; lia.
    + rewrite Z.mod_small; lia.
  - destruct (Z_lt_le_dec x 0) as [N|N].
    + rewrite <- (Z.mod_add x 1 18446744073709551616) by lia.
      rewrite Z.mod_small; lia.
    + exfalso. rewrite Z.mod_small in L; lia.
Qed.

End CInt.

(* ================================================================= *)
(** ** Rounding a fraction to the nearest integer *)

Module Rounding.

(** The integer nearest to [num / den] ([den > 0]), a tie going to the even
    neighbour: the rounding of binary32 arithmetic and of [printf]. *)
Definition rne (num den : Z) : Z :=
  let q := num / den in
  match 2 * (num mod den) ?= den with
  | Lt => q
  | Gt => q + 1
  | Eq => if Z.even q then q else q + 1
  end.

Lemma pow2_pos k : 0 <= k -> 0 < 2 ^ k.
Proof. intros. apply Z.pow_pos_nonneg; lia. Qed.

Lemma div_lt_iff a b k : 0 < b -> (a / b < k <-> a < k * b).
Proof.
  intros Hb. split; intros H.
  - destruct (Z_lt_le_dec a (k * b)) as [|Hge]; [assumption|].
    assert (k <= a / b) by (apply Z.div_le_lower_bound; lia). lia.
  - apply Z.div_lt_upper_bound; lia.
Qed.

Lemma div_ge_iff a b k : 0 < b -> (k <= a / b <-> k * b <= a).
Proof.
  intros Hb. pose proof (div_lt_iff a b k Hb). lia.
Qed.

Lemma rne_spec a b :
  0 < b ->
  let k := rne a b in
  (2 * k - 1) * b <= 2 * a <= (2 * k + 1) * b /\
  (2 * a = (2 * k + 1) * b -> Z.even k = true) /\
  (2 * a = (2 * k - 1) * b -> Z.even k = true).
Proof.
  intros Hb. cbv zeta. unfold rne.
  pose proof (Z.div_mod a b ltac:(lia)) as D.
  pose proof (Z.mod_pos_bound a b Hb) as Br.
  set (q := a / b) in *. set (r := a mod b) in *.
  destruct (Z.compare_spec (2 * r) b) as [E|L|G].
  - destruct (Z.even q) eqn:Ev.
    + repeat split; try nia; intros; assumption.
    + assert (Z.even (q + 1) = true).
      { rewrite Z.even_add, Ev. reflexivity. }
      repeat split; try nia; intros; assumption.
  - repeat split; try nia; intros; exfalso; nia.
  - repeat split; try nia; intros; exfalso; nia.
Qed.

Lemma rne_mono a1 b1 a2 b2 :
  0 < b1 -> 0 < b2 -> a1 * b2 <= a2 * b1 -> rne a1 b1 <= rne a2 b2.
Proof.
  intros H1 H2 Hle.
  destruct (rne_spec a1 b1 H1) as ((L1 & U1) & T1 & T1').
  destruct (rne_spec a2 b2 H2) as ((L2 & U2) & T2 & T2').
  cbv zeta in *.
  set (k1 := rne a1 b1) in *. set (k2 := rne a2 b2) in *.
  destruct (Z_le_gt_dec k1 k2) as [|Hgt]; [assumption|exfalso].
  (* 2 a1 b2 >= (2 k1 - 1) b1 b2 >= (2 k2 + 1) b1 b2 >= 2 a2 b1 *)
  assert (A : (2 * k1 - 1) * b1 * b2 <= 2 * a1 * b2) by nia.
  assert (B : 2 * a2 * b1 <= (2 * k2 + 1) * b2 * b1) by nia.
  assert (C : (2 * k2 + 1) * (b1 * b2) <= (2 * k1 - 1) * (b1 * b2)) by nia.
  assert (Ek : k1 = k2 + 1) by nia.
  assert (E1 : 2 * a1 = (2 * k1 - 1) * b1) by nia.
  assert (E2 : 2 * a2 = (2 * k2 + 1) * b2) by nia.
  specialize (T1' E1). specialize (T2 E2).
  rewrite Ek, Z.even_add, T2 in T1'. discriminate.
Qed.

Lemma rne_exact k b : 0 < b -> rne (k * b) b = k.
Proof.
  intros Hb. unfold rne. rewrite Z.div_mul, Z.mod_mul by lia.
  destruct (Z.compare_spec (2 * 0) b); lia.
Qed.

Lemma rne_le a b k : 0 < b -> a <= k * b -> rne a b <= k.
Proof.
  intros Hb H. rewrite <- (rne_exact k b Hb). apply rne_mono; nia.
Qed.

Lemma rne_ge a b k : 0 < b -> k * b <= a -> k <= rne a b.
Proof.
  intros Hb H. rewrite <- (rne_exact k b Hb). apply rne_mono; nia.
Qed.

Lemma rne_lt_half a b k : 0 < b -> 2 * a < (2 * k + 1) * b -> rne a b <= k.
Proof.
  intros Hb H. destruct (rne_spec a b Hb) as ((L & _) & _). cbv zeta in L.
  nia.
Qed.

End Rounding.

(* ================================================================= *)
(** ** The C [float]: IEEE-754 binary32 *)

Module Float32.

Definition prec : Z := 24.
Definition emax : Z := 128.

Definition float32 : Type := spec_float.

(** [x * y] and [x / y] on [float] operands, rounded to nearest even. *)
Definition mul (x y : float32) : float32 := SFmul prec emax x y.
Definition div (x y : float32) : float32 := SFdiv prec emax x y.

(** Conversion of an integer operand to [float] (usual arithmetic
    conversions), rounded to nearest even. *)
Definition of_Z (n : Z) : float32 := binary_normalize prec emax n 0 false.

(** The C comparisons [x >= y], [x > y] and [x < y]; all are false as
    soon as one side is a NaN.  The source compares a [float] with the
    [double] constants 100.0 and 0.0: both are binary32 values and the
    promotion to [double] is exact, so comparing in binary32 is the same. *)
Definition ge (x y : float32) : bool := SFleb y x.
Definition gt (x y : float32) : bool := SFltb y x.
Definition lt (x y : float32) : bool := SFltb x y.
Definition le (x y : float32) : bool := SFleb x y.

(** Truncation toward zero of a finite value. *)
Definition trunc (x : float32) : option Z :=
  match x with
  | S754_zero _ => Some 0
  | S754_finite s m e =>
      Some (cond_Zopp s (if 0 <=? e then Z.pos m * 2 ^ e
                         else Z.pos m / 2 ^ (- e)))
  | S754_infinity _ | S754_nan => None
  end.

(** Conversion of a [float] to an integer type with values [lo..hi].  C
    defines it only when the truncated value is in range; elsewhere the
    model saturates (and sends NaN to 0), as the run-time conversion
    helpers of the target do. *)
Definition to_int (lo hi : Z) (x : float32) : Z :=
  match x with
  | S754_nan => 0
  | S754_infinity s => if s then lo else hi
  | _ => match trunc x with
         | Some z => Z.max lo (Z.min hi z)
         | None => 0
         end
  end.

Definition to_uint32 : float32 -> Z := to_int 0 4294967295.
Definition to_int64 : float32 -> Z :=
  to_int (- 9223372036854775808) 9223372036854775807.

(** The exponent of the subnormal numbers. *)
Definition emin : Z := -149.

Definition zero : float32 := S754_zero false.
Definition one : float32 := Eval cbv in of_Z 1.
Definition two : float32 := Eval cbv in of_Z 2.
Definition fifty : float32 := Eval cbv in of_Z 50.
Definition hundred : float32 := Eval cbv in of_Z 100.
Definition million : float32 := Eval cbv in of_Z 1000000.

(** The largest [float] below 100.0. *)
Definition below_hundred : float32 := S754_finite false 13107199 (-17).

Example hundred_repr : hundred = S754_finite false 13107200 (-17).
Proof. reflexivity. Qed.

Example two_seconds_in_us : to_int64 (mul two million) = 2000000.
Proof. reflexivity. Qed.

Example third_times_three :
  div one (of_Z 3) = S754_finite false 11184811 (-25).
Proof. reflexivity. Qed.

End Float32.

(* ================================================================= *)
(** ** How binary32 multiplication and division round *)

Module FloatRound.
Import Rounding.
Import Float32.

(** The record [shr] works on, for the fraction [a / b]. *)
Definition shr_of (a b : Z) : shr_record :=
  {| shr_m := a / b;
     shr_r := b <=? 2 * (a mod b);
     shr_s := negb (a mod b =? 0) && negb (2 * (a mod b) =? b) |}.

Lemma shr_1_parity m r s :
  0 <= m ->
  shr_1 {| shr_m := m; shr_r := r; shr_s := s |}
  = {| shr_m := Z.div2 m; shr_r := Z.odd m; shr_s := r || s |}.
Proof.
  intros Hm. destruct m as [|[p|p|]|p]; try reflexivity. lia.
Qed.

Lemma shr_1_shr_of a b :
  0 <= a -> 0 < b -> shr_1 (shr_of a b) = shr_of a (b * 2).
Proof.
  intros Ha Hb.
  pose proof (Z.mod_pos_bound a b Hb) as Br.
  assert (Hq : 0 <= a / b) by (apply Z.div_pos; lia).
  assert (E1 : a / (b * 2) = Z.div2 (a / b)).
  { rewrite Z.div2_div, Z.div_div by lia. reflexivity. }
  assert (E2 : a mod (b * 2) = (if Z.odd (a / b) then b else 0) + a mod b).
  { pose proof (Z.div_mod a (b * 2) ltac:(lia)) as D1.
    pose proof (Z.div_mod a b ltac:(lia)) as D2.
    pose proof (Z.div_mod (a / b) 2 ltac:(lia)) as D3.
    rewrite Zmod_odd in D3. rewrite E1, Z.div2_div in D1.
    destruct (Z.odd (a / b)); nia. }
  unfold shr_of at 1. rewrite shr_1_parity by assumption.
  unfold shr_of. rewrite E1, E2.
  set (r := a mod b) in *.
  destruct (Z.odd (a / b)); f_equal;
    destruct (Z.leb_spec b (2 * r)); destruct (Z.eqb_spec r 0);
    destruct (Z.eqb_spec (2 * r) b); cbn [negb andb orb];
    repeat match goal with
           | |- context [Z.leb ?x ?y] => destruct (Z.leb_spec x y)
           | |- context [Z.eqb ?x ?y] => destruct (Z.eqb_spec x y)
           end; cbn [negb andb orb]; try reflexivity; lia.
Qed.

Lemma pow2_xI p : 2 ^ Z.pos p~1 = 2 * 2 ^ Z.pos p * 2 ^ Z.pos p.
Proof.
  replace (Z.pos p~1) with (Z.pos p + Z.pos p + 1) by lia.
  rewrite !Z.pow_add_r by lia. change (2 ^ 1) with 2. ring.
Qed.

Lemma pow2_xO p : 2 ^ Z.pos p~0 = 2 ^ Z.pos p * 2 ^ Z.pos p.
Proof.
  replace (Z.pos p~0) with (Z.pos p + Z.pos p) by lia.
  rewrite !Z.pow_add_r by lia. ring.
Qed.

Lemma iter_pos_shr_of p : forall a b,
  0 <= a -> 0 < b ->
  iter_pos shr_1 p (shr_of a b) = shr_of a (b * 2 ^ Z.pos p).
Proof.
  induction p as [p IH|p IH|]; intros a b Ha Hb; cbn [iter_pos].
  - assert (0 < 2 ^ Z.pos p) by (apply Z.pow_pos_nonneg; lia).
    rewrite shr_1_shr_of, IH, IH by (try assumption; nia).
    f_equal. rewrite pow2_xI. ring.
  - assert (0 < 2 ^ Z.pos p) by (apply Z.pow_pos_nonneg; lia).
    rewrite IH, IH by (try assumption; nia).
    f_equal. rewrite pow2_xO. ring.
  - rewrite shr_1_shr_of by assumption. reflexivity.
Qed.

Lemma round_shr_of a b :
  0 <= a -> 0 < b ->
  round_nearest_even (a / b) (loc_of_shr_record (shr_of a b)) = rne a b.
Proof.
  intros Ha Hb. pose proof (Z.mod_pos_bound a b Hb) as Br.
  unfold shr_of, loc_of_shr_record, rne, round_nearest_even.
  set (r := a mod b) in *.
  destruct (Z.leb_spec b (2 * r)), (Z.eqb_spec r 0), (Z.eqb_spec (2 * r) b);
    cbn [negb andb]; destruct (Z.compare_spec (2 * r) b);
    try reflexivity; lia.
Qed.

Lemma new_location_shr_of a b :
  0 <= a -> 0 < b ->
  shr_record_of_loc (a / b) (new_location b (a mod b)) = shr_of a b.
Proof.
  intros Ha Hb. pose proof (Z.mod_pos_bound a b Hb) as Br.
  unfold shr_of, new_location, new_location_even, new_location_odd.
  set (r := a mod b) in *. set (q := a / b).
  destruct (Z.even b) eqn:Ev.
  - destruct (Z.eqb_spec r 0) as [E0|N0].
    + cbn [shr_record_of_loc negb andb]. f_equal.
      destruct (Z.leb_spec b (2 * r)); [lia|reflexivity].
    + destruct (Z.compare_spec (2 * r) b); cbn [shr_record_of_loc negb andb];
        f_equal;
        destruct (Z.leb_spec b (2 * r)); destruct (Z.eqb_spec (2 * r) b);
        try reflexivity; lia.
  - assert (Hodd : 2 * r <> b).
    { intros E. rewrite <- E in Ev. rewrite Z.even_mul in Ev. discriminate. }
    destruct (Z.eqb_spec r 0) as [E0|N0].
    + cbn [shr_record_of_loc negb andb]. f_equal.
      destruct (Z.leb_spec b (2 * r)); [lia|reflexivity].
    + destruct (Z.compare_spec (2 * r + 1) b); cbn [shr_record_of_loc negb andb];
        f_equal;
        destruct (Z.leb_spec b (2 * r)); destruct (Z.eqb_spec (2 * r) b);
        try reflexivity; lia.
Qed.

Lemma exact_shr_of q :
  0 <= q -> shr_record_of_loc q loc_Exact = shr_of q 1.
Proof.
  intros Hq. unfold shr_of. rewrite Z.div_1_r, Z.mod_1_r. reflexivity.
Qed.

Lemma shr_shr_of a b e n :
  0 <= a -> 0 < b ->
  shr (shr_of a b) e n = (shr_of a (b * 2 ^ Z.max 0 n), e + Z.max 0 n).
Proof.
  intros Ha Hb. unfold shr. destruct n as [|p|p].
  - cbn. rewrite Z.mul_1_r, Z.add_0_r. reflexivity.
  - rewrite iter_pos_shr_of by assumption.
    replace (Z.max 0 (Z.pos p)) with (Z.pos p) by lia. reflexivity.
  - replace (Z.max 0 (Z.neg p)) with 0 by lia.
    cbn. rewrite Z.mul_1_r, Z.add_0_r. reflexivity.
Qed.

(** How far [binary_round_aux] shifts a mantissa [q] at exponent [e]. *)
Definition shift (q e : Z) : Z := Z.max 0 (fexp prec emax (Zdigits2 q + e) - e).

(** What is left to do once the mantissa is rounded: bring a mantissa that
    reached [2^prec] back, and sort zero and overflow out. *)
Definition finish (sx : bool) (m e : Z) : spec_float :=
  let '(mrs, e') := shr_fexp prec emax m e loc_Exact in
  match shr_m mrs with
  | Z0 => S754_zero sx
  | Zpos m => if e' <=? emax - prec then S754_finite sx m e' else S754_infinity sx
  | _ => S754_nan
  end.

Lemma binary_round_aux_shr_of sx a b q e l :
  0 <= a -> 0 < b -> q = a / b -> shr_record_of_loc q l = shr_of a b ->
  binary_round_aux prec emax sx q e l
  = finish sx (rne a (b * 2 ^ shift q e)) (e + shift q e).
Proof.
  intros Ha Hb Hq Hl. unfold binary_round_aux, finish.
  unfold shr_fexp at 1. rewrite Hl, shr_shr_of by assumption.
  fold (shift q e).
  assert (Hp : 0 < b * 2 ^ shift q e).
  { apply Z.mul_pos_pos; [assumption|]. apply Z.pow_pos_nonneg; [lia|].
    unfold shift. lia. }
  replace (shr_m (shr_of a (b * 2 ^ shift q e))) with (a / (b * 2 ^ shift q e))
    by reflexivity.
  rewrite round_shr_of by assumption. reflexivity.
Qed.

(** *** Number of binary digits *)

Lemma digits2_pos_size p : digits2_pos p = Pos.size p.
Proof. induction p; cbn; congruence. Qed.

Lemma Zdigits2_log2 p : Zdigits2 (Z.pos p) = Z.log2 (Z.pos p) + 1.
Proof.
  cbn [Zdigits2]. rewrite digits2_pos_size.
  destruct p; cbn; lia.
Qed.

Lemma Zdigits2_bounds q :
  0 <= q ->
  0 <= Zdigits2 q /\ q < 2 ^ Zdigits2 q /\
  (0 < q -> 2 ^ (Zdigits2 q - 1) <= q).
Proof.
  intros Hq. destruct q as [|p|p]; [cbn; lia| |lia].
  rewrite Zdigits2_log2.
  pose proof (Z.log2_spec (Z.pos p) ltac:(lia)) as S.
  pose proof (Z.log2_nonneg (Z.pos p)).
  replace (Z.log2 (Z.pos p) + 1 - 1) with (Z.log2 (Z.pos p)) by lia.
  replace (Z.log2 (Z.pos p) + 1) with (Z.succ (Z.log2 (Z.pos p))) by lia.
  lia.
Qed.

(** [Zdigits2 q = d] as soon as [q] lies between the two powers. *)
Lemma Zdigits2_unique q d :
  0 < d -> 2 ^ (d - 1) <= q < 2 ^ d -> Zdigits2 q = d.
Proof.
  intros Hd Hq.
  assert (0 < q).
  { assert (0 < 2 ^ (d - 1)) by (apply Z.pow_pos_nonneg; lia). lia. }
  destruct q as [|p|p]; try lia.
  rewrite Zdigits2_log2.
  rewrite (Z.log2_unique (Z.pos p) (d - 1)); [lia|lia|].
  replace (Z.succ (d - 1)) with d by lia. assumption.
Qed.

(** *** Rounding a positive quantity [a / b * 2^e] *)

Lemma fexp_eq k : fexp prec emax k = Z.max (k - 24) emin.
Proof. reflexivity. Qed.

Definition round_pos (a b e : Z) : spec_float :=
  finish false (rne a (b * 2 ^ shift (a / b) e)) (e + shift (a / b) e).

(** The input is regular when the shift is not negative: the mantissa has
    at least as many digits as the format asks for at that exponent. *)
Definition regular (a b e : Z) : Prop :=
  e <= fexp prec emax (Zdigits2 (a / b) + e).

(** The exponent the result is rounded at, and the rounded mantissa. *)
Definition rnd_exp (a b e : Z) : Z := fexp prec emax (Zdigits2 (a / b) + e).
Definition rnd_man (a b e : Z) : Z := rne a (b * 2 ^ (rnd_exp a b e - e)).

(** A rounded mantissa with its exponent, as a float. *)
Definition pack (m e : Z) : spec_float :=
  if m =? 0 then S754_zero false
  else if m =? 2 ^ 24 then S754_finite false (Z.to_pos (2 ^ 23)) (e + 1)
  else S754_finite false (Z.to_pos m) e.

Lemma rnd_facts a b e :
  0 <= a -> 0 < b -> regular a b e ->
  let E := rnd_exp a b e in
  let M := rnd_man a b e in
  emin <= E /\ e <= E /\
  a < 2 ^ 24 * (b * 2 ^ (E - e)) /\
  (emin < E -> 2 ^ 23 * (b * 2 ^ (E - e)) <= a) /\
  0 <= M <= 2 ^ 24 /\
  (emin < E -> 2 ^ 23 <= M).
Proof.
  intros Ha Hb Hreg E M.
  assert (Hq : 0 <= a / b) by (apply Z.div_pos; lia).
  destruct (Zdigits2_bounds (a / b) Hq) as (D0 & D1 & D2).
  unfold regular in Hreg. fold (rnd_exp a b e) in Hreg. fold E in Hreg.
  assert (HE : E = Z.max (Zdigits2 (a / b) + e - 24) emin) by reflexivity.
  set (d := Zdigits2 (a / b)) in *.
  set (n := E - e).
  assert (Hn : 0 <= n) by (subst n; lia).
  assert (Hpn : 0 < 2 ^ n) by (apply Z.pow_pos_nonneg; lia).
  assert (Hbn : 0 < b * 2 ^ n) by nia.
  assert (Up : a < 2 ^ 24 * (b * 2 ^ n)).
  { assert (a / b < 2 ^ (n + 24)).
    { eapply Z.lt_le_trans; [exact D1|].
      apply Z.pow_le_mono_r; subst n; lia. }
    apply (div_lt_iff a b) in H; [|assumption].
    rewrite Z.pow_add_r in H by lia. lia. }
  assert (Lo : emin < E -> 2 ^ 23 * (b * 2 ^ n) <= a).
  { intros Hnorm.
    assert (Ed : d = n + 24) by (subst n; lia).
    assert (0 < a / b).
    { destruct (Z.eq_dec (a / b) 0) as [Z0|]; [|lia].
      subst d. rewrite Z0 in Ed. cbn in Ed. lia. }
    specialize (D2 H). rewrite Ed in D2.
    replace (n + 24 - 1) with (n + 23) in D2 by lia.
    apply (div_ge_iff a b) in D2; [|assumption].
    rewrite Z.pow_add_r in D2 by lia. lia. }
  split; [lia|]. split; [lia|]. split; [exact Up|]. split; [exact Lo|].
  subst M. unfold rnd_man. fold E. fold n.
  split.
  - split.
    + apply rne_ge; [assumption|]. lia.
    + apply rne_le; [assumption|]. lia.
  - intros Hnorm. apply rne_ge; [assumption|]. apply Lo. assumption.
Qed.

Lemma round_pos_pack a b e :
  0 <= a -> 0 < b -> regular a b e -> rnd_exp a b e < emax - prec ->
  round_pos a b e = pack (rnd_man a b e) (rnd_exp a b e).
Proof.
  intros Ha Hb Hreg Hov.
  destruct (rnd_facts a b e Ha Hb Hreg) as (E0 & E1 & _ & _ & HM & HN).
  cbv zeta in *.
  unfold round_pos.
  assert (Hs : shift (a / b) e = rnd_exp a b e - e).
  { unfold shift. fold (rnd_exp a b e). lia. }
  rewrite Hs. fold (rnd_man a b e).
  replace (e + (rnd_exp a b e - e)) with (rnd_exp a b e) by lia.
  set (E := rnd_exp a b e) in *. set (M := rnd_man a b e) in *.
  unfold finish, shr_fexp.
  rewrite exact_shr_of, shr_shr_of by lia.
  rewrite fexp_eq. unfold pack.
  change (emax - prec) with 104 in *.
  destruct (Z.eqb_spec M 0) as [Z0|NZ].
  - rewrite Z0. cbn [Zdigits2].
    replace (Z.max 0 (Z.max (0 + E - 24) emin - E)) with 0 by lia.
    cbn. reflexivity.
  - assert (Mpos : 0 < M) by lia.
    destruct (Zdigits2_bounds M ltac:(lia)) as (D0 & D1 & D2).
    specialize (D2 Mpos).
    destruct (Z.eqb_spec M (2 ^ 24)) as [Top|NT].
    + rewrite Top.
      change (Zdigits2 (2 ^ 24)) with 25.
      replace (Z.max 0 (Z.max (25 + E - 24) emin - E)) with 1 by lia.
      change (1 * 2 ^ 1) with 2.
      change (shr_m (shr_of (2 ^ 24) 2)) with (Z.pos (Z.to_pos (2 ^ 23))).
      cbv iota beta.
      destruct (Z.leb_spec (E + 1) 104); [reflexivity|lia].
    + assert (Hd : Zdigits2 M <= 24).
      { destruct (Z_le_gt_dec (Zdigits2 M) 24); [assumption|].
        assert (2 ^ 24 <= 2 ^ (Zdigits2 M - 1))
          by (apply Z.pow_le_mono_r; lia). lia. }
      assert (Hshift : Z.max 0 (Z.max (Zdigits2 M + E - 24) emin - E) = 0).
      { destruct (Z_le_gt_dec E emin).
        - lia.
        - assert (2 ^ 23 <= M) by (apply HN; lia).
          assert (Zdigits2 M = 24); [|lia].
          apply Zdigits2_unique; lia. }
      rewrite Hshift. cbn [Z.pow]. rewrite Z.mul_1_r, Z.add_0_r.
      unfold shr_of. cbn [shr_m]. rewrite Z.div_1_r.
      destruct M as [|p|p]; try lia.
      cbn [Z.to_pos].
      destruct (Z.leb_spec E 104); [reflexivity|lia].
Qed.

(** *** Order *)

(** [x1 <= x2] for [x_i = a_i / b_i * 2^e_i]. *)
Definition le_in (a1 b1 e1 a2 b2 e2 : Z) : Prop :=
  a1 * b2 * 2 ^ (e1 - Z.min e1 e2) <= a2 * b1 * 2 ^ (e2 - Z.min e1 e2).

Lemma pos_compare_cont_le p q :
  (p <= q)%positive ->
  Pos.compare_cont Eq p q = Lt \/ Pos.compare_cont Eq p q = Eq.
Proof.
  intros H. change (Pos.compare_cont Eq p q) with (Pos.compare p q).
  destruct (Pos.compare_spec p q); auto. lia.
Qed.

Lemma pack_le m1 e1 m2 e2 :
  0 <= m1 <= 2 ^ 24 -> 0 <= m2 <= 2 ^ 24 ->
  (e1 < e2 /\ 2 ^ 23 <= m2) \/ (e1 = e2 /\ m1 <= m2) ->
  SFleb (pack m1 e1) (pack m2 e2) = true.
Proof.
  intros H1 H2 H. unfold pack.
  change (2 ^ 24) with 16777216 in *. change (2 ^ 23) with 8388608 in *.
  destruct (Z.eqb_spec m1 0) as [Z1|N1].
  - destruct (Z.eqb_spec m2 0); [reflexivity|].
    destruct (Z.eqb_spec m2 16777216); reflexivity.
  - destruct (Z.eqb_spec m2 0) as [Z2|N2]; [lia|].
    unfold SFleb, SFcompare.
    destruct (Z.eqb_spec m1 16777216) as [T1|T1];
      destruct (Z.eqb_spec m2 16777216) as [T2|T2].
    + destruct (Z.compare_spec (e1 + 1) (e2 + 1)); try reflexivity. lia.
    + destruct (Z.compare_spec (e1 + 1) e2); try reflexivity; [|lia].
      destruct (pos_compare_cont_le (Z.to_pos 8388608) (Z.to_pos m2))
        as [-> | ->]; try reflexivity. lia.
    + destruct (Z.compare_spec e1 (e2 + 1)); try reflexivity; lia.
    + destruct (Z.compare_spec e1 e2); try reflexivity; [|lia].
      destruct (pos_compare_cont_le (Z.to_pos m1) (Z.to_pos m2))
        as [-> | ->]; try reflexivity. lia.
Qed.

Theorem round_pos_mono a1 b1 e1 a2 b2 e2 :
  0 <= a1 -> 0 < b1 -> regular a1 b1 e1 -> rnd_exp a1 b1 e1 < emax - prec ->
  0 <= a2 -> 0 < b2 -> regular a2 b2 e2 -> rnd_exp a2 b2 e2 < emax - prec ->
  le_in a1 b1 e1 a2 b2 e2 ->
  SFleb (round_pos a1 b1 e1) (round_pos a2 b2 e2) = true.
Proof.
  intros Ha1 Hb1 Hr1 Ho1 Ha2 Hb2 Hr2 Ho2 Hle.
  rewrite !round_pos_pack by assumption.
  destruct (rnd_facts a1 b1 e1 Ha1 Hb1 Hr1) as (Em1 & Ee1 & U1 & L1 & M1 & N1).
  destruct (rnd_facts a2 b2 e2 Ha2 Hb2 Hr2) as (Em2 & Ee2 & U2 & L2 & M2 & N2).
  cbv zeta in *. unfold rnd_man in *.
  set (E1 := rnd_exp a1 b1 e1) in *. set (E2 := rnd_exp a2 b2 e2) in *.
  unfold le_in in Hle. set (m := Z.min e1 e2) in *.
  set (n1 := E1 - e1) in *. set (n2 := E2 - e2) in *.
  set (k1 := e1 - m) in *. set (k2 := e2 - m) in *.
  assert (Hk1 : 0 <= k1) by (subst k1 m; lia).
  assert (Hk2 : 0 <= k2) by (subst k2 m; lia).
  assert (Hn1 : 0 <= n1) by (subst n1; lia).
  assert (Hn2 : 0 <= n2) by (subst n2; lia).
  pose proof (pow2_pos k1 Hk1) as PK1. pose proof (pow2_pos k2 Hk2) as PK2.
  pose proof (pow2_pos n1 Hn1) as PN1. pose proof (pow2_pos n2 Hn2) as PN2.
  assert (Hord : E1 <= E2).
  { destruct (Z_le_gt_dec E1 E2) as [|Hgt]; [assumption|exfalso].
    specialize (L1 ltac:(lia)).
    (* 2^23 b1 N1 b2 K1 <= a1 b2 K1 <= a2 b1 K2 < 2^24 b2 N2 b1 K2 *)
    assert (S1 : 2 ^ 23 * (2 ^ n1 * 2 ^ k1) * (b1 * b2)
                 <= a1 * b2 * 2 ^ k1) by nia.
    assert (S2 : a2 * b1 * 2 ^ k2
                 < 2 ^ 24 * (2 ^ n2 * 2 ^ k2) * (b1 * b2)) by nia.
    assert (S3 : 2 ^ 23 * (2 ^ n1 * 2 ^ k1) < 2 ^ 24 * (2 ^ n2 * 2 ^ k2))
      by nia.
    rewrite <- !Z.pow_add_r in S3 by lia.
    apply Z.pow_lt_mono_r_iff in S3; [|lia|lia].
    subst n1 k1 n2 k2. lia. }
  apply pack_le; try assumption.
  destruct (Z_lt_le_dec E1 E2) as [Hlt|Hge].
  - left. split; [assumption|]. apply N2. lia.
  - right. split; [lia|].
    apply rne_mono; try nia.
    (* a1 b2 N2 <= a2 b1 N1, knowing K1 N1 = K2 N2 *)
    assert (T : 2 ^ k1 * 2 ^ n1 = 2 ^ k2 * 2 ^ n2).
    { rewrite <- !Z.pow_add_r by lia. f_equal. subst k1 n1 k2 n2. lia. }
    fold n1 n2.
    assert (0 < 2 ^ k1 * 2 ^ n1) by nia.
    apply (Z.mul_le_mono_pos_l _ _ (2 ^ k1 * 2 ^ n1)); [assumption|].
    replace (2 ^ k1 * 2 ^ n1 * (a1 * (b2 * 2 ^ n2)))
      with ((a1 * b2 * 2 ^ k1) * (2 ^ n1 * 2 ^ n2)) by ring.
    rewrite T at 1.
    replace (2 ^ k2 * 2 ^ n2 * (a2 * (b1 * 2 ^ n1)))
      with ((a2 * b1 * 2 ^ k2) * (2 ^ n1 * 2 ^ n2)) by ring.
    apply Z.mul_le_mono_nonneg_r; [nia|assumption].
Qed.

(** *** Multiplication and division are [round_pos] *)

Lemma SFmul_round_pos mx ex my ey :
  SFmul prec emax (S754_finite false mx ex) (S754_finite false my ey)
  = round_pos (Z.pos mx * Z.pos my) 1 (ex + ey).
Proof.
  cbn [SFmul xorb]. unfold round_pos.
  rewrite Z.div_1_r.
  rewrite (binary_round_aux_shr_of false (Z.pos mx * Z.pos my) 1); try lia.
  - reflexivity.
  - now rewrite Z.div_1_r.
  - apply exact_shr_of. lia.
Qed.

(** The exponent [SFdiv_core_binary] divides at. *)
Definition div_exp (mx : positive) (ex : Z) (my : positive) (ey : Z) : Z :=
  Z.min (fexp prec emax (Zdigits2 (Z.pos mx) + ex - (Zdigits2 (Z.pos my) + ey)))
        (ex - ey).

Lemma SFdiv_round_pos mx ex my ey :
  let e' := div_exp mx ex my ey in
  SFdiv prec emax (S754_finite false mx ex) (S754_finite false my ey)
  = round_pos (Z.pos mx * 2 ^ (ex - ey - e')) (Z.pos my) e'.
Proof.
  intros e'. cbn [SFdiv xorb]. unfold SFdiv_core_binary.
  fold (div_exp mx ex my ey). fold e'.
  set (s := ex - ey - e').
  assert (Hs : 0 <= s) by (subst s e'; unfold div_exp; lia).
  set (m' := match s with
             | 0 => Z.pos mx
             | Z.pos _ => Z.shiftl (Z.pos mx) s
             | Z.neg _ => 0
             end).
  assert (Hm : m' = Z.pos mx * 2 ^ s).
  { subst m'. destruct s as [|p|p]; [cbn; lia| |lia].
    rewrite Z.shiftl_mul_pow2 by lia. reflexivity. }
  assert (Hpos : 0 < 2 ^ s) by (apply Z.pow_pos_nonneg; lia).
  assert (Hd : Z.div_eucl m' (Z.pos my) = (m' / Z.pos my, m' mod Z.pos my)).
  { unfold Z.div, Z.modulo. destruct (Z.div_eucl m' (Z.pos my)). reflexivity. }
  rewrite Hd, Hm.
  unfold round_pos.
  apply binary_round_aux_shr_of; try nia; try reflexivity.
  apply new_location_shr_of; nia.
Qed.

Lemma fexp_mono k1 k2 : k1 <= k2 -> fexp prec emax k1 <= fexp prec emax k2.
Proof. intros H. rewrite !fexp_eq. lia. Qed.

Lemma digits_quotient a b d :
  0 <= a -> 0 < b -> 2 ^ (d - 1) * b <= a -> d <= Zdigits2 (a / b).
Proof.
  intros Ha Hb H.
  assert (Hq : 0 <= a / b) by (apply Z.div_pos; lia).
  destruct (Zdigits2_bounds (a / b) Hq) as (D0 & D1 & _).
  destruct (Z_le_gt_dec d 0); [lia|].
  apply (div_ge_iff a b) in H; [|assumption].
  assert (2 ^ (d - 1) < 2 ^ Zdigits2 (a / b)) by lia.
  apply Z.pow_lt_mono_r_iff in H0; lia.
Qed.

Lemma div_regular mx ex my ey :
  let e' := div_exp mx ex my ey in
  regular (Z.pos mx * 2 ^ (ex - ey - e')) (Z.pos my) e'.
Proof.
  intros e'. unfold regular.
  set (s := ex - ey - e').
  assert (Hs : 0 <= s) by (subst s e'; unfold div_exp; lia).
  assert (Hpos : 0 < 2 ^ s) by (apply Z.pow_pos_nonneg; lia).
  destruct (Zdigits2_bounds (Z.pos mx) ltac:(lia)) as (Dx0 & Dx1 & Dx2).
  destruct (Zdigits2_bounds (Z.pos my) ltac:(lia)) as (Dy0 & Dy1 & Dy2).
  specialize (Dx2 ltac:(lia)). specialize (Dy2 ltac:(lia)).
  set (dx := Zdigits2 (Z.pos mx)) in *. set (dy := Zdigits2 (Z.pos my)) in *.
  assert (Hdx : 1 <= dx).
  { destruct (Z_le_gt_dec 1 dx); [assumption|].
    replace dx with 0 in Dx1 by lia. cbn in Dx1. lia. }
  assert (Hdig : dx + s - dy <= Zdigits2 (Z.pos mx * 2 ^ s / Z.pos my)).
  { destruct (Z_le_gt_dec (dx + s - dy) 0) as [Small|Big].
    - assert (0 <= Z.pos mx * 2 ^ s / Z.pos my) by (apply Z.div_pos; nia).
      destruct (Zdigits2_bounds _ H) as (D0 & _). lia.
    - apply digits_quotient; try nia.
      (* 2^(dx+s-dy-1) * my <= 2^(dx+s-dy-1) * 2^dy = 2^(dx-1) * 2^s <= mx * 2^s *)
      assert (2 ^ (dx + s - dy - 1) * 2 ^ dy = 2 ^ (dx - 1) * 2 ^ s).
      { rewrite <- !Z.pow_add_r by lia. f_equal. lia. }
      assert (0 < 2 ^ (dx + s - dy - 1)) by (apply Z.pow_pos_nonneg; lia).
      nia. }
  eapply Z.le_trans; [|apply fexp_mono with (k1 := dx + ex - (dy + ey))].
  - subst e'. unfold div_exp. fold dx dy. lia.
  - subst s. lia.
Qed.

(** *** Canonical floats and their order *)

Lemma bounded_facts m e :
  bounded prec emax m e = true ->
  emin <= e <= emax - prec /\ Z.pos m < 2 ^ 24 /\
  (emin < e -> 2 ^ 23 <= Z.pos m).
Proof.
  unfold bounded, canonical_mantissa. intros H.
  apply andb_prop in H. destruct H as [Hc He].
  apply Z.eqb_eq in Hc. apply Z.leb_le in He. rewrite fexp_eq in Hc.
  destruct (Zdigits2_bounds (Z.pos m) ltac:(lia)) as (D0 & D1 & D2).
  specialize (D2 ltac:(lia)).
  change (Zdigits2 (Z.pos m)) with (Z.pos (digits2_pos m)) in *.
  set (d := Z.pos (digits2_pos m)) in *.
  split; [lia|]. split.
  - eapply Z.lt_le_trans; [exact D1|]. apply Z.pow_le_mono_r; lia.
  - intros Hn. assert (d = 24) by lia.
    rewrite H in D2. exact D2.
Qed.

(** The order [SFcompare] computes is the order of the values. *)
Lemma SFleb_value m1 e1 m2 e2 :
  bounded prec emax m1 e1 = true -> bounded prec emax m2 e2 = true ->
  SFleb (S754_finite false m1 e1) (S754_finite false m2 e2) = true ->
  e1 <= e2 /\ Z.pos m1 <= Z.pos m2 * 2 ^ (e2 - e1).
Proof.
  intros B1 B2 H.
  destruct (bounded_facts m1 e1 B1) as (R1 & U1 & L1).
  destruct (bounded_facts m2 e2 B2) as (R2 & U2 & L2).
  unfold SFleb, SFcompare in H.
  destruct (Z.compare_spec e1 e2) as [E|L|G].
  - subst e2. rewrite Z.sub_diag, Z.mul_1_r. split; [lia|].
    change (Pos.compare_cont Eq m1 m2) with (Pos.compare m1 m2) in H.
    destruct (Pos.compare_spec m1 m2); try discriminate; lia.
  - split; [lia|].
    specialize (L2 ltac:(lia)).
    assert (2 ^ 1 <= 2 ^ (e2 - e1)) by (apply Z.pow_le_mono_r; lia).
    change (2 ^ 1) with 2 in *. change (2 ^ 24) with (2 * 2 ^ 23) in U1.
    nia.
  - discriminate.
Qed.

Lemma digits_le q k : 0 <= q < 2 ^ k -> 0 <= k -> Zdigits2 q <= k.
Proof.
  intros Hq Hk.
  destruct (Zdigits2_bounds q ltac:(lia)) as (D0 & D1 & D2).
  destruct (Z.eq_dec q 0) as [->|]; [cbn; lia|].
  specialize (D2 ltac:(lia)).
  destruct (Z_le_gt_dec (Zdigits2 q) k); [assumption|].
  assert (2 ^ k <= 2 ^ (Zdigits2 q - 1)) by (apply Z.pow_le_mono_r; lia).
  lia.
Qed.

(** What [round_pos] returns: zero, or a canonical positive float. *)
Definition nonneg_canonical (x : spec_float) : Prop :=
  x = S754_zero false \/
  exists m e, x = S754_finite false m e /\ bounded prec emax m e = true.

Lemma pack_canonical m e :
  0 <= m <= 2 ^ 24 -> emin <= e -> e < emax - prec ->
  (emin < e -> 2 ^ 23 <= m) ->
  nonneg_canonical (pack m e) /\
  forall m' e', pack m e = S754_finite false m' e' -> e' <= e + 1.
Proof.
  intros Hm He Ho Hn. unfold pack.
  change (emax - prec) with 104 in *.
  destruct (Z.eqb_spec m 0); [split; [now left|discriminate]|].
  destruct (Z.eqb_spec m (2 ^ 24)) as [T|NT].
  - split.
    + right. eexists _, _. split; [reflexivity|].
      unfold bounded, canonical_mantissa.
      change (Z.pos (digits2_pos (Z.to_pos (2 ^ 23)))) with 24.
      rewrite fexp_eq.
      apply andb_true_intro. split; [apply Z.eqb_eq|apply Z.leb_le]; 
        change (emax - prec) with 104; lia.
    + intros m' e' H. injection H as _ <-. lia.
  - split.
    + right. eexists _, _. split; [reflexivity|].
      unfold bounded, canonical_mantissa.
      assert (Hd : Zdigits2 m <= 24) by (apply digits_le; lia).
      destruct m as [|p|p]; try lia. cbn [Z.to_pos].
      change (Z.pos (digits2_pos p)) with (Zdigits2 (Z.pos p)).
      rewrite fexp_eq.
      apply andb_true_intro. split; [apply Z.eqb_eq|apply Z.leb_le];
        change (emax - prec) with 104; [|lia].
      destruct (Z_le_gt_dec e emin); [lia|].
      assert (Zdigits2 (Z.pos p) = 24) by (apply Zdigits2_unique; lia).
      lia.
    + intros m' e' H. injection H as _ <-. lia.
Qed.

Lemma round_pos_canonical a b e :
  0 <= a -> 0 < b -> regular a b e -> rnd_exp a b e < emax - prec ->
  nonneg_canonical (round_pos a b e) /\
  forall m' e', round_pos a b e = S754_finite false m' e' ->
                e' <= rnd_exp a b e + 1.
Proof.
  intros Ha Hb Hr Ho.
  rewrite round_pos_pack by assumption.
  destruct (rnd_facts a b e Ha Hb Hr) as (E0 & E1 & _ & _ & HM & HN).
  apply pack_canonical; assumption.
Qed.

(** *** Monotonicity of the two operations *)

Lemma mul_regular m mc e :
  0 < m -> 2 ^ 23 <= mc -> regular (m * mc) 1 e.
Proof.
  intros Hm Hc. unfold regular. rewrite Z.div_1_r, fexp_eq.
  assert (24 <= Zdigits2 (m * mc / 1)).
  { apply digits_quotient; nia. }
  rewrite Z.div_1_r in H. lia.
Qed.

Lemma mul_rnd_exp m mc e :
  0 < m < 2 ^ 24 -> 0 < mc < 2 ^ 24 ->
  rnd_exp (m * mc) 1 e <= Z.max (24 + e) emin.
Proof.
  intros Hm Hc. unfold rnd_exp. rewrite Z.div_1_r, fexp_eq.
  assert (Zdigits2 (m * mc) <= 48).
  { apply digits_le; [|lia]. change (2 ^ 48) with (2 ^ 24 * 2 ^ 24). nia. }
  lia.
Qed.

Theorem mul_mono m1 e1 m2 e2 mc ec :
  bounded prec emax m1 e1 = true -> bounded prec emax m2 e2 = true ->
  SFleb (S754_finite false m1 e1) (S754_finite false m2 e2) = true ->
  2 ^ 23 <= Z.pos mc < 2 ^ 24 -> e2 + ec < 80 ->
  let c := S754_finite false mc ec in
  let y1 := SFmul prec emax (S754_finite false m1 e1) c in
  let y2 := SFmul prec emax (S754_finite false m2 e2) c in
  SFleb y1 y2 = true /\ nonneg_canonical y1 /\ nonneg_canonical y2 /\
  (forall m' e', y1 = S754_finite false m' e' -> e' <= Z.max (24 + e2 + ec) emin + 1) /\
  (forall m' e', y2 = S754_finite false m' e' -> e' <= Z.max (24 + e2 + ec) emin + 1).
Proof.
  intros B1 B2 Hle Hc Hov c y1 y2. subst c y1 y2.
  destruct (SFleb_value m1 e1 m2 e2 B1 B2 Hle) as [He Hv].
  destruct (bounded_facts m1 e1 B1) as (R1 & U1 & _).
  destruct (bounded_facts m2 e2 B2) as (R2 & U2 & _).
  rewrite !SFmul_round_pos.
  assert (Reg1 : regular (Z.pos m1 * Z.pos mc) 1 (e1 + ec))
    by (apply mul_regular; lia).
  assert (Reg2 : regular (Z.pos m2 * Z.pos mc) 1 (e2 + ec))
    by (apply mul_regular; lia).
  pose proof (mul_rnd_exp (Z.pos m1) (Z.pos mc) (e1 + ec) ltac:(lia) ltac:(lia)) as X1.
  pose proof (mul_rnd_exp (Z.pos m2) (Z.pos mc) (e2 + ec) ltac:(lia) ltac:(lia)) as X2.
  change (emax - prec) with 104 in *. unfold emin in *.
  assert (O1 : rnd_exp (Z.pos m1 * Z.pos mc) 1 (e1 + ec) < emax - prec)
    by (change (emax - prec) with 104; lia).
  assert (O2 : rnd_exp (Z.pos m2 * Z.pos mc) 1 (e2 + ec) < emax - prec)
    by (change (emax - prec) with 104; lia).
  destruct (round_pos_canonical (Z.pos m1 * Z.pos mc) 1 (e1 + ec)
              ltac:(nia) ltac:(lia) Reg1 O1) as [C1 P1].
  destruct (round_pos_canonical (Z.pos m2 * Z.pos mc) 1 (e2 + ec)
              ltac:(nia) ltac:(lia) Reg2 O2) as [C2 P2].
  split; [|split; [exact C1|split; [exact C2|split]]].
  - apply round_pos_mono; try assumption; try nia.
    unfold le_in. replace (Z.min (e1 + ec) (e2 + ec)) with (e1 + ec) by lia.
    rewrite Z.sub_diag. replace (e2 + ec - (e1 + ec)) with (e2 - e1) by lia.
    cbn [Z.pow]. nia.
  - intros m' e' H. specialize (P1 m' e' H). lia.
  - intros m' e' H. specialize (P2 m' e' H). lia.
Qed.

Lemma div_rnd_exp mx ex my ey :
  Z.pos mx < 2 ^ 24 ->
  let e' := div_exp mx ex my ey in
  rnd_exp (Z.pos mx * 2 ^ (ex - ey - e')) (Z.pos my) e'
  <= Z.max (ex - ey) emin.
Proof.
  intros Hm e'. unfold rnd_exp. rewrite fexp_eq.
  set (s := ex - ey - e').
  assert (Hs : 0 <= s) by (subst s e'; unfold div_exp; lia).
  assert (Hpos : 0 < 2 ^ s) by (apply Z.pow_pos_nonneg; lia).
  assert (Zdigits2 (Z.pos mx * 2 ^ s / Z.pos my) <= 24 + s).
  { apply digits_le; [|lia]. split; [apply Z.div_pos; nia|].
    apply Z.div_lt_upper_bound; [lia|].
    rewrite Z.pow_add_r by lia. nia. }
  subst s. lia.
Qed.

Theorem div_mono m1 e1 m2 e2 mc ec :
  bounded prec emax m1 e1 = true -> bounded prec emax m2 e2 = true ->
  SFleb (S754_finite false m1 e1) (S754_finite false m2 e2) = true ->
  e2 - ec < 104 ->
  let c := S754_finite false mc ec in
  let z1 := SFdiv prec emax (S754_finite false m1 e1) c in
  let z2 := SFdiv prec emax (S754_finite false m2 e2) c in
  SFleb z1 z2 = true /\ nonneg_canonical z1 /\ nonneg_canonical z2.
Proof.
  intros B1 B2 Hle Hov c z1 z2. subst c z1 z2.
  destruct (SFleb_value m1 e1 m2 e2 B1 B2 Hle) as [He Hv].
  destruct (bounded_facts m1 e1 B1) as (R1 & U1 & _).
  destruct (bounded_facts m2 e2 B2) as (R2 & U2 & _).
  rewrite !SFdiv_round_pos. cbv zeta.
  pose proof (div_regular m1 e1 mc ec) as Reg1.
  pose proof (div_regular m2 e2 mc ec) as Reg2.
  pose proof (div_rnd_exp m1 e1 mc ec U1) as X1.
  pose proof (div_rnd_exp m2 e2 mc ec U2) as X2.
  cbv zeta in *.
  set (e1' := div_exp m1 e1 mc ec) in *.
  set (e2' := div_exp m2 e2 mc ec) in *.
  set (s1 := e1 - ec - e1') in *. set (s2 := e2 - ec - e2') in *.
  assert (Hs1 : 0 <= s1) by (subst s1 e1'; unfold div_exp; lia).
  assert (Hs2 : 0 <= s2) by (subst s2 e2'; unfold div_exp; lia).
  pose proof (pow2_pos s1 Hs1) as P1. pose proof (pow2_pos s2 Hs2) as P2.
  unfold emin in *.
  assert (O1 : rnd_exp (Z.pos m1 * 2 ^ s1) (Z.pos mc) e1' < emax - prec)
    by (change (emax - prec) with 104; lia).
  assert (O2 : rnd_exp (Z.pos m2 * 2 ^ s2) (Z.pos mc) e2' < emax - prec)
    by (change (emax - prec) with 104; lia).
  destruct (round_pos_canonical (Z.pos m1 * 2 ^ s1) (Z.pos mc) e1'
              ltac:(nia) ltac:(lia) Reg1 O1) as [C1 _].
  destruct (round_pos_canonical (Z.pos m2 * 2 ^ s2) (Z.pos mc) e2'
              ltac:(nia) ltac:(lia) Reg2 O2) as [C2 _].
  split; [|split; assumption].
  apply round_pos_mono; try assumption; try nia.
  unfold le_in. set (mu := Z.min e1' e2').
  (* m1 2^s1 mc 2^(e1'-mu) = m1 mc 2^(e1 - ec - mu) *)
  assert (T1 : 2 ^ s1 * 2 ^ (e1' - mu) = 2 ^ (e1 - ec - mu)).
  { rewrite <- Z.pow_add_r by (subst mu; lia). f_equal. subst s1. lia. }
  assert (T2 : 2 ^ s2 * 2 ^ (e2' - mu) = 2 ^ (e2 - e1) * 2 ^ (e1 - ec - mu)).
  { rewrite <- !Z.pow_add_r by (subst mu s1; lia). f_equal. subst s2. lia. }
  assert (0 < 2 ^ (e1 - ec - mu)) by (apply pow2_pos; subst mu s1; lia).
  replace (Z.pos m1 * 2 ^ s1 * Z.pos mc * 2 ^ (e1' - mu))
    with (Z.pos m1 * Z.pos mc * (2 ^ s1 * 2 ^ (e1' - mu))) by ring.
  replace (Z.pos m2 * 2 ^ s2 * Z.pos mc * 2 ^ (e2' - mu))
    with (Z.pos m2 * Z.pos mc * (2 ^ s2 * 2 ^ (e2' - mu))) by ring.
  rewrite T1, T2. nia.
Qed.

(** *** Truncation *)

Definition floor_pos (m e : Z) : Z :=
  if 0 <=? e then m * 2 ^ e else m / 2 ^ (- e).

Lemma floor_pos_mono m1 e1 m2 e2 :
  0 <= m1 -> 0 <= m2 -> e1 <= e2 -> m1 <= m2 * 2 ^ (e2 - e1) ->
  0 <= floor_pos m1 e1 <= floor_pos m2 e2.
Proof.
  intros H1 H2 He Hv. unfold floor_pos.
  destruct (Z.leb_spec 0 e1) as [P1|N1]; destruct (Z.leb_spec 0 e2) as [P2|N2];
    try lia.
  - pose proof (pow2_pos e1 P1).
    assert (T : 2 ^ e2 = 2 ^ (e2 - e1) * 2 ^ e1).
    { rewrite <- Z.pow_add_r by lia. f_equal. lia. }
    rewrite T. nia.
  - pose proof (pow2_pos (- e1) ltac:(lia)).
    split; [apply Z.div_pos; lia|].
    apply Z.div_le_upper_bound; [lia|].
    assert (T : 2 ^ (e2 - e1) = 2 ^ (- e1) * 2 ^ e2).
    { rewrite <- Z.pow_add_r by lia. f_equal. lia. }
    rewrite T in Hv. nia.
  - pose proof (pow2_pos (- e1) ltac:(lia)).
    pose proof (pow2_pos (- e2) ltac:(lia)).
    pose proof (pow2_pos (e2 - e1) ltac:(lia)).
    split; [apply Z.div_pos; lia|].
    replace (m2 / 2 ^ (- e2))
      with (m2 * 2 ^ (e2 - e1) / (2 ^ (- e2) * 2 ^ (e2 - e1))).
    + rewrite <- Z.pow_add_r by lia.
      replace (- e2 + (e2 - e1)) with (- e1) by lia.
      apply Z.div_le_mono; lia.
    + rewrite Z.div_mul_cancel_r by lia. reflexivity.
Qed.

Lemma to_int_mono lo hi x1 x2 :
  lo <= 0 <= hi ->
  nonneg_canonical x1 -> nonneg_canonical x2 -> SFleb x1 x2 = true ->
  0 <= to_int lo hi x1 <= to_int lo hi x2.
Proof.
  intros Hr C1 C2 Hle.
  destruct C1 as [-> | (m1 & e1 & -> & B1)];
    destruct C2 as [-> | (m2 & e2 & -> & B2)].
  - cbn. lia.
  - cbn [to_int trunc cond_Zopp].
    pose proof (floor_pos_mono 0 0 (Z.pos m2) e2) as F.
    destruct (bounded_facts m2 e2 B2) as (R2 & _).
    fold (floor_pos (Z.pos m2) e2).
    destruct (Z_le_gt_dec 0 e2).
    + specialize (F ltac:(lia) ltac:(lia) ltac:(lia)).
      pose proof (pow2_pos (e2 - 0) ltac:(lia)).
      specialize (F ltac:(nia)). cbn in F. lia.
    + unfold floor_pos. destruct (Z.leb_spec 0 e2); [lia|].
      pose proof (pow2_pos (- e2) ltac:(lia)).
      assert (0 <= Z.pos m2 / 2 ^ (- e2)) by (apply Z.div_pos; lia).
      lia.
  - discriminate Hle.
  - destruct (SFleb_value m1 e1 m2 e2 B1 B2 Hle) as [He Hv].
    cbn [to_int trunc cond_Zopp].
    fold (floor_pos (Z.pos m1) e1). fold (floor_pos (Z.pos m2) e2).
    pose proof (floor_pos_mono (Z.pos m1) e1 (Z.pos m2) e2
                  ltac:(lia) ltac:(lia) He Hv). lia.
Qed.

(** *** Multiply, then divide, then truncate *)

Definition quantize (x c h : spec_float) : Z :=
  to_int 0 4294967295 (SFdiv prec emax (SFmul prec emax x c) h).

Theorem quantize_mono m1 e1 m2 e2 mc ec mh eh :
  bounded prec emax m1 e1 = true -> bounded prec emax m2 e2 = true ->
  SFleb (S754_finite false m1 e1) (S754_finite false m2 e2) = true ->
  2 ^ 23 <= Z.pos mc < 2 ^ 24 -> e2 + ec < 0 -> - 50 < eh ->
  0 <= quantize (S754_finite false m1 e1) (S754_finite false mc ec)
         (S754_finite false mh eh)
    <= quantize (S754_finite false m2 e2) (S754_finite false mc ec)
         (S754_finite false mh eh).
Proof.
  intros B1 B2 Hle Hc He Hh. unfold quantize.
  destruct (mul_mono m1 e1 m2 e2 mc ec B1 B2 Hle Hc ltac:(lia))
    as (Ly & C1 & C2 & X1 & X2).
  cbv zeta in *.
  set (y1 := SFmul prec emax (S754_finite false m1 e1) (S754_finite false mc ec)) in *.
  set (y2 := SFmul prec emax (S754_finite false m2 e2) (S754_finite false mc ec)) in *.
  destruct C1 as [Z1 | (n1 & f1 & Y1 & D1)].
  - rewrite Z1. cbn [SFdiv xorb].
    change (to_int 0 4294967295 (S754_zero false)) with 0.
    destruct C2 as [Z2 | (n2 & f2 & Y2 & D2)].
    + rewrite Z2. cbn. lia.
    + rewrite Y2.
      pose proof (div_mono n2 f2 n2 f2 mh eh D2 D2) as Dm.
      assert (Hrefl : SFleb (S754_finite false n2 f2) (S754_finite false n2 f2) = true).
      { unfold SFleb, SFcompare. rewrite Z.compare_refl.
        change (Pos.compare_cont Eq n2 n2) with (Pos.compare n2 n2).
        now rewrite Pos.compare_refl. }
      specialize (X2 n2 f2 Y2). unfold emin in X2.
      specialize (Dm Hrefl ltac:(lia)). cbv zeta in Dm.
      destruct Dm as (_ & Cz & _).
      pose proof (to_int_mono 0 4294967295 (S754_zero false) _ ltac:(lia)
                    (or_introl eq_refl) Cz) as T.
      assert (Hz : SFleb (S754_zero false)
                     (SFdiv prec emax (S754_finite false n2 f2)
                        (S754_finite false mh eh)) = true).
      { destruct Cz as [-> | (m & e & -> & _)]; reflexivity. }
      specialize (T Hz).
      change (to_int 0 4294967295 (S754_zero false)) with 0 in T. lia.
  - destruct C2 as [Z2 | (n2 & f2 & Y2 & D2)].
    + rewrite Y1, Z2 in Ly. discriminate Ly.
    + rewrite Y1, Y2 in *.
      specialize (X2 n2 f2 eq_refl). unfold emin in X2.
      destruct (div_mono n1 f1 n2 f2 mh eh D1 D2 Ly ltac:(lia))
        as (Lz & Cz1 & Cz2).
      apply to_int_mono; try assumption. lia.
Qed.

Lemma pack_finite m e :
  0 < m < 2 ^ 24 -> pack m e = S754_finite false (Z.to_pos m) e.
Proof.
  intros H. unfold pack.
  destruct (Z.eqb_spec m 0); [lia|].
  destruct (Z.eqb_spec m (2 ^ 24)); [lia|]. reflexivity.
Qed.

(** A quantity below the midpoint under [t * 2^e'] rounds to the float
    before it, or lower. *)
Theorem round_pos_below a b e t e' :
  0 <= a -> 0 < b -> regular a b e ->
  2 ^ 23 < t <= 2 ^ 24 -> emin <= e' -> e' < emax - prec -> e <= e' ->
  2 * a < (2 * t - 1) * (b * 2 ^ (e' - e)) ->
  SFleb (round_pos a b e) (S754_finite false (Z.to_pos (t - 1)) e') = true.
Proof.
  intros Ha Hb Hreg Ht He' Hov Hee Hlt.
  pose proof (pow2_pos (e' - e) ltac:(lia)) as Pn.
  assert (Hexp : rnd_exp a b e <= e').
  { unfold rnd_exp. rewrite fexp_eq.
    assert (Zdigits2 (a / b) <= e' - e + 24); [|lia].
    apply digits_le; [|lia]. split; [apply Z.div_pos; lia|].
    apply Z.div_lt_upper_bound; [lia|].
    rewrite Z.pow_add_r by lia. change (2 ^ 24) with 16777216 in *. nia. }
  rewrite round_pos_pack by (try assumption; lia).
  destruct (rnd_facts a b e Ha Hb Hreg) as (E0 & E1 & _ & _ & HM & HN).
  cbv zeta in *.
  rewrite <- (pack_finite (t - 1) e') by lia.
  apply pack_le; [assumption|lia|].
  destruct (Z_lt_le_dec (rnd_exp a b e) e') as [Lt|Ge].
  - left. split; [assumption|lia].
  - right. assert (Eq : rnd_exp a b e = e') by lia.
    split; [assumption|].
    unfold rnd_man. rewrite Eq.
    apply rne_lt_half; [nia|].
    replace (2 * (t - 1) + 1) with (2 * t - 1) by lia. assumption.
Qed.

(** A quantity that is a float rounds to itself. *)
Theorem round_pos_exact a b e t e' :
  0 < b -> 2 ^ 23 <= t < 2 ^ 24 -> emin <= e' -> e' < emax - prec ->
  e <= e' -> a = t * (b * 2 ^ (e' - e)) ->
  round_pos a b e = S754_finite false (Z.to_pos t) e'.
Proof.
  intros Hb Ht He' Hov Hee Ha.
  pose proof (pow2_pos (e' - e) ltac:(lia)) as Pn.
  assert (Hq : a / b = t * 2 ^ (e' - e)).
  { rewrite Ha. replace (t * (b * 2 ^ (e' - e))) with (t * 2 ^ (e' - e) * b) by ring.
    apply Z.div_mul. lia. }
  assert (Hd : Zdigits2 (a / b) = 24 + (e' - e)).
  { rewrite Hq. apply Zdigits2_unique; [lia|].
    replace (24 + (e' - e) - 1) with (23 + (e' - e)) by lia.
    rewrite !Z.pow_add_r by lia. nia. }
  assert (Hexp : rnd_exp a b e = e').
  { unfold rnd_exp. rewrite fexp_eq, Hd. lia. }
  assert (Hreg : regular a b e).
  { unfold regular. fold (rnd_exp a b e). lia. }
  rewrite round_pos_pack by (try assumption; nia).
  unfold rnd_man. rewrite Hexp, Ha, rne_exact by nia.
  apply pack_finite. lia.
Qed.

Lemma binary_round_aux_exact q e :
  0 <= q -> binary_round_aux prec emax false q e loc_Exact = round_pos q 1 e.
Proof.
  intros Hq. unfold round_pos. rewrite Z.div_1_r.
  apply binary_round_aux_shr_of; try lia.
  - now rewrite Z.div_1_r.
  - now apply exact_shr_of.
Qed.

Lemma iter_xO p k : Z.pos (Pos.iter xO p k) = Z.pos p * 2 ^ Z.pos k.
Proof.
  induction k as [|k IH] using Pos.peano_ind.
  - cbn. lia.
  - rewrite Pos.iter_succ, Pos2Z.inj_xO, IH, Pos2Z.inj_succ, Z.pow_succ_r by lia.
    ring.
Qed.

(** The mantissa of a positive integer below [2^24], once normalized. *)
Lemma normalized x :
  0 < x < 2 ^ 24 ->
  let d := Zdigits2 x in
  1 <= d <= 24 /\ 2 ^ (d - 1) <= x < 2 ^ d /\
  2 ^ 23 <= x * 2 ^ (24 - d) < 2 ^ 24.
Proof.
  intros Hx d.
  destruct (Zdigits2_bounds x ltac:(lia)) as (D0 & D1 & D2).
  specialize (D2 ltac:(lia)). fold d in D0, D1, D2.
  assert (Hd : d <= 24) by (apply digits_le; lia).
  assert (1 <= d).
  { destruct (Z_le_gt_dec 1 d); [assumption|].
    replace d with 0 in D1 by lia. cbn in D1. lia. }
  split; [lia|]. split; [lia|].
  pose proof (pow2_pos (24 - d) ltac:(lia)).
  assert (2 ^ 23 = 2 ^ (d - 1) * 2 ^ (24 - d)).
  { rewrite <- Z.pow_add_r by lia. f_equal. lia. }
  assert (2 ^ 24 = 2 ^ d * 2 ^ (24 - d)).
  { rewrite <- Z.pow_add_r by lia. f_equal. lia. }
  nia.
Qed.

(** An integer below [2^24] converts to [float] exactly. *)
Lemma of_Z_exact n :
  0 < n < 2 ^ 24 ->
  of_Z n = S754_finite false (Z.to_pos (n * 2 ^ (24 - Zdigits2 n)))
             (Zdigits2 n - 24).
Proof.
  intros Hn. destruct (normalized n Hn) as (Hd & Hb & Ht). cbv zeta in *.
  destruct n as [|p|p]; try lia.
  unfold of_Z, binary_normalize, binary_round.
  change (Z.pos (digits2_pos p)) with (Zdigits2 (Z.pos p)).
  set (d := Zdigits2 (Z.pos p)) in *.
  rewrite Z.add_0_r, fexp_eq.
  replace (Z.max (d - 24) emin) with (d - 24) by (unfold emin; lia).
  unfold shl_align. rewrite Z.sub_0_r.
  destruct (d - 24) as [|k|k] eqn:Ek; try lia.
  - (* already 24 digits *)
    rewrite binary_round_aux_exact by lia.
    replace (24 - d) with 0 in * by lia.
    rewrite Z.pow_0_r, Z.mul_1_r in *.
    apply round_pos_exact;
      try (unfold emin; change (emax - prec) with 104; lia);
      try (rewrite Z.sub_diag; cbn [Z.pow]; lia).
  - rewrite binary_round_aux_exact by lia.
    rewrite iter_xO.
    replace (24 - d) with (Z.pos k) in * by lia.
    apply round_pos_exact;
      try (unfold emin; change (emax - prec) with 104; lia);
      try (rewrite Z.sub_diag; cbn [Z.pow]; lia).
Qed.

Lemma bounded_normal t e :
  2 ^ 23 <= t < 2 ^ 24 -> emin <= e <= emax - prec ->
  bounded prec emax (Z.to_pos t) e = true.
Proof.
  intros Ht He. unfold bounded, canonical_mantissa.
  assert (Hd : Zdigits2 t = 24) by (apply Zdigits2_unique; lia).
  destruct t as [|p|p]; try lia. cbn [Z.to_pos].
  change (Z.pos (digits2_pos p)) with (Zdigits2 (Z.pos p)).
  rewrite Hd, fexp_eq.
  apply andb_true_intro. split; [apply Z.eqb_eq|apply Z.leb_le]; lia.
Qed.

Lemma SFleb_zero x : nonneg_canonical x -> SFleb (S754_zero false) x = true.
Proof. intros [-> | (m & e & -> & _)]; reflexivity. Qed.

(** Dividing a canonical float [(t, e)] with a full mantissa by 100. *)
Lemma div_hundred_round_pos t e :
  2 ^ 23 <= t < 2 ^ 24 -> emin + 7 <= e ->
  SFdiv prec emax (S754_finite false (Z.to_pos t) e) hundred
  = round_pos (t * 2 ^ 24) 13107200 (e - 7) /\
  regular (t * 2 ^ 24) 13107200 (e - 7).
Proof.
  intros Ht He. unfold hundred.
  pose proof (SFdiv_round_pos (Z.to_pos t) e 13107200 (-17)) as H.
  pose proof (div_regular (Z.to_pos t) e 13107200 (-17)) as R.
  cbv zeta in H, R.
  assert (Hd : Zdigits2 t = 24) by (apply Zdigits2_unique; lia).
  assert (He' : div_exp (Z.to_pos t) e 13107200 (-17) = e - 7).
  { unfold div_exp. rewrite Z2Pos.id by lia. rewrite Hd.
    change (Zdigits2 13107200) with 24. rewrite fexp_eq. unfold emin in *. lia. }
  rewrite He' in H, R. rewrite Z2Pos.id in H, R by lia.
  replace (e - -17 - (e - 7)) with 24 in H, R by lia.
  split; assumption.
Qed.

(** The counter range [n = top + 1] and [100 n], normalized. *)
Lemma counter_facts n :
  1 <= n <= 65536 ->
  let dn := Zdigits2 n in
  let d0 := Zdigits2 (100 * n) in
  let v := 2 ^ (24 - dn) in
  let u := 2 ^ (24 - d0) in
  1 <= dn <= 17 /\ 7 <= d0 <= 23 /\ 0 < u /\
  ((d0 = dn + 6 /\ v = 64 * u) \/ (d0 = dn + 7 /\ v = 128 * u)) /\
  2 ^ 23 <= n * v < 2 ^ 24 /\
  2 ^ 23 < 100 * n * u < 2 ^ 24 /\
  (n * v = 2 ^ 23 -> d0 = dn + 6).
Proof.
  intros Hn dn d0 v u.
  destruct (normalized n ltac:(change (2 ^ 24) with 16777216; lia))
    as (Hdn & Bn & Tn).
  destruct (normalized (100 * n) ltac:(change (2 ^ 24) with 16777216; lia))
    as (Hd0 & B0 & T0).
  cbv zeta in *. fold dn in Hdn, Bn, Tn. fold d0 in Hd0, B0, T0.
  fold v in Tn. fold u in T0.
  assert (Hdn17 : dn <= 17).
  { destruct (Z_le_gt_dec dn 17); [assumption|].
    assert (2 ^ 17 <= 2 ^ (dn - 1)) by (apply Z.pow_le_mono_r; lia).
    change (2 ^ 17) with 131072 in *. lia. }
  assert (Hlo : dn + 6 <= d0).
  { (* 2^(dn+5) = 64 * 2^(dn-1) <= 100 n < 2^d0 *)
    assert (2 ^ (dn + 5) < 2 ^ d0).
    { replace (dn + 5) with (dn - 1 + 6) by lia.
      rewrite Z.pow_add_r by lia. change (2 ^ 6) with 64. lia. }
    apply Z.pow_lt_mono_r_iff in H; lia. }
  assert (Hhi : d0 <= dn + 7).
  { assert (2 ^ (d0 - 1) < 2 ^ (dn + 7)).
    { rewrite (Z.pow_add_r 2 dn 7) by lia. change (2 ^ 7) with 128. lia. }
    apply Z.pow_lt_mono_r_iff in H; lia. }
  assert (Hd23 : d0 <= 23).
  { apply digits_le; [|lia]. change (2 ^ 23) with 8388608. lia. }
  assert (Hu : 0 < u) by (apply pow2_pos; lia).
  assert (Hv : v = 2 ^ (d0 - dn) * u).
  { subst v u. rewrite <- Z.pow_add_r by lia. f_equal. lia. }
  split; [lia|]. split; [lia|]. split; [assumption|].
  assert (Hcase : d0 = dn + 6 /\ v = 64 * u \/ d0 = dn + 7 /\ v = 128 * u).
  { destruct (Z.eq_dec d0 (dn + 6)) as [E|NE].
    - left. split; [assumption|]. rewrite Hv, E.
      replace (dn + 6 - dn) with 6 by lia. reflexivity.
    - right. assert (E : d0 = dn + 7) by lia. split; [assumption|].
      rewrite Hv, E. replace (dn + 7 - dn) with 7 by lia. reflexivity. }
  split; [exact Hcase|]. split; [exact Tn|].
  set (w := n * u) in *.
  replace (100 * n * u) with (100 * w) in * by (subst w; ring).
  change (2 ^ 23) with 8388608 in *. change (2 ^ 24) with 16777216 in *.
  split; [lia|].
  intros Epow. destruct Hcase as [[E _]|[E Ev]]; [assumption|exfalso].
  rewrite Ev in Epow.
  replace (n * (128 * u)) with (128 * w) in Epow by (subst w; ring).
  lia.
Qed.

Lemma to_int_below t e n w :
  2 ^ 23 <= t < 2 ^ 24 -> e < 0 -> 0 < w -> 2 ^ (- e) = w ->
  t < n * w ->
  to_int 0 4294967295 (S754_finite false (Z.to_pos t) e) <= n - 1.
Proof.
  intros Ht He Hw Ew Hlt.
  cbn [to_int trunc cond_Zopp].
  destruct (Z.leb_spec 0 e); [lia|].
  rewrite Z2Pos.id by lia. rewrite Ew.
  assert (t / w < n) by (apply Z.div_lt_upper_bound; lia).
  assert (0 <= t / w) by (apply Z.div_pos; lia).
  lia.
Qed.

(** The largest duty below 100 never reaches the full-scale level. *)
Theorem below_hundred_level n :
  1 <= n <= 65536 ->
  quantize below_hundred (of_Z n) hundred <= n - 1.
Proof.
  intros Hn.
  destruct (counter_facts n Hn) as (Hdn & Hd0 & Hu & Hcase & Tn & T0 & Hpow).
  cbv zeta in *.
  unfold quantize.
  rewrite of_Z_exact by (change (2 ^ 24) with 16777216; lia).
  set (dn := Zdigits2 n) in *. set (d0 := Zdigits2 (100 * n)) in *.
  set (v := 2 ^ (24 - dn)) in *. set (u := 2 ^ (24 - d0)) in *.
  assert (Hv : 0 < v) by (apply pow2_pos; lia).
  unfold below_hundred. rewrite SFmul_round_pos. rewrite Z2Pos.id by lia.
  set (w := n * u) in *.
  assert (Ew : 100 * n * u = 100 * w) by (subst w; ring).
  rewrite Ew in T0.
  change (2 ^ 23) with 8388608 in *. change (2 ^ 24) with 16777216 in *.
  set (a1 := 13107199 * (n * v)). set (e1 := -17 + (dn - 24)).
  assert (Reg1 : regular a1 1 e1).
  { apply mul_regular; [lia|]. change (2 ^ 23) with 8388608. lia. }
  assert (O1 : rnd_exp a1 1 e1 < emax - prec).
  { pose proof (mul_rnd_exp 13107199 (n * v) e1
                  ltac:(change (2 ^ 24) with 16777216; lia)
                  ltac:(change (2 ^ 24) with 16777216; lia)) as X.
    fold a1 in X. change (emax - prec) with 104. unfold emin in X. lia. }
  assert (S1 : SFleb (round_pos a1 1 e1)
                 (S754_finite false (Z.to_pos (100 * w - 1)) (d0 - 24)) = true).
  { apply round_pos_below.
    - subst a1. nia.
    - lia.
    - assumption.
    - change (2 ^ 23) with 8388608. change (2 ^ 24) with 16777216. lia.
    - unfold emin. lia.
    - change (emax - prec) with 104. lia.
    - subst e1. lia.
    - replace (d0 - 24 - e1) with (d0 - dn + 17) by (subst e1; lia).
      subst a1.
      destruct Hcase as [[E Ev]|[E Ev]]; rewrite E, Ev.
      + replace (dn + 6 - dn + 17) with 23 by lia.
        change (2 ^ 23) with 8388608.
        replace (13107199 * (n * (64 * u))) with (13107199 * 64 * w)
          by (subst w; ring). lia.
      + replace (dn + 7 - dn + 17) with 24 by lia.
        change (2 ^ 24) with 16777216.
        replace (13107199 * (n * (128 * u))) with (13107199 * 128 * w)
          by (subst w; ring). lia. }
  assert (Ha1 : 0 <= a1) by (subst a1; nia).
  destruct (round_pos_canonical a1 1 e1 Ha1 ltac:(lia) Reg1 O1) as [C1 _].
  assert (BG : bounded prec emax (Z.to_pos (100 * w - 1)) (d0 - 24) = true).
  { apply bounded_normal;
      unfold emin; change (emax - prec) with 104;
      change (2 ^ 23) with 8388608; change (2 ^ 24) with 16777216; lia. }
  destruct C1 as [Zr | (m & e & Y & B)].
  { rewrite Zr. cbn. lia. }
  rewrite Y in *.
  destruct (div_mono m e _ _ 13107200 (-17) B BG S1 ltac:(lia))
    as (L2 & Cz1 & Cz2).
  cbv zeta in L2, Cz1, Cz2.
  pose proof (to_int_mono 0 4294967295 _ _ ltac:(lia) Cz1 Cz2 L2) as M1.
  fold hundred in M1, L2, Cz1, Cz2.
  destruct (div_hundred_round_pos (100 * w - 1) (d0 - 24)
              ltac:(change (2 ^ 23) with 8388608;
                    change (2 ^ 24) with 16777216; lia)
              ltac:(unfold emin; lia)) as [Ed Rd].
  set (a2 := (100 * w - 1) * 2 ^ 24) in *. set (e2 := d0 - 24 - 7) in *.
  assert (Ha2 : 0 <= a2) by (subst a2; change (2 ^ 24) with 16777216; lia).
  (* the float just below n *)
  assert (Step : exists t en wn,
            8388608 <= t < 16777216 /\ en < 0 /\ emin <= en /\
            0 < wn /\ 2 ^ (- en) = wn /\ t < n * wn /\ e2 <= en /\
            2 * a2 < (2 * (t + 1) - 1) * (13107200 * 2 ^ (en - e2))).
  { destruct (Z.eq_dec (n * v) 8388608) as [Pow|NPow].
    - (* n is a power of two *)
      specialize (Hpow Pow).
      destruct Hcase as [[E Ev]|[E Ev]]; [|lia].
      exists 16777215, (dn - 25), (2 * v).
      assert (2 ^ (- (dn - 25)) = 2 * v).
      { subst v. replace (- (dn - 25)) with (1 + (24 - dn)) by lia.
        rewrite Z.pow_add_r by lia. reflexivity. }
      assert (Ew64 : 64 * w = 8388608).
      { rewrite <- Pow, Ev. subst w. ring. }
      unfold emin. repeat split; try lia.
    - exists (n * v - 1), (dn - 24), v.
      assert (2 ^ (- (dn - 24)) = v).
      { subst v. f_equal. lia. }
      unfold emin. repeat split; try lia.
      replace (n * v - 1 + 1) with (n * v) by lia.
      subst a2. change (2 ^ 24) with 16777216.
      destruct Hcase as [[E Ev]|[E Ev]]; rewrite Ev.
      + replace (dn - 24 - e2) with 1 by (subst e2; lia).
        change (2 ^ 1) with 2.
        replace (n * (64 * u)) with (64 * w) by (subst w; ring). lia.
      + replace (dn - 24 - e2) with 0 by (subst e2; lia).
        change (2 ^ 0) with 1.
        replace (n * (128 * u)) with (128 * w) by (subst w; ring). lia. }
  destruct Step as (t & en & wn & Ht & Hen & Hemin & Hwn & Ewn & Hlt & Hee & Hineq).
  assert (S2 : SFleb (SFdiv prec emax
                        (S754_finite false (Z.to_pos (100 * w - 1)) (d0 - 24))
                        hundred)
                 (S754_finite false (Z.to_pos t) en) = true).
  { rewrite Ed. replace t with (t + 1 - 1) by lia.
    apply round_pos_below.
    - assumption.
    - lia.
    - assumption.
    - change (2 ^ 23) with 8388608. change (2 ^ 24) with 16777216. lia.
    - assumption.
    - change (emax - prec) with 104. lia.
    - assumption.
    - assumption. }
  assert (Bt : bounded prec emax (Z.to_pos t) en = true).
  { apply bounded_normal;
      unfold emin in *; change (emax - prec) with 104;
      change (2 ^ 23) with 8388608; change (2 ^ 24) with 16777216; lia. }
  pose proof (to_int_mono 0 4294967295 _ _ ltac:(lia) Cz2
                (or_intror (ex_intro _ _ (ex_intro _ _ (conj eq_refl Bt)))) S2)
    as M2.
  pose proof (to_int_below t en n wn
                ltac:(change (2 ^ 23) with 8388608;
                      change (2 ^ 24) with 16777216; lia)
                Hen Hwn Ewn Hlt) as M3.
  lia.
Qed.

Lemma half_facts n :
  1 <= n <= 65536 ->
  let dn := Zdigits2 n in
  let d5 := Zdigits2 (50 * n) in
  let v := 2 ^ (24 - dn) in
  let u := 2 ^ (24 - d5) in
  1 <= dn <= 17 /\ 6 <= d5 <= 22 /\ 0 < u /\
  ((d5 = dn + 5 /\ v = 32 * u) \/ (d5 = dn + 6 /\ v = 64 * u)) /\
  2 ^ 23 <= n * v < 2 ^ 24 /\
  2 ^ 23 <= 50 * n * u < 2 ^ 24.
Proof.
  intros Hn dn d5 v u.
  destruct (normalized n ltac:(change (2 ^ 24) with 16777216; lia))
    as (Hdn & Bn & Tn).
  destruct (normalized (50 * n) ltac:(change (2 ^ 24) with 16777216; lia))
    as (Hd5 & B5 & T5).
  cbv zeta in *. fold dn in Hdn, Bn, Tn. fold d5 in Hd5, B5, T5.
  fold v in Tn. fold u in T5.
  assert (Hdn17 : dn <= 17).
  { destruct (Z_le_gt_dec dn 17); [assumption|].
    assert (2 ^ 17 <= 2 ^ (dn - 1)) by (apply Z.pow_le_mono_r; lia).
    change (2 ^ 17) with 131072 in *. lia. }
  assert (Hlo : dn + 5 <= d5).
  { assert (2 ^ (dn + 4) < 2 ^ d5).
    { replace (dn + 4) with (dn - 1 + 5) by lia.
      rewrite Z.pow_add_r by lia. change (2 ^ 5) with 32. lia. }
    apply Z.pow_lt_mono_r_iff in H; lia. }
  assert (Hhi : d5 <= dn + 6).
  { assert (2 ^ (d5 - 1) < 2 ^ (dn + 6)).
    { rewrite (Z.pow_add_r 2 dn 6) by lia. change (2 ^ 6) with 64. lia. }
    apply Z.pow_lt_mono_r_iff in H; lia. }
  assert (Hd22 : d5 <= 22).
  { apply digits_le; [|lia]. change (2 ^ 22) with 4194304. lia. }
  assert (Hu : 0 < u) by (apply pow2_pos; lia).
  assert (Hv : v = 2 ^ (d5 - dn) * u).
  { subst v u. rewrite <- Z.pow_add_r by lia. f_equal. lia. }
  split; [lia|]. split; [lia|]. split; [assumption|].
  split; [|split; assumption].
  destruct (Z.eq_dec d5 (dn + 5)) as [E|NE].
  - left. split; [assumption|]. rewrite Hv, E.
    replace (dn + 5 - dn) with 5 by lia. reflexivity.
  - right. assert (E : d5 = dn + 6) by lia. split; [assumption|].
    rewrite Hv, E. replace (dn + 6 - dn) with 6 by lia. reflexivity.
Qed.

(** A duty of exactly 50 gives half the range, rounded down. *)
Theorem fifty_level n :
  1 <= n <= 65536 -> quantize fifty (of_Z n) hundred = n / 2.
Proof.
  intros Hn.
  destruct (half_facts n Hn) as (Hdn & Hd5 & Hu & Hcase & Tn & T5).
  cbv zeta in *.
  unfold quantize.
  rewrite of_Z_exact by (change (2 ^ 24) with 16777216; lia).
  set (dn := Zdigits2 n) in *. set (d5 := Zdigits2 (50 * n)) in *.
  set (v := 2 ^ (24 - dn)) in *. set (u := 2 ^ (24 - d5)) in *.
  assert (Hv : 0 < v) by (apply pow2_pos; lia).
  unfold fifty. rewrite SFmul_round_pos. rewrite Z2Pos.id by lia.
  set (w := n * u) in *.
  assert (Ew : 50 * n * u = 50 * w) by (subst w; ring).
  rewrite Ew in T5.
  change (2 ^ 23) with 8388608 in *. change (2 ^ 24) with 16777216 in *.
  rewrite (round_pos_exact _ 1 _ (50 * w) (d5 - 24)).
  - destruct (div_hundred_round_pos (50 * w) (d5 - 24)
                ltac:(change (2 ^ 23) with 8388608;
                      change (2 ^ 24) with 16777216; lia)
                ltac:(unfold emin; lia)) as [Ed _].
    rewrite Ed.
    rewrite (round_pos_exact _ 13107200 _ (n * v) (dn - 25)).
    + cbn [to_int trunc cond_Zopp].
      destruct (Z.leb_spec 0 (dn - 25)); [lia|].
      rewrite Z2Pos.id by lia.
      replace (2 ^ (- (dn - 25))) with (2 * v).
      * rewrite Z.div_mul_cancel_r by lia.
        assert (0 <= n / 2 < 65536).
        { split; [apply Z.div_pos; lia|apply Z.div_lt_upper_bound; lia]. }
        lia.
      * subst v. replace (- (dn - 25)) with (1 + (24 - dn)) by lia.
        rewrite Z.pow_add_r by lia. reflexivity.
    + lia.
    + change (2 ^ 23) with 8388608. change (2 ^ 24) with 16777216. lia.
    + unfold emin. lia.
    + change (emax - prec) with 104. lia.
    + lia.
    + change (2 ^ 24) with 16777216.
      destruct Hcase as [[E Ev]|[E Ev]]; rewrite Ev.
      * replace (dn - 25 - (d5 - 24 - 7)) with 1 by lia.
        change (2 ^ 1) with 2.
        replace (n * (32 * u)) with (32 * w) by (subst w; ring). lia.
      * replace (dn - 25 - (d5 - 24 - 7)) with 0 by lia.
        change (2 ^ 0) with 1.
        replace (n * (64 * u)) with (64 * w) by (subst w; ring). lia.
  - lia.
  - change (2 ^ 23) with 8388608. change (2 ^ 24) with 16777216. lia.
  - unfold emin. lia.
  - change (emax - prec) with 104. lia.
  - lia.
  - replace (d5 - 24 - (-18 + (dn - 24))) with (d5 - dn + 18) by lia.
    destruct Hcase as [[E Ev]|[E Ev]]; rewrite E, Ev.
    + replace (dn + 5 - dn + 18) with 23 by lia. change (2 ^ 23) with 8388608.
      replace (n * (32 * u)) with (32 * w) by (subst w; ring). lia.
    + replace (dn + 6 - dn + 18) with 24 by lia. change (2 ^ 24) with 16777216.
      replace (n * (64 * u)) with (64 * w) by (subst w; ring). lia.
Qed.

(** *** The quotient is finite, and its conversion does not saturate *)

Lemma SFleb_refl_finite m e :
  SFleb (S754_finite false m e) (S754_finite false m e) = true.
Proof.
  unfold SFleb, SFcompare. rewrite Z.compare_refl.
  change (Pos.compare_cont Eq m m) with (Pos.compare m m).
  now rewrite Pos.compare_refl.
Qed.

Lemma quantize_canonical m1 e1 mc ec mh eh :
  bounded prec emax m1 e1 = true ->
  2 ^ 23 <= Z.pos mc < 2 ^ 24 -> e1 + ec < 0 -> - 50 < eh ->
  nonneg_canonical
    (SFdiv prec emax
       (SFmul prec emax (S754_finite false m1 e1) (S754_finite false mc ec))
       (S754_finite false mh eh)).
Proof.
  intros B1 Hc He Hh.
  destruct (mul_mono m1 e1 m1 e1 mc ec B1 B1 (SFleb_refl_finite m1 e1) Hc
              ltac:(lia)) as (_ & C1 & _ & X1 & _).
  cbv zeta in *.
  destruct C1 as [Z1 | (n1 & f1 & Y1 & D1)].
  - rewrite Z1. left. reflexivity.
  - rewrite Y1. specialize (X1 n1 f1 Y1). unfold emin in X1.
    destruct (div_mono n1 f1 n1 f1 mh eh D1 D1 (SFleb_refl_finite n1 f1)
                ltac:(lia)) as (_ & Cz & _).
    exact Cz.
Qed.

Lemma to_int_exact hi z k :
  nonneg_canonical z -> to_int 0 hi z <= k -> k < hi ->
  trunc z = Some (to_int 0 hi z).
Proof.
  intros [-> | (m & e & -> & _)] Hk Hhi.
  - cbn [to_int trunc]. f_equal. lia.
  - cbn [to_int trunc cond_Zopp] in *.
    set (v := if 0 <=? e then Z.pos m * 2 ^ e else Z.pos m / 2 ^ (- e)) in *.
    assert (0 <= v).
    { subst v. destruct (Z.leb_spec 0 e).
      - assert (0 < 2 ^ e) by (apply pow2_pos; lia). nia.
      - apply Z.div_pos; [lia|]. apply pow2_pos. lia. }
    f_equal. lia.
Qed.

(** [SFcompare] on positive finite values orders by exponent, then by
    mantissa. *)
Lemma SFleb_finite m1 e1 m2 e2 :
  SFleb (S754_finite false m1 e1) (S754_finite false m2 e2) = true <->
  e1 < e2 \/ (e1 = e2 /\ Z.pos m1 <= Z.pos m2).
Proof.
  unfold SFleb, SFcompare.
  change (Pos.compare_cont Eq m1 m2) with (Pos.compare m1 m2).
  destruct (Z.compare_spec e1 e2) as [E|L|G].
  - destruct (Pos.compare_spec m1 m2); split; intros K;
      try discriminate; try reflexivity; lia.
  - split; intros K; [lia | reflexivity].
  - split; intros K; [discriminate | lia].
Qed.

Lemma SFltb_finite m1 e1 m2 e2 :
  SFltb (S754_finite false m1 e1) (S754_finite false m2 e2) = true <->
  e1 < e2 \/ (e1 = e2 /\ Z.pos m1 < Z.pos m2).
Proof.
  unfold SFltb, SFcompare.
  change (Pos.compare_cont Eq m1 m2) with (Pos.compare m1 m2).
  destruct (Z.compare_spec e1 e2) as [E|L|G].
  - destruct (Pos.compare_spec m1 m2); split; intros K;
      try discriminate; try reflexivity; lia.
  - split; intros K; [lia | reflexivity].
  - split; intros K; [discriminate | lia].
Qed.

(** A duty that is not [>= 100.0] is at most the [float] before it. *)
Lemma not_ge_hundred m e :
  SFleb hundred (S754_finite false m e) = false ->
  SFleb (S754_finite false m e) below_hundred = true.
Proof.
  intros H. apply SFleb_finite.
  destruct (Z_lt_ge_dec e (-17)) as [L|G]; [left; exact L|].
  destruct (Z_le_gt_dec (Z.pos m) 13107199) as [Lm|Gm];
    destruct (Z.eq_dec e (-17)) as [E|N].
  - right. split; assumption.
  - enough (T : SFleb hundred (S754_finite false m e) = true) by congruence.
    apply SFleb_finite. left. lia.
  - enough (T : SFleb hundred (S754_finite false m e) = true) by congruence.
    apply SFleb_finite. right. split; [symmetry; exact E | lia].
  - enough (T : SFleb hundred (S754_finite false m e) = true) by congruence.
    apply SFleb_finite. left. lia.
Qed.

(** [duty < 100.0] excludes [duty >= 100.0]. *)
Lemma lt_hundred_not_ge m e :
  SFltb (S754_finite false m e) hundred = true ->
  SFleb hundred (S754_finite false m e) = false.
Proof.
  intros H. apply SFltb_finite in H.
  destruct (SFleb hundred (S754_finite false m e)) eqn:E; [|reflexivity].
  apply SFleb_finite in E. lia.
Qed.

(** Every duty below 100.0 is quantized below the full-scale level, and
    the conversion to [uint] is the truncation itself. *)
Theorem quantize_below m e n :
  bounded prec emax m e = true ->
  SFleb hundred (S754_finite false m e) = false ->
  1 <= n <= 65536 ->
  0 <= quantize (S754_finite false m e) (of_Z n) hundred <= n - 1 /\
  trunc (SFdiv prec emax (SFmul prec emax (S754_finite false m e) (of_Z n))
           hundred)
  = Some (quantize (S754_finite false m e) (of_Z n) hundred).
Proof.
  intros B Hge Hn.
  pose proof (below_hundred_level n Hn) as Hb.
  pose proof (not_ge_hundred m e Hge) as Hle.
  destruct (counter_facts n Hn) as (Hdn & _ & _ & _ & Tn & _).
  cbv zeta in *.
  rewrite of_Z_exact in * by (change (2 ^ 24) with 16777216; lia).
  set (dn := Zdigits2 n) in *. set (v := 2 ^ (24 - dn)) in *.
  assert (Hc : 2 ^ 23 <= Z.pos (Z.to_pos (n * v)) < 2 ^ 24).
  { rewrite Z2Pos.id; [exact Tn|]. change (2 ^ 23) with 8388608 in Tn. lia. }
  assert (Bb : bounded prec emax 13107199 (-17) = true) by reflexivity.
  pose proof (quantize_mono m e 13107199 (-17) (Z.to_pos (n * v)) (dn - 24)
                13107200 (-17) B Bb Hle Hc ltac:(lia) ltac:(lia)) as Q.
  fold below_hundred in Q. fold hundred in Q.
  split; [lia|].
  unfold quantize at 1.
  apply to_int_exact with (k := n - 1); [|unfold quantize in *; lia|lia].
  destruct (SFleb_value m e 13107199 (-17) B Bb Hle) as [He _].
  unfold hundred.
  apply quantize_canonical; try assumption; lia.
Qed.

(** *** Comparing with whole numbers *)

(** A whole number below 2^24 is a float, and the quantity
    [K * 2^24 * 2^-24] rounds to it. *)
Lemma of_Z_round_pos K :
  0 < K < 2 ^ 24 ->
  of_Z K = round_pos (K * 2 ^ 24) 1 (-24) /\
  regular (K * 2 ^ 24) 1 (-24) /\
  rnd_exp (K * 2 ^ 24) 1 (-24) < emax - prec /\
  bounded prec emax (Z.to_pos (K * 2 ^ (24 - Zdigits2 K))) (Zdigits2 K - 24)
  = true.
Proof.
  intros HK.
  destruct (normalized K HK) as (Hd & B & T). cbv zeta in *.
  set (d := Zdigits2 K) in *.
  assert (P : 0 < 2 ^ (24 - d)) by (apply pow2_pos; lia).
  assert (Dg : Zdigits2 (K * 2 ^ 24 / 1) = d + 24).
  { rewrite Z.div_1_r. apply Zdigits2_unique; [lia|].
    replace (d + 24 - 1) with (d - 1 + 24) by lia.
    rewrite !Z.pow_add_r by lia.
    assert (0 < 2 ^ 24) by (apply pow2_pos; lia). nia. }
  split; [|split; [|split]].
  - rewrite of_Z_exact by exact HK. fold d. symmetry.
    apply round_pos_exact; try lia.
    + unfold emin. lia.
    + change (emax - prec) with 104. lia.
    + replace (d - 24 - -24) with d by lia.
      rewrite Z.mul_1_l, <- Z.mul_assoc, <- Z.pow_add_r by lia.
      do 2 f_equal. lia.
  - unfold regular. rewrite Dg, fexp_eq. unfold emin. lia.
  - unfold rnd_exp. rewrite Dg, fexp_eq. unfold emin.
    change (emax - prec) with 104. lia.
  - apply bounded_normal; [exact T|]. unfold emin.
    change (emax - prec) with 104. lia.
Qed.

Lemma to_int_of_Z K hi :
  0 < K < 2 ^ 24 -> K <= hi -> to_int 0 hi (of_Z K) = K.
Proof.
  intros HK Hhi.
  destruct (normalized K HK) as (Hd & B & T). cbv zeta in *.
  rewrite of_Z_exact by exact HK.
  set (d := Zdigits2 K) in *.
  assert (P : 0 < 2 ^ (24 - d)) by (apply pow2_pos; lia).
  cbn [to_int trunc cond_Zopp].
  rewrite Z2Pos.id by nia.
  destruct (Z.leb_spec 0 (d - 24)).
  - replace (d - 24) with 0 by lia. replace (24 - d) with 0 in * by lia.
    change (2 ^ 0) with 1. lia.
  - replace (- (d - 24)) with (24 - d) by lia.
    rewrite Z.div_mul by lia. lia.
Qed.

(** The rounded product [duty * n] against a whole number [K]: rounding
    keeps the order the exact product has with [K]. *)
Lemma product_vs_whole m e n K :
  bounded prec emax m e = true -> e <= -17 -> 1 <= n <= 65536 ->
  0 < K < 2 ^ 24 ->
  let p := SFmul prec emax (S754_finite false m e) (of_Z n) in
  nonneg_canonical p /\
  (forall m' e', p = S754_finite false m' e' -> e' < 87) /\
  (K * 2 ^ (- e) <= Z.pos m * n -> SFleb (of_Z K) p = true) /\
  (Z.pos m * n <= K * 2 ^ (- e) -> SFleb p (of_Z K) = true).
Proof.
  intros B He Hn HK p. subst p.
  destruct (of_Z_round_pos K HK) as (EK & RK & XK & _).
  destruct (counter_facts n Hn) as (Hdn & _ & _ & _ & Tn & _).
  destruct (bounded_facts m e B) as (Re & Um & _).
  cbv zeta in *.
  rewrite (of_Z_exact n) by (change (2 ^ 24) with 16777216; lia).
  set (dn := Zdigits2 n) in *. set (v := 2 ^ (24 - dn)) in *.
  assert (Hv : 0 < v) by (apply pow2_pos; lia).
  rewrite SFmul_round_pos. rewrite Z2Pos.id by nia.
  assert (Reg : regular (Z.pos m * (n * v)) 1 (e + (dn - 24)))
    by (apply mul_regular; lia).
  pose proof (mul_rnd_exp (Z.pos m) (n * v) (e + (dn - 24))
                ltac:(lia) ltac:(lia)) as X.
  unfold emin in X.
  assert (O : rnd_exp (Z.pos m * (n * v)) 1 (e + (dn - 24)) < emax - prec)
    by (change (emax - prec) with 104; lia).
  destruct (round_pos_canonical (Z.pos m * (n * v)) 1 (e + (dn - 24))
              ltac:(nia) ltac:(lia) Reg O) as [C P].
  assert (Pe : 0 < 2 ^ (- e)) by (apply pow2_pos; lia).
  set (Y := 2 ^ (-24 - (e + (dn - 24)))).
  assert (E24 : 2 ^ 24 * Y = 2 ^ (- e) * v).
  { subst v Y. rewrite <- !Z.pow_add_r by lia. f_equal. lia. }
  split; [exact C|]. split; [intros m' e' H; specialize (P m' e' H); lia|].
  assert (HK0 : 0 <= K * 2 ^ 24) by (change (2 ^ 24) with 16777216; lia).
  assert (Hm0 : 0 <= Z.pos m * (n * v)) by nia.
  split; intros H; rewrite EK.
  - apply round_pos_mono; try assumption; try lia.
    unfold le_in. rewrite Z.min_r by lia. rewrite Z.sub_diag.
    change (2 ^ 0) with 1. fold Y.
    assert (K * (2 ^ 24 * Y) <= Z.pos m * n * v) by (rewrite E24; nia).
    lia.
  - apply round_pos_mono; try assumption; try lia.
    unfold le_in. rewrite Z.min_l by lia. rewrite Z.sub_diag.
    change (2 ^ 0) with 1. fold Y.
    assert (Z.pos m * n * v <= K * (2 ^ 24 * Y)) by (rewrite E24; nia).
    lia.
Qed.

(** Dividing the whole number [100 * N] by 100 is exact. *)
Lemma div_hundred_whole N :
  1 <= N <= 65536 -> SFdiv prec emax (of_Z (100 * N)) hundred = of_Z N.
Proof.
  intros HN.
  destruct (counter_facts N HN) as (Hdn & Hd0 & Hu & Hcase & Tn & T0 & _).
  cbv zeta in *.
  rewrite (of_Z_exact (100 * N)) by (change (2 ^ 24) with 16777216; lia).
  rewrite (of_Z_exact N) by (change (2 ^ 24) with 16777216; lia).
  set (dn := Zdigits2 N) in *. set (d0 := Zdigits2 (100 * N)) in *.
  set (v := 2 ^ (24 - dn)) in *. set (u := 2 ^ (24 - d0)) in *.
  destruct (div_hundred_round_pos (100 * N * u) (d0 - 24)
              ltac:(lia) ltac:(unfold emin; lia)) as [Ed _].
  rewrite Ed.
  apply round_pos_exact; try lia.
  - unfold emin. lia.
  - change (emax - prec) with 104. lia.
  - destruct Hcase as [[E Ev]|[E Ev]]; rewrite Ev, E.
    + replace (dn - 24 - (dn + 6 - 24 - 7)) with 1 by lia.
      change (2 ^ 1) with 2. change (2 ^ 24) with 16777216. ring.
    + replace (dn - 24 - (dn + 7 - 24 - 7)) with 0 by lia.
      change (2 ^ 0) with 1. change (2 ^ 24) with 16777216. ring.
Qed.

(** The converted quotient is the truncated exact quotient
    [duty * n / 100], or one more. *)
Theorem quantize_near m e n :
  bounded prec emax m e = true ->
  SFleb hundred (S754_finite false m e) = false ->
  1 <= n <= 65536 ->
  let exact := Z.pos m * n / (100 * 2 ^ (- e)) in
  0 <= exact <= n - 1 /\
  exact <= quantize (S754_finite false m e) (of_Z n) hundred <= exact + 1.
Proof.
  intros B Hge Hn exact.
  pose proof (not_ge_hundred m e Hge) as Hle.
  assert (Bb : bounded prec emax 13107199 (-17) = true) by reflexivity.
  destruct (SFleb_value m e 13107199 (-17) B Bb Hle) as [He Hv].
  destruct (quantize_below m e n B Hge Hn) as [Q _].
  assert (Pe : 0 < 2 ^ (- e)) by (apply pow2_pos; lia).
  assert (Hm : Z.pos m < 100 * 2 ^ (- e)).
  { assert (E : 2 ^ (- e) = 2 ^ 17 * 2 ^ (-17 - e))
      by (rewrite <- Z.pow_add_r by lia; f_equal; lia).
    assert (0 < 2 ^ (-17 - e)) by (apply pow2_pos; lia).
    rewrite E. change (2 ^ 17) with 131072. lia. }
  set (D := 100 * 2 ^ (- e)) in *.
  assert (HD : 0 < D) by (subst D; lia).
  pose proof (Z.mul_div_le (Z.pos m * n) D HD) as L1.
  pose proof (Z.mul_succ_div_gt (Z.pos m * n) D HD) as L2.
  fold exact in L1, L2.
  assert (E0 : 0 <= exact) by (apply Z.div_pos; nia).
  assert (E1 : exact < n) by (apply Z.div_lt_upper_bound; nia).
  split; [lia|].
  unfold quantize in *.
  set (p := SFmul prec emax (S754_finite false m e) (of_Z n)) in *.
  assert (Hh : hundred = S754_finite false 13107200 (-17)) by reflexivity.
  split.
  - destruct (Z.eq_dec exact 0) as [Z0|NZ]; [lia|].
    assert (HK : 0 < 100 * exact < 2 ^ 24)
      by (change (2 ^ 24) with 16777216; lia).
    destruct (product_vs_whole m e n (100 * exact) B ltac:(lia) Hn HK)
      as (Cp & Xp & Lo & _).
    fold p in Cp, Xp, Lo.
    specialize (Lo ltac:(subst D; lia)).
    destruct (of_Z_round_pos (100 * exact) HK) as (_ & _ & _ & BK).
    rewrite <- (to_int_of_Z exact 4294967295)
      by (change (2 ^ 24) with 16777216; lia).
    rewrite <- (div_hundred_whole exact) by lia.
    rewrite (of_Z_exact (100 * exact)) in * by exact HK.
    destruct Cp as [Zp | (pm & pe & Ep & Bp)].
    + rewrite Zp in Lo. discriminate Lo.
    + rewrite Ep in *. specialize (Xp pm pe eq_refl). rewrite Hh.
      destruct (div_mono _ _ pm pe 13107200 (-17) BK Bp Lo ltac:(lia))
        as (Lz & C1 & C2).
      apply to_int_mono; try assumption. lia.
  - assert (HK : 0 < 100 * (exact + 1) < 2 ^ 24)
      by (change (2 ^ 24) with 16777216; lia).
    destruct (product_vs_whole m e n (100 * (exact + 1)) B ltac:(lia) Hn HK)
      as (Cp & Xp & _ & Up).
    fold p in Cp, Xp, Up.
    specialize (Up ltac:(subst D; lia)).
    destruct (of_Z_round_pos (100 * (exact + 1)) HK) as (_ & _ & _ & BK).
    rewrite <- (to_int_of_Z (exact + 1) 4294967295)
      by (change (2 ^ 24) with 16777216; lia).
    rewrite <- (div_hundred_whole (exact + 1)) by lia.
    rewrite (of_Z_exact (100 * (exact + 1))) in * by exact HK.
    destruct Cp as [Zp | (pm & pe & Ep & Bp)].
    + rewrite Zp. cbn [SFdiv xorb].
      change (to_int 0 4294967295 (S754_zero false)) with 0.
      apply to_int_mono; try lia.
      * left. reflexivity.
      * rewrite Hh.
        destruct (div_mono _ _ _ _ 13107200 (-17) BK BK
                    (SFleb_refl_finite _ _)) as (_ & C1 & _);
          [destruct (normalized (100 * (exact + 1)) HK) as (Hd & _); lia|].
        exact C1.
      * apply SFleb_zero. rewrite Hh.
        destruct (div_mono _ _ _ _ 13107200 (-17) BK BK
                    (SFleb_refl_finite _ _)) as (_ & C1 & _);
          [destruct (normalized (100 * (exact + 1)) HK) as (Hd & _); lia|].
        exact C1.
    + rewrite Ep in *. rewrite Hh.
      destruct (div_mono pm pe _ _ 13107200 (-17) Bp BK Up) as (Lz & C1 & C2).
      { destruct (normalized (100 * (exact + 1)) HK) as (Hd & _). lia. }
      apply to_int_mono; try assumption. lia.
Qed.

(** *** Whole-number duties *)

Lemma of_Z_mono a b :
  0 < a <= b -> b < 2 ^ 24 -> SFleb (of_Z a) (of_Z b) = true.
Proof.
  intros Ha Hb.
  destruct (of_Z_round_pos a ltac:(lia)) as (Ea & Ra & Xa & _).
  destruct (of_Z_round_pos b ltac:(lia)) as (Eb & Rb & Xb & _).
  rewrite Ea, Eb.
  assert (0 < 2 ^ 24) by (apply pow2_pos; lia).
  apply round_pos_mono; try assumption; try lia; try nia.
  unfold le_in. rewrite Z.min_id, Z.sub_diag. change (2 ^ 0) with 1. nia.
Qed.

(** The product of two whole numbers is exact while it stays below
    2^24. *)
Lemma mul_whole a b :
  0 < a -> 0 < b -> a * b < 2 ^ 24 ->
  SFmul prec emax (of_Z a) (of_Z b) = of_Z (a * b).
Proof.
  intros Ha Hb Hab.
  assert (A : 0 < a < 2 ^ 24) by nia.
  assert (B : 0 < b < 2 ^ 24) by nia.
  assert (C : 0 < a * b < 2 ^ 24) by nia.
  destruct (normalized a A) as (Hda & Ba & Ta).
  destruct (normalized b B) as (Hdb & Bb & Tb).
  destruct (normalized (a * b) C) as (Hdc & Bc & Tc).
  cbv zeta in *.
  rewrite (of_Z_exact a A), (of_Z_exact b B), (of_Z_exact (a * b) C).
  set (da := Zdigits2 a) in *. set (db := Zdigits2 b) in *.
  set (dc := Zdigits2 (a * b)) in *.
  assert (Pa : 0 < 2 ^ (24 - da)) by (apply pow2_pos; lia).
  assert (Pb : 0 < 2 ^ (24 - db)) by (apply pow2_pos; lia).
  assert (Pc : 0 < 2 ^ (24 - dc)) by (apply pow2_pos; lia).
  assert (Hsum : da + db <= dc + 1).
  { assert (2 ^ (da - 1 + (db - 1)) < 2 ^ dc).
    { rewrite Z.pow_add_r by lia. nia. }
    apply Z.pow_lt_mono_r_iff in H; lia. }
  rewrite SFmul_round_pos. rewrite !Z2Pos.id by nia.
  apply round_pos_exact; try lia.
  - unfold emin. lia.
  - change (emax - prec) with 104. lia.
  - rewrite Z.mul_1_l.
    replace (dc - 24 - (da - 24 + (db - 24))) with (24 - da + (24 - db) - (24 - dc)) by lia.
    assert (E : 2 ^ (24 - da) * 2 ^ (24 - db)
                = 2 ^ (24 - dc) * 2 ^ (24 - da + (24 - db) - (24 - dc))).
    { rewrite <- !Z.pow_add_r by lia. f_equal. lia. }
    set (x := 2 ^ (24 - da)) in *. set (y := 2 ^ (24 - db)) in *.
    set (z := 2 ^ (24 - dc)) in *.
    set (w := 2 ^ (24 - da + (24 - db) - (24 - dc))) in *.
    transitivity (a * b * (x * y)); [ring|]. rewrite E. ring.
Qed.

(** A whole number divided by 100 and converted is its quotient by 100,
    rounded down: the rounding of the division never reaches the next
    whole number. *)
Theorem whole_div_hundred M :
  1 <= M < 6553600 ->
  to_int 0 4294967295 (SFdiv prec emax (of_Z M) hundred) = M / 100.
Proof.
  intros HM.
  assert (HM24 : 0 < M < 2 ^ 24) by (change (2 ^ 24) with 16777216; lia).
  set (N := M / 100).
  pose proof (Z.mul_div_le M 100 eq_refl) as L1.
  pose proof (Z.mul_succ_div_gt M 100 eq_refl) as L2.
  fold N in L1, L2.
  assert (N0 : 0 <= N) by (apply Z.div_pos; lia).
  assert (N1 : N < 65536) by (apply Z.div_lt_upper_bound; lia).
  destruct (of_Z_round_pos M HM24) as (_ & _ & _ & BM).
  destruct (normalized M HM24) as (HdM & BdM & TM). cbv zeta in *.
  assert (Hh : hundred = S754_finite false 13107200 (-17)) by reflexivity.
  assert (CM : nonneg_canonical (SFdiv prec emax (of_Z M) hundred)).
  { rewrite (of_Z_exact M HM24), Hh.
    destruct (div_mono _ _ _ _ 13107200 (-17) BM BM (SFleb_refl_finite _ _))
      as (_ & C1 & _); [lia|exact C1]. }
  apply Z.le_antisymm.
  - (* never above: the quotient stays below the float before N + 1 *)
    set (j := Zdigits2 N).
    destruct (Zdigits2_bounds N N0) as (J0 & J1 & J2). fold j in J0, J1, J2.
    assert (J16 : j <= 16).
    { apply digits_le; [|lia]. change (2 ^ 16) with 65536. lia. }
    assert (JN : (1 <= j /\ 2 ^ (j - 1) <= N) \/ (N = 0 /\ j = 0)).
    { destruct (Z.eq_dec N 0) as [E|NE]; [right|left].
      - split; [exact E|]. subst j. rewrite E. reflexivity.
      - split; [|apply J2; lia].
        destruct (Z.eq_dec j 0) as [E0|]; [|lia].
        rewrite E0 in J1. change (2 ^ 0) with 1 in J1. lia. }
    set (T := (N + 1) * 2 ^ (24 - j)).
    assert (Pj : 0 < 2 ^ (24 - j)) by (apply pow2_pos; lia).
    assert (Ej : 2 ^ (24 - j) * 2 ^ j = 2 ^ 24)
      by (rewrite <- Z.pow_add_r by lia; f_equal; lia).
    assert (P2j : 0 < 2 ^ j) by (apply pow2_pos; lia).
    assert (HT : 2 ^ 23 < T <= 2 ^ 24).
    { subst T. split.
      - destruct JN as [[Jp JN]|[JN1 JN2]].
        + assert (E' : 2 ^ (24 - j) * 2 ^ (j - 1) = 2 ^ 23)
            by (rewrite <- Z.pow_add_r by lia; f_equal; lia).
          nia.
        + rewrite JN1, JN2. reflexivity.
      - nia. }
    rewrite (of_Z_exact M HM24) in *.
    set (dM := Zdigits2 M) in *.
    set (tM := M * 2 ^ (24 - dM)) in *.
    destruct (div_hundred_round_pos tM (dM - 24) TM ltac:(unfold emin; lia))
      as [Ed Rd].
    assert (PM : 0 < 2 ^ (24 - dM)) by (apply pow2_pos; lia).
    assert (HdMj : dM <= j + 7).
    { apply digits_le; [|lia]. rewrite Z.pow_add_r by lia.
      change (2 ^ 7) with 128. lia. }
    assert (Below : SFleb (SFdiv prec emax (S754_finite false (Z.to_pos tM) (dM - 24)) hundred)
                          (S754_finite false (Z.to_pos (T - 1)) (j - 24)) = true).
    { rewrite Ed.
      apply round_pos_below.
      - change (2 ^ 24) with 16777216. lia.
      - lia.
      - exact Rd.
      - exact HT.
      - unfold emin. lia.
      - change (emax - prec) with 104. lia.
      - lia.
      - replace (j - 24 - (dM - 24 - 7)) with (j + 7 - dM) by lia.
        assert (E1 : 2 ^ (24 - dM) * 2 ^ j = 2 ^ 17 * 2 ^ (j + 7 - dM))
          by (rewrite <- !Z.pow_add_r by lia; f_equal; lia).
        assert (P3 : 0 < 2 ^ (j + 7 - dM)) by (apply pow2_pos; lia).
        assert (J216 : 2 ^ j <= 2 ^ 16) by (apply Z.pow_le_mono_r; lia).
        change (2 ^ 17) with 131072 in E1. change (2 ^ 16) with 65536 in J216.
        change (2 ^ 24) with 16777216 in *.
        subst tM T.
        set (x := 2 ^ (24 - dM)) in *. set (y := 2 ^ (24 - j)) in *.
        set (z := 2 ^ j) in *. set (w := 2 ^ (j + 7 - dM)) in *.
        (* multiply the claim by z *)
        assert (G : 2 * (M * x * 16777216) * z
                    < (2 * ((N + 1) * y) - 1) * (13107200 * w) * z).
        { replace (2 * (M * x * 16777216) * z)
            with (2 * M * 16777216 * (x * z)) by ring.
          replace ((2 * ((N + 1) * y) - 1) * (13107200 * w) * z)
            with ((2 * (N + 1) * (y * z) - z) * (100 * (131072 * w))) by ring.
          rewrite Ej, <- E1. nia. }
        nia. }
    assert (BT : bounded prec emax (Z.to_pos (T - 1)) (j - 24) = true).
    { apply bounded_normal; [lia|]. unfold emin.
      change (emax - prec) with 104. lia. }
    assert (CT : nonneg_canonical (S754_finite false (Z.to_pos (T - 1)) (j - 24))).
    { right. eexists _, _. split; [reflexivity|exact BT]. }
    pose proof (to_int_mono 0 4294967295 _ _ ltac:(lia) CM CT Below) as Mo.
    pose proof (to_int_below (T - 1) (j - 24) (N + 1) (2 ^ (24 - j))
                  ltac:(lia) ltac:(lia) Pj
                  ltac:(f_equal; lia) ltac:(subst T; lia)) as Tb.
    lia.
  - (* never below: N itself is a float, and 100 N <= M *)
    destruct (Z.eq_dec N 0) as [Z0|NZ].
    { rewrite Z0.
      pose proof (to_int_mono 0 4294967295 _ _ ltac:(lia)
                    (or_introl eq_refl) CM (SFleb_zero _ CM)) as Mo.
      lia. }
    assert (HK : 0 < 100 * N < 2 ^ 24)
      by (change (2 ^ 24) with 16777216; lia).
    destruct (of_Z_round_pos (100 * N) HK) as (_ & _ & _ & BK).
    pose proof (of_Z_mono (100 * N) M ltac:(lia) ltac:(lia)) as Le.
    rewrite <- (to_int_of_Z N 4294967295)
      by (change (2 ^ 24) with 16777216; lia).
    rewrite <- (div_hundred_whole N) by lia.
    rewrite (of_Z_exact (100 * N) HK), (of_Z_exact M HM24) in *.
    rewrite Hh.
    destruct (div_mono _ _ _ _ 13107200 (-17) BK BM Le ltac:(lia))
      as (Lz & C1 & C2).
    apply to_int_mono; try assumption. lia.
Qed.

End FloatRound.

(* ================================================================= *)
(** ** C strings and the libc calls the sources make on them *)

Module CStr.
Local Open Scope string_scope.

(** [strchr(delim, c) != NULL] for a character [c] other than NUL. *)
Fixpoint mem (c : ascii) (delim : string) : bool :=
  match delim with
  | EmptyString => false
  | String d delim' => if Ascii.eqb c d then true else mem c delim'
  end.

(** [s + strspn(s, delim)]: [s] without its leading delimiters. *)
Fixpoint skip_delims (delim s : string) : string :=
  match s with
  | EmptyString => EmptyString
  | String c s' => if mem c delim then skip_delims delim s' else s
  end.

(** Cuts [s] at its first delimiter: the text before it and, when there
    is one, the text after it. *)
Fixpoint cut_token (delim s : string) : string * option string :=
  match s with
  | EmptyString => (EmptyString, None)
  | String c s' =>
      if mem c delim then (EmptyString, Some s')
      else let '(tok, rest) := cut_token delim s' in (String c tok, rest)
  end.

(** [strtok_r(str, delim, &saveptr)], with [str] the string to scan (the
    caller passes the previous [saveptr] where C passes NULL).  Returns
    the token, if any, and the new [saveptr]. *)
Definition strtok_r (str delim : string) : option string * string :=
  match skip_delims delim str with
  | EmptyString => (None, EmptyString)
  | s =>
      match cut_token delim s with
      | (tok, Some rest) => (Some tok, rest)
      | (tok, None) => (Some tok, EmptyString)
      end
  end.

(** The first [n] characters of [s]. *)
Fixpoint prefix (n : nat) (s : string) : string :=
  match n, s with
  | O, _ => EmptyString
  | _, EmptyString => EmptyString
  | S n', String c s' => String c (prefix n' s')
  end.

(** What [snprintf(buf, size, ...)] leaves in [buf] when the conversions
    expand to [text]: at most [size - 1] characters, then the NUL. *)
Definition snprintf (size : nat) (text : string) : string :=
  prefix (Nat.pred size) text.

(** Modelled from the spec: [strncopy] lives in util.c, which is not among
    the sources; brickpico.h declares
    [char *strncopy(char *dst, const char *src, size_t size)] and the
    callers hand it [sizeof] of the destination, so it is taken as the
    bounded copy that always terminates: at most [size - 1] characters. *)
Definition strncopy (src : string) (size : nat) : string :=
  prefix (Nat.pred size) src.

(** [strnlen(s, maxlen)] *)
Definition strnlen (s : string) (maxlen : nat) : nat :=
  Nat.min (String.length s) maxlen.

Example strtok_two_fields :
  strtok_r "2.5,0.5" "," = (Some "2.5", "0.5").
Proof. reflexivity. Qed.

Example strtok_leading_comma : strtok_r ",7" "," = (Some "7", "").
Proof. reflexivity. Qed.

Example strtok_nothing : strtok_r ",," "," = (None, "").
Proof. reflexivity. Qed.

(** [s] holds none of the characters of [delim]. *)
Fixpoint free_of (delim s : string) : bool :=
  match s with
  | EmptyString => true
  | String c s' => negb (mem c delim) && free_of delim s'
  end.

Lemma prefix_all n s : (String.length s <= n)%nat -> prefix n s = s.
Proof.
  revert n. induction s as [|c s IH]; intros [|n] H; cbn in *;
    try reflexivity; try lia.
  f_equal. apply IH. lia.
Qed.

Lemma prefix_length n s : (String.length (prefix n s) <= n)%nat.
Proof.
  revert s. induction n as [|n IH]; intros [|c s]; cbn; try lia.
  specialize (IH s). lia.
Qed.

Lemma prefix_idem n s : prefix n (prefix n s) = prefix n s.
Proof. apply prefix_all, prefix_length. Qed.

Lemma snprintf_fits size text :
  (String.length text < size)%nat -> snprintf size text = text.
Proof. intros H. apply prefix_all. lia. Qed.


Lemma append_length a b :
  String.length (a ++ b) = (String.length a + String.length b)%nat.
Proof. induction a as [|c a IH]; cbn; [reflexivity|now rewrite IH]. Qed.

Lemma append_assoc a b c : (a ++ (b ++ c) = (a ++ b) ++ c)%string.
Proof. induction a as [|d a IH]; cbn; [reflexivity|now rewrite IH]. Qed.

Lemma free_of_append delim a b :
  free_of delim (a ++ b) = free_of delim a && free_of delim b.
Proof.
  induction a as [|c a IH]; cbn; [reflexivity|].
  now rewrite IH, andb_assoc.
Qed.









End CStr.

(* ================================================================= *)
(** ** The [printf] conversions the sources use *)

Module Printf.
Local Open Scope string_scope.

Definition digit_char (d : Z) : ascii := ascii_of_N (Z.to_N (48 + d)).

(** Decimal digits of [n], least significant first, put in front of
    [acc]. *)
Fixpoint dec_loop (fuel : nat) (n : Z) (acc : string) : string :=
  match fuel with
  | O => acc
  | S fuel' =>
      let acc' := String (digit_char (n mod 10)) acc in
      if (n / 10 =? 0)%Z then acc' else dec_loop fuel' (n / 10) acc'
  end.

(** [%u], [%llu]: a number has no more decimal digits than binary ones,
    which bounds the loop. *)
Definition fmt_u (n : Z) : string :=
  dec_loop (S (Z.to_nat (Z.log2 n))) n "".

Fixpoint fill (c : ascii) (k : nat) (s : string) : string :=
  match k with
  | O => s
  | S k' => String c (fill c k' s)
  end.

(** A minimum field width: padding goes in front. *)
Definition pad_left (c : ascii) (width : nat) (s : string) : string :=
  fill c (width - String.length s) s.

(** Padding behind the text, as [%-6llu] would do. *)
Definition pad_right (c : ascii) (width : nat) (s : string) : string :=
  s ++ fill c (width - String.length s) "".

(** [%6llu] and [%06llu] *)
Definition fmt_6llu (n : Z) : string := pad_left " " 6 (fmt_u n).
Definition fmt_06llu (n : Z) : string := pad_left "0" 6 (fmt_u n).

(** [%f] as the C standard describes it for a binary32 argument: the
    exact value rounded to six decimals. *)
Definition fmt_f (x : spec_float) : string :=
  match x with
  | S754_nan => "nan"
  | S754_infinity s => if s then "-inf" else "inf"
  | S754_zero s => (if s then "-" else "") ++ "0.000000"
  | S754_finite s m e =>
      let scaled :=
        if (0 <=? e)%Z then Z.pos m * 2 ^ e * 1000000
        else Rounding.rne (Z.pos m * 1000000) (2 ^ (- e)) in
      (if s then "-" else "")
        ++ fmt_u (scaled / 1000000) ++ "."
        ++ pad_left "0" 6 (fmt_u (scaled mod 1000000))
  end.

Example fmt_u_zero : fmt_u 0 = "0".
Proof. reflexivity. Qed.

Example fmt_u_max : fmt_u 18446744073709551615 = "18446744073709551615".
Proof. reflexivity. Qed.

Example fmt_6llu_12 : fmt_6llu 12 = "    12".
Proof. reflexivity. Qed.

Example fmt_06llu_12 : fmt_06llu 12 = "000012".
Proof. reflexivity. Qed.

Example fmt_f_one : fmt_f Float32.one = "1.000000".
Proof. reflexivity. Qed.

Example fmt_f_third :
  fmt_f (Float32.div Float32.one (Float32.of_Z 3)) = "0.333333".
Proof. reflexivity. Qed.

(** *** Number of digits *)

Lemma dec_loop_length : forall (k fuel : nat) n acc,
  (1 <= k <= fuel)%nat ->
  0 <= n < 10 ^ Z.of_nat k -> (k = 1%nat \/ 10 ^ (Z.of_nat k - 1) <= n) ->
  String.length (dec_loop fuel n acc) = (k + String.length acc)%nat.
Proof.
  induction k as [|k IH]; intros fuel n acc Hk Hn Hlow; [lia|].
  destruct fuel as [|fuel]; [lia|]. cbn [dec_loop].
  destruct (Z.eqb_spec (n / 10) 0) as [E|NE].
  - assert (n < 10).
    { pose proof (Z.div_mod n 10). pose proof (Z.mod_pos_bound n 10). lia. }
    destruct Hlow as [->|Hlow]; [reflexivity|].
    destruct k as [|k]; [reflexivity|].
    exfalso.
    assert (10 ^ 1 <= 10 ^ (Z.of_nat (S (S k)) - 1))
      by (apply Z.pow_le_mono_r; lia).
    lia.
  - assert (Hq : 1 <= n / 10).
    { assert (0 <= n / 10) by (apply Z.div_pos; lia). lia. }
    destruct k as [|k].
    { exfalso. change (10 ^ Z.of_nat 1) with 10 in Hn.
      rewrite Z.div_small in NE by lia. lia. }
    rewrite (IH fuel (n / 10)).
    + cbn. lia.
    + lia.
    + replace (Z.of_nat (S (S k))) with (Z.of_nat (S k) + 1) in Hn by lia.
      rewrite Z.pow_add_r in Hn by lia. change (10 ^ 1) with 10 in Hn.
      split; [lia|]. apply Z.div_lt_upper_bound; lia.
    + destruct Hlow as [Hlow|Hlow]; [lia|].
      destruct k as [|k]; [left; reflexivity|right].
      replace (Z.of_nat (S (S (S k))) - 1) with (Z.of_nat (S (S k)) - 1 + 1)
        in Hlow by lia.
      rewrite Z.pow_add_r in Hlow by lia. change (10 ^ 1) with 10 in Hlow.
      apply Z.div_le_lower_bound; lia.
Qed.

(** [fmt_u n] has [k] characters exactly when [n] has [k] decimal
    digits. *)
Lemma fmt_u_length (k : nat) n :
  (1 <= k)%nat ->
  0 <= n < 10 ^ Z.of_nat k -> (k = 1%nat \/ 10 ^ (Z.of_nat k - 1) <= n) ->
  String.length (fmt_u n) = k.
Proof.
  intros Hk Hn Hlow. unfold fmt_u.
  rewrite (dec_loop_length k); cbn [String.length]; try lia; try assumption.
  split; [assumption|].
  destruct Hlow as [->|Hlow]; [lia|].
  assert (Hpos : 0 < n).
  { assert (0 < 10 ^ (Z.of_nat k - 1)) by (apply Z.pow_pos_nonneg; lia). lia. }
  assert (2 ^ (Z.of_nat k - 1) <= n).
  { etransitivity; [|exact Hlow]. apply Z.pow_le_mono_l. lia. }
  assert (Z.of_nat k - 1 <= Z.log2 n).
  { apply Z.log2_le_pow2; lia. }
  lia.
Qed.

Lemma fill_length c k s :
  String.length (fill c k s) = (k + String.length s)%nat.
Proof. induction k as [|k IH]; cbn; [reflexivity|now rewrite IH]. Qed.

Lemma pad_left_length c width s :
  String.length (pad_left c width s) = Nat.max width (String.length s).
Proof. unfold pad_left. rewrite fill_length. lia. Qed.

Lemma fmt_u_length_le : forall (k : nat) n,
  (1 <= k)%nat -> 0 <= n < 10 ^ Z.of_nat k ->
  (1 <= String.length (fmt_u n) <= k)%nat.
Proof.
  induction k as [|k IH]; intros n Hk Hn; [lia|].
  destruct k as [|k].
  - rewrite (fmt_u_length 1); [lia|lia|assumption|now left].
  - destruct (Z_lt_le_dec n (10 ^ Z.of_nat (S k))) as [Lt|Ge].
    + assert (1 <= String.length (fmt_u n) <= S k)%nat
        by (apply IH; lia). lia.
    + rewrite (fmt_u_length (S (S k))); [lia|lia|assumption|right].
      replace (Z.of_nat (S (S k)) - 1) with (Z.of_nat (S k)) by lia.
      assumption.
Qed.

Lemma fmt_06llu_length n :
  0 <= n < 1000000 -> String.length (fmt_06llu n) = 6%nat.
Proof.
  intros H. unfold fmt_06llu. rewrite pad_left_length.
  pose proof (fmt_u_length_le 6 n ltac:(lia)) as L.
  change (10 ^ Z.of_nat 6) with 1000000 in L. lia.
Qed.

Lemma fmt_6llu_length n :
  0 <= n ->
  String.length (fmt_6llu n) = Nat.max 6 (String.length (fmt_u n)) /\
  (n < 1000000 -> String.length (fmt_6llu n) = 6%nat).
Proof.
  intros H. unfold fmt_6llu. rewrite pad_left_length.
  split; [reflexivity|]. intros Hs.
  pose proof (fmt_u_length_le 6 n ltac:(lia)) as L.
  change (10 ^ Z.of_nat 6) with 1000000 in L. lia.
Qed.

End Printf.

(* ================================================================= *)
(** ** pwm.c: frequency planner *)

Module Pwm.
Import CInt.

(** [#define PWM_TOP_MAX (1<<16)] *)
Definition PWM_TOP_MAX : Z := Z.shiftl 1 16.

(** What [setup_pwm_outputs] leaves behind before it walks the pins: the
    clamped frequency, the local [clk_div] and [top], the global
    [pwm_out_top] ([uint16_t]) and the three fields of the [pwm_config]. *)
Record pwm_setup := {
  pwm_freq : Z;
  clk_div : Z;
  top : Z;
  pwm_out_top : Z;
  cfg_clkdiv_int : Z;
  cfg_phase_correct : bool;
  cfg_wrap : Z
}.

(** Lines 93-96: the requested frequency is forced into [10, 100000]. *)
Definition clamp_pwm_freq (pwm_freq : Z) : Z :=
  if pwm_freq <? 10 then 10
  else if pwm_freq >? 100000 then 100000
  else pwm_freq.

(** [top = sys_clock / clk_div / pwm_freq / 2 - 1], in 32-bit unsigned
    arithmetic (lines 101 and 105). *)
Definition phase_correct_top (sys_clock clk_div pwm_freq : Z) : Z :=
  u32 (sys_clock / clk_div / pwm_freq / 2 - 1).

(** Lines 85-112 of [setup_pwm_outputs]; [sys_clock] is what
    [clock_get_hz(clk_sys)] returned and [cfg_pwm_freq] is
    [cfg->pwm_freq]. *)
Definition setup_pwm_outputs (sys_clock cfg_pwm_freq : Z) : pwm_setup :=
  let pwm_freq := clamp_pwm_freq cfg_pwm_freq in
  let clk_div := 1 in
  let top := phase_correct_top sys_clock clk_div pwm_freq in
  let '(clk_div, top) :=
    if PWM_TOP_MAX <=? top then
      let clk_div := u32 (top / PWM_TOP_MAX + 1) in
      (clk_div, phase_correct_top sys_clock clk_div pwm_freq)
    else (clk_div, top) in
  let pwm_out_top := u16 top in
  {| pwm_freq := pwm_freq;
     clk_div := clk_div;
     top := top;
     pwm_out_top := pwm_out_top;
     cfg_clkdiv_int := clk_div;
     cfg_phase_correct := true;
     cfg_wrap := pwm_out_top |}.

(** The value [top] takes on line 101, with the divider still 1. *)
Definition top_at_div1 (sys_clock cfg_pwm_freq : Z) : Z :=
  phase_correct_top sys_clock 1 (clamp_pwm_freq cfg_pwm_freq).

(** Ceiling of a quotient of non-negative integers. *)
Definition ceil_div (a b : Z) : Z := (a + b - 1) / b.

Example setup_125MHz_1kHz :
  let s := setup_pwm_outputs 125000000 1000 in
  (clk_div s, top s, pwm_out_top s) = (1, 62499, 62499).
Proof. reflexivity. Qed.

Example setup_125MHz_10Hz :
  let s := setup_pwm_outputs 125000000 5 in
  (pwm_freq s, clk_div s, top s, pwm_out_top s) = (10, 96, 65103, 65103).
Proof. reflexivity. Qed.

Lemma clamp_pwm_freq_range f : 10 <= clamp_pwm_freq f <= 100000.
Proof.
  unfold clamp_pwm_freq.
  destruct (Z.ltb_spec f 10); [lia|].
  destruct (Z.gtb_spec f 100000); lia.
Qed.

Lemma clamp_pwm_freq_id f : 10 <= f <= 100000 -> clamp_pwm_freq f = f.
Proof.
  intros H. unfold clamp_pwm_freq.
  destruct (Z.ltb_spec f 10); [lia|].
  destruct (Z.gtb_spec f 100000); lia.
Qed.

(** The chain of truncating divisions is one truncating division. *)
Lemma div_chain s d f :
  0 < d -> 0 < f -> s / d / f / 2 = s / (2 * d * f).
Proof.
  intros Hd Hf.
  rewrite !Z.div_div by lia.
  f_equal. lia.
Qed.

Lemma phase_correct_top_eq s d f :
  0 < d -> 0 < f -> 2 * d * f <= s < 4294967296 ->
  phase_correct_top s d f = s / (2 * d * f) - 1 /\
  2 * d * f * (phase_correct_top s d f + 1) <= s
    < 2 * d * f * (phase_correct_top s d f + 2).
Proof.
  intros Hd Hf Hs. unfold phase_correct_top.
  rewrite div_chain by assumption.
  set (k := 2 * d * f) in *.
  assert (Hk : 0 < k) by (subst k; nia).
  assert (H1 : 1 <= s / k) by (apply Z.div_le_lower_bound; lia).
  assert (H2 : s / k <= s) by (apply Z.div_le_upper_bound; nia).
  rewrite u32_small by lia.
  split; [reflexivity|].
  pose proof (Z.mul_div_le s k Hk).
  pose proof (Z.mul_succ_div_gt s k Hk).
  replace (s / k - 1 + 1) with (s / k) by lia.
  replace (s / k - 1 + 2) with (Z.succ (s / k)) by lia.
  lia.
Qed.

(** When the divider-1 top does not fit, the divider the code picks is the
    smallest one that brings the divided count under the limit. *)
Lemma adjusted_div_bounds q :
  65537 <= q < 4294967296 ->
  let d := (q - 1) / 65536 + 1 in
  2 <= d <= 65536 /\ d <= q /\ q <= 65536 * d.
Proof.
  intros Hq d. subst d.
  pose proof (Z.mul_div_le (q - 1) 65536 eq_refl).
  pose proof (Z.mul_succ_div_gt (q - 1) 65536 eq_refl).
  assert (1 <= (q - 1) / 65536) by (apply Z.div_le_lower_bound; lia).
  assert ((q - 1) / 65536 < 65536) by (apply Z.div_lt_upper_bound; lia).
  lia.
Qed.

(** The fields that do not depend on the branch taken. *)
Lemma setup_pwm_outputs_fields sys_clock cfg_pwm_freq :
  let s := setup_pwm_outputs sys_clock cfg_pwm_freq in
  pwm_freq s = clamp_pwm_freq cfg_pwm_freq /\
  cfg_wrap s = pwm_out_top s /\
  pwm_out_top s = u16 (top s) /\
  cfg_clkdiv_int s = clk_div s /\
  cfg_phase_correct s = true.
Proof.
  unfold setup_pwm_outputs.
  destruct (PWM_TOP_MAX <=? _); cbn; repeat split.
Qed.

(** The planner unfolded: which branch runs and what it computes, as
    plain integer arithmetic. *)
Lemma setup_pwm_outputs_cases sys_clock cfg_pwm_freq :
  let f := clamp_pwm_freq cfg_pwm_freq in
  let q := sys_clock / (2 * f) in
  let s := setup_pwm_outputs sys_clock cfg_pwm_freq in
  2 * f <= sys_clock < 4294967296 ->
  top_at_div1 sys_clock cfg_pwm_freq = q - 1 /\
  ((q - 1 < 65536 /\ clk_div s = 1 /\ top s = q - 1) \/
   (65536 <= q - 1 /\ clk_div s = (q - 1) / 65536 + 1 /\
    top s = sys_clock / (2 * clk_div s * f) - 1 /\
    2 * clk_div s * f <= sys_clock)).
Proof.
  intros f q s Hs.
  pose proof (clamp_pwm_freq_range cfg_pwm_freq) as Hf. fold f in Hf.
  destruct (phase_correct_top_eq sys_clock 1 f) as [E1 B1]; [lia|lia|lia|].
  replace (2 * 1 * f) with (2 * f) in * by lia. fold q in E1.
  split; [exact E1|].
  assert (Hq1 : 1 <= q) by (apply Z.div_le_lower_bound; lia).
  assert (Hq2 : q <= sys_clock) by (apply Z.div_le_upper_bound; nia).
  subst s. unfold setup_pwm_outputs. fold f. rewrite E1.
  change PWM_TOP_MAX with 65536.
  destruct (Z.leb_spec 65536 (q - 1)) as [Big|Small]; cbn [clk_div top].
  - right.
    destruct (adjusted_div_bounds q) as (D1 & D2 & D3); [lia|].
    rewrite u32_small by lia.
    set (d := (q - 1) / 65536 + 1) in *.
    assert (Hd : 2 * d * f <= sys_clock).
    { pose proof (Z.mul_div_le sys_clock (2 * f)). fold q in H. nia. }
    destruct (phase_correct_top_eq sys_clock d f) as [E2 _]; [lia|lia|lia|].
    repeat split; try assumption.
  - left. repeat split; lia.
Qed.

(** What the planner ends with, in terms of the frequency it planned
    for. *)
Lemma setup_pwm_outputs_plan (sys_clock cfg_pwm_freq : Z) :
  let s := setup_pwm_outputs sys_clock cfg_pwm_freq in
  2 * clamp_pwm_freq cfg_pwm_freq <= sys_clock < 4294967296 ->
  pwm_freq s = clamp_pwm_freq cfg_pwm_freq /\
  10 <= pwm_freq s <= 100000 /\
  0 <= top s < 65536 /\
  pwm_out_top s = top s /\
  cfg_wrap s = top s /\
  1 <= clk_div s /\
  cfg_clkdiv_int s = clk_div s /\
  cfg_phase_correct s = true /\
  2 * clk_div s * (top s + 1) * pwm_freq s <= sys_clock
    < 2 * clk_div s * (top s + 2) * pwm_freq s /\
  pwm_freq s <= sys_clock / clk_div s / (top s + 1) / 2 /\
  (sys_clock / clk_div s / (top s + 1) / 2 - pwm_freq s) * (top s + 1)
    < pwm_freq s.
Proof.
  intros s Hs.
  pose proof (clamp_pwm_freq_range cfg_pwm_freq) as Hf.
  destruct (setup_pwm_outputs_cases sys_clock cfg_pwm_freq Hs) as [_ Hc].
  fold s in Hc.
  set (f := clamp_pwm_freq cfg_pwm_freq) in *.
  set (q := sys_clock / (2 * f)) in *.
  destruct (setup_pwm_outputs_fields sys_clock cfg_pwm_freq)
    as (Ef & Ew & Eo & Ec & Ep).
  fold s f in Ef, Ew, Eo, Ec, Ep.
  assert (Hq1 : 1 <= q) by (apply Z.div_le_lower_bound; lia).
  assert (Hq2 : q <= sys_clock) by (apply Z.div_le_upper_bound; nia).
  assert (Core : 1 <= clk_div s /\ 0 <= top s < 65536 /\
                 2 * clk_div s * f * (top s + 1) <= sys_clock
                   < 2 * clk_div s * f * (top s + 2)).
  { destruct Hc as [(Small & Ed & Et) | (Big & Ed & Et & Hd)].
    - rewrite Ed, Et. split; [lia|]. split; [lia|].
      replace (2 * 1 * f) with (2 * f) by lia.
      replace (q - 1 + 1) with q by lia.
      replace (q - 1 + 2) with (Z.succ q) by lia.
      pose proof (Z.mul_div_le sys_clock (2 * f)).
      pose proof (Z.mul_succ_div_gt sys_clock (2 * f)).
      fold q in H, H0. lia.
    - destruct (adjusted_div_bounds q) as (D1 & D2 & D3); [lia|].
      cbv zeta in D1, D2, D3. rewrite <- Ed in D1, D2, D3.
      set (d := clk_div s) in *.
      assert (Hk : 0 < 2 * d * f) by nia.
      pose proof (Z.mul_div_le sys_clock (2 * d * f) Hk) as L1.
      pose proof (Z.mul_succ_div_gt sys_clock (2 * d * f) Hk) as L2.
      assert (T1 : 1 <= sys_clock / (2 * d * f))
        by (apply Z.div_le_lower_bound; lia).
      assert (T2 : sys_clock / (2 * d * f) <= 65536).
      { assert (sys_clock / (2 * d * f) < 65537); [|lia].
        apply Z.div_lt_upper_bound; [lia|].
        pose proof (Z.mul_succ_div_gt sys_clock (2 * f)) as L3.
        fold q in L3. nia. }
      rewrite Et. split; [lia|]. split; [lia|].
      replace (sys_clock / (2 * d * f) - 1 + 1)
        with (sys_clock / (2 * d * f)) by lia.
      replace (sys_clock / (2 * d * f) - 1 + 2)
        with (Z.succ (sys_clock / (2 * d * f))) by lia.
      lia. }
  destruct Core as (Hd & Ht & Lo & Hi).
  rewrite Ew, Eo, Ec, Ep, Ef, (u16_small (top s)) by lia.
  set (d := clk_div s) in *. set (t := top s) in *.
  assert (Ediv : sys_clock / d / (t + 1) / 2 = sys_clock / (2 * d * (t + 1)))
    by (apply div_chain; lia).
  assert (Hk : 0 < 2 * d * (t + 1)) by nia.
  assert (A1 : f <= sys_clock / (2 * d * (t + 1)))
    by (apply Z.div_le_lower_bound; nia).
  pose proof (Z.mul_div_le sys_clock (2 * d * (t + 1)) Hk) as A2.
  rewrite Ediv.
  repeat split; try lia; try nia.
Qed.

Lemma clamp_pwm_freq_eq f :
  clamp_pwm_freq f = Z.max 10 (Z.min f 100000).
Proof.
  unfold clamp_pwm_freq.
  destruct (Z.ltb_spec f 10); [lia|].
  rewrite Z.gtb_ltb. destruct (Z.ltb_spec 100000 f); lia.
Qed.

(** C1.  Let [f] be the requested frequency forced into [10, 100000] Hz
    (the request itself when it lies in that range).  For every 32-bit
    system clock of at least [2 f], [setup_pwm_outputs] plans for [f] and
    ends with [top < 65536] (so storing it in the 16-bit [pwm_out_top]
    loses nothing), a divider of at least 1, and
    [clock / divider / (top+1) / 2] at or above [f] and less than one
    counter step ([1/(top+1)] of [f]) away from it. *)
Theorem setup_pwm_outputs_frequency (sys_clock cfg_pwm_freq : Z) :
  let s := setup_pwm_outputs sys_clock cfg_pwm_freq in
  let f := Z.max 10 (Z.min cfg_pwm_freq 100000) in
  2 * f <= sys_clock < 4294967296 ->
  pwm_freq s = f /\
  (10 <= cfg_pwm_freq <= 100000 -> pwm_freq s = cfg_pwm_freq) /\
  (cfg_pwm_freq < 10 -> pwm_freq s = 10) /\
  (100000 < cfg_pwm_freq -> pwm_freq s = 100000) /\
  0 <= top s < 65536 /\
  pwm_out_top s = top s /\
  cfg_wrap s = top s /\
  1 <= clk_div s /\
  cfg_clkdiv_int s = clk_div s /\
  cfg_phase_correct s = true /\
  2 * clk_div s * (top s + 1) * f <= sys_clock
    < 2 * clk_div s * (top s + 2) * f /\
  f <= sys_clock / clk_div s / (top s + 1) / 2 /\
  (sys_clock / clk_div s / (top s + 1) / 2 - f) * (top s + 1) < f.
Proof.
  intros s f Hs.
  assert (Ef : clamp_pwm_freq cfg_pwm_freq = f)
    by (subst f; apply clamp_pwm_freq_eq).
  rewrite <- Ef in Hs.
  destruct (setup_pwm_outputs_plan sys_clock cfg_pwm_freq Hs)
    as (P1 & P2 & P3 & P4 & P5 & P6 & P7 & P8 & P9 & P10 & P11).
  fold s in P1, P2, P3, P4, P5, P6, P7, P8, P9, P10, P11.
  rewrite Ef in P1. rewrite P1 in P9, P10, P11.
  split; [exact P1|].
  split; [intros H; rewrite P1; subst f; lia|].
  split; [intros H; rewrite P1; subst f; lia|].
  split; [intros H; rewrite P1; subst f; lia|].
  repeat (split; [assumption|]). assumption.
Qed.

(** A 125 MHz clock and a request of 1 kHz: the planner plans for 1 kHz
    with divider 1 and [top = 62499], which gives 1 kHz exactly. *)
Lemma setup_pwm_outputs_frequency_witness :
  let s := setup_pwm_outputs 125000000 1000 in
  pwm_freq s = 1000 /\
  (10 <= 1000 <= 100000 -> pwm_freq s = 1000) /\
  (1000 < 10 -> pwm_freq s = 10) /\
  (100000 < 1000 -> pwm_freq s = 100000) /\
  0 <= top s < 65536 /\
  pwm_out_top s = top s /\
  cfg_wrap s = top s /\
  1 <= clk_div s /\
  cfg_clkdiv_int s = clk_div s /\
  cfg_phase_correct s = true /\
  2 * clk_div s * (top s + 1) * 1000 <= 125000000
    < 2 * clk_div s * (top s + 2) * 1000 /\
  1000 <= 125000000 / clk_div s / (top s + 1) / 2 /\
  (125000000 / clk_div s / (top s + 1) / 2 - 1000) * (top s + 1) < 1000.
Proof.
  apply (setup_pwm_outputs_frequency 125000000 1000).
  vm_compute. split; [discriminate | reflexivity].
Defined.

(** The divider rule as the specification words it: a divider-1 top at or
    above [2^16] makes the divider [ceil(top / 2^16)], with [top]
    recomputed for it; below [2^16] the divider stays 1. *)
Definition divider_is_ceiling_at (sys_clock cfg_pwm_freq : Z) : Prop :=
  let t1 := top_at_div1 sys_clock cfg_pwm_freq in
  let s := setup_pwm_outputs sys_clock cfg_pwm_freq in
  (PWM_TOP_MAX <= t1 ->
     clk_div s = ceil_div t1 PWM_TOP_MAX /\
     top s = phase_correct_top sys_clock (clk_div s) (pwm_freq s)) /\
  (t1 < PWM_TOP_MAX -> clk_div s = 1 /\ top s = t1).

(** C5, as stated, fails: at 240 MHz and 1831 Hz the divider-1 top is
    exactly [2^16]; its ceiling quotient by [2^16] is 1, and the code sets
    the divider to 2 (a divider of 1 would leave top at 65536, one too
    many for the counter). *)
Lemma divider_is_ceiling_counterexample :
  ~ divider_is_ceiling_at 240000000 1831.
Proof.
  unfold divider_is_ceiling_at. intros [H _].
  assert (P : PWM_TOP_MAX <= top_at_div1 240000000 1831)
    by (vm_compute; discriminate).
  destruct (H P) as [E _].
  vm_compute in E. discriminate E.
Qed.

(** C5, amended.  When the divider-1 top is at or above [2^16] the divider
    becomes [floor(top / 2^16) + 1], which is [ceil((top+1) / 2^16)] and
    equals [ceil(top / 2^16)] exactly when [top] is not a multiple of
    [2^16]; [top] is then recomputed with that divider.  When the
    divider-1 top is below [2^16] the divider stays 1 and [top] is kept. *)
Theorem setup_pwm_outputs_divider (sys_clock cfg_pwm_freq : Z) :
  let t1 := top_at_div1 sys_clock cfg_pwm_freq in
  let s := setup_pwm_outputs sys_clock cfg_pwm_freq in
  (PWM_TOP_MAX <= t1 ->
     clk_div s = t1 / PWM_TOP_MAX + 1 /\
     clk_div s = ceil_div (t1 + 1) PWM_TOP_MAX /\
     (clk_div s = ceil_div t1 PWM_TOP_MAX <-> t1 mod PWM_TOP_MAX <> 0) /\
     top s = phase_correct_top sys_clock (clk_div s) (pwm_freq s)) /\
  (t1 < PWM_TOP_MAX -> clk_div s = 1 /\ top s = t1).
Proof.
  intros t1 s.
  assert (R : 0 <= t1 < 4294967296).
  { subst t1. unfold top_at_div1, phase_correct_top.
    apply (to_unsigned_range 32). lia. }
  assert (Es : s = setup_pwm_outputs sys_clock cfg_pwm_freq) by reflexivity.
  unfold setup_pwm_outputs in Es.
  fold (top_at_div1 sys_clock cfg_pwm_freq) in Es. fold t1 in Es.
  change PWM_TOP_MAX with 65536 in *.
  destruct (Z.leb_spec 65536 t1) as [Big|Small]; rewrite Es; cbn.
  - split; [intros _ | intros Hs; lia].
    assert (Q : t1 / 65536 < 65536) by (apply Z.div_lt_upper_bound; lia).
    assert (Q0 : 0 <= t1 / 65536) by (apply Z.div_pos; lia).
    rewrite u32_small by lia.
    assert (C1 : ceil_div (t1 + 1) 65536 = t1 / 65536 + 1).
    { unfold ceil_div.
      replace (t1 + 1 + 65536 - 1) with (t1 + 1 * 65536) by lia.
      now rewrite Z.div_add by lia. }
    split; [reflexivity|]. split; [congruence|]. split; [|reflexivity].
    split.
    + intros E M. unfold ceil_div in E.
      apply Z.mod_divide in M; [|lia]. destruct M as [k M].
      rewrite M in E.
      replace (k * 65536 + 65536 - 1) with (65535 + k * 65536) in E by lia.
      rewrite Z.div_add, Z.div_mul in E by lia.
      change (65535 / 65536) with 0 in E. lia.
    + intros M. unfold ceil_div.
      pose proof (Z.div_mod t1 65536) as D.
      pose proof (Z.mod_pos_bound t1 65536) as B.
      set (r := t1 mod 65536) in *. set (k := t1 / 65536) in *.
      replace (t1 + 65536 - 1) with (r - 1 + (k + 1) * 65536) by lia.
      rewrite Z.div_add by lia.
      rewrite Z.div_small by lia. lia.
  - split; [intros Hb; lia | intros _; split; reflexivity].
Qed.

(** *** [set_pwm_duty_cycle] *)

(** Lines 66-72: the [uint level] chosen for [duty] when the global
    [pwm_out_top] holds [out_top].  [pwm_out_top + 1] is an [int]; the
    product and the quotient are taken in [float], and the quotient is
    converted to [uint]. *)
Definition duty_level (out_top : Z) (duty : Float32.float32) : Z :=
  if Float32.ge duty Float32.hundred then u32 (out_top + 1)
  else if Float32.gt duty Float32.zero then
    Float32.to_uint32
      (Float32.div (Float32.mul duty (Float32.of_Z (out_top + 1)))
         (Float32.of_Z 100))
  else 0.

(** The one effect of the function: the call
    [pwm_set_gpio_level(pin, level)], kept with its arguments. *)
Record gpio_level_call := {
  gpio : Z;
  level : Z
}.

Section Board.

(** [assert] is compiled out in a build that defines [NDEBUG]. *)
Variable NDEBUG : bool.

(** [OUTPUT_COUNT] comes from the board header; the pin numbers in
    [output_gpio_pwm_map] are the board's [PWMn_PIN] macros. *)
Variable OUTPUT_COUNT : Z.
Variable output_gpio_pwm_map : list Z.

(** Lines 60-74.  [None] is the failed [assert], which only a build
    without [NDEBUG] has; with [NDEBUG] the call is made for every index
    (past the end of the map C reads outside the array, where the model
    has pin 0). *)
Definition set_pwm_duty_cycle (out_top out : Z) (duty : Float32.float32)
  : option gpio_level_call :=
  if NDEBUG || (out <? OUTPUT_COUNT) then
    let pin := nth (Z.to_nat out) output_gpio_pwm_map 0 in
    Some {| gpio := pin; level := duty_level out_top duty |}
  else None.

End Board.

Example duty_zero : duty_level 4799 Float32.zero = 0.
Proof. reflexivity. Qed.

Example duty_hundred : duty_level 4799 Float32.hundred = 4800.
Proof. reflexivity. Qed.

Example duty_fifty : duty_level 4799 Float32.fifty = 2400.
Proof. vm_compute. reflexivity. Qed.

Example duty_one : duty_level 4799 Float32.one = 48.
Proof. vm_compute. reflexivity. Qed.

Example duty_nan : duty_level 4799 S754_nan = 0.
Proof. reflexivity. Qed.

Lemma duty_level_full out_top duty :
  0 <= out_top <= 65535 -> Float32.ge duty Float32.hundred = true ->
  duty_level out_top duty = out_top + 1.
Proof.
  intros Ht H. unfold duty_level. rewrite H. apply u32_small. lia.
Qed.

Lemma duty_level_zero out_top duty :
  Float32.le duty Float32.zero = true -> duty_level out_top duty = 0.
Proof.
  intros H. unfold duty_level.
  destruct duty as [s|s| |s m e]; try destruct s; try discriminate H;
    reflexivity.
Qed.

Lemma duty_level_quantize out_top m e :
  SFleb Float32.hundred (S754_finite false m e) = false ->
  duty_level out_top (S754_finite false m e)
  = FloatRound.quantize (S754_finite false m e) (Float32.of_Z (out_top + 1))
      Float32.hundred.
Proof.
  intros H. unfold duty_level, Float32.ge. rewrite H. reflexivity.
Qed.

Lemma duty_level_below out_top duty :
  0 <= out_top <= 65535 -> valid_binary Float32.prec Float32.emax duty = true ->
  Float32.ge duty Float32.hundred = false ->
  0 <= duty_level out_top duty <= out_top.
Proof.
  intros Ht V H.
  destruct duty as [s|s| |s m e]; try destruct s;
    try discriminate H; try (cbn; lia).
  rewrite duty_level_quantize by exact H.
  destruct (FloatRound.quantize_below m e (out_top + 1) V H ltac:(lia))
    as [Q _].
  lia.
Qed.

Lemma duty_level_mid out_top duty :
  0 <= out_top <= 65535 -> valid_binary Float32.prec Float32.emax duty = true ->
  Float32.gt duty Float32.zero = true ->
  Float32.lt duty Float32.hundred = true ->
  Float32.trunc
    (Float32.div (Float32.mul duty (Float32.of_Z (out_top + 1)))
       (Float32.of_Z 100))
  = Some (duty_level out_top duty).
Proof.
  intros Ht V Hp Hl.
  destruct duty as [s|s| |s m e]; try destruct s;
    try discriminate Hp; try discriminate Hl.
  pose proof (FloatRound.lt_hundred_not_ge m e Hl) as H.
  rewrite duty_level_quantize by exact H.
  destruct (FloatRound.quantize_below m e (out_top + 1) V H ltac:(lia))
    as [_ Q].
  exact Q.
Qed.

Lemma duty_level_fifty out_top :
  0 <= out_top <= 65535 ->
  duty_level out_top Float32.fifty = (out_top + 1) / 2.
Proof.
  intros Ht.
  change (duty_level out_top Float32.fifty)
    with (FloatRound.quantize Float32.fifty (Float32.of_Z (out_top + 1))
            Float32.hundred).
  apply FloatRound.fifty_level. lia.
Qed.

(** The product is rounded to [float] before it is divided: at
    [duty = 33.3333321] (the [float] just below 100/3) and
    [pwm_out_top = 2] the level is 1, although the exact quotient
    [3 * duty / 100] lies below 1. *)
Example duty_level_float_rounding :
  duty_level 2 (S754_finite false 8738133 (-18)) = 1 /\
  3 * 8738133 < 100 * 2 ^ 18.
Proof. split; vm_compute; reflexivity. Qed.

(** *** More on the frequency planner *)

(** The counter range the planner ends with, by divider. *)
Lemma setup_pwm_outputs_ranges (sys_clock cfg_pwm_freq : Z) :
  let s := setup_pwm_outputs sys_clock cfg_pwm_freq in
  2 * clamp_pwm_freq cfg_pwm_freq <= sys_clock < 4294967296 ->
  0 <= top s <= 65535 /\ pwm_out_top s = top s /\ cfg_wrap s = top s /\
  (clk_div s <> 1 -> 2 <= clk_div s <= 65536 /\ 32767 <= top s).
Proof.
  intros s Hs.
  pose proof (clamp_pwm_freq_range cfg_pwm_freq) as Hf.
  destruct (setup_pwm_outputs_fields sys_clock cfg_pwm_freq)
    as (_ & Ew & Eo & _).
  destruct (setup_pwm_outputs_cases sys_clock cfg_pwm_freq Hs)
    as [_ [(Small & D1 & Et) | (Big & Ed & Et & Hle)]];
    cbv zeta in *; fold s in Ew, Eo.
  - fold s in D1, Et.
    set (f := clamp_pwm_freq cfg_pwm_freq) in *.
    set (q := sys_clock / (2 * f)) in *.
    assert (Hq1 : 1 <= q) by (apply Z.div_le_lower_bound; lia).
    assert (R : 0 <= top s <= 65535) by lia.
    assert (Eo' : pwm_out_top s = top s)
      by (rewrite Eo; apply u16_small; lia).
    split; [exact R|]. split; [exact Eo'|]. split; [congruence|].
    intros Hd. contradiction.
  - fold s in Ed, Et, Hle.
    set (f := clamp_pwm_freq cfg_pwm_freq) in *.
    set (q := sys_clock / (2 * f)) in *.
    assert (Hq : q < 4294967296).
    { subst q. apply Z.div_lt_upper_bound; lia. }
    destruct (adjusted_div_bounds q) as (D1 & D2 & D3); [lia|].
    cbv zeta in *. rewrite <- Ed in D1, D2, D3.
    set (d := clk_div s) in *.
    assert (Eq : sys_clock / (2 * d * f) = q / d).
    { subst q. rewrite Z.div_div by lia. f_equal. ring. }
    rewrite Eq in Et.
    pose proof (Z.mul_div_le (q - 1) 65536 eq_refl) as L.
    assert (Hlo : 32768 <= q / d) by (apply Z.div_le_lower_bound; lia).
    assert (Hhi : q / d <= 65536) by (apply Z.div_le_upper_bound; lia).
    assert (Eo' : pwm_out_top s = top s)
      by (rewrite Eo; apply u16_small; lia).
    split; [lia|]. split; [exact Eo'|]. split; [congruence|].
    intros _. lia.
Qed.

(** X1: when the planner has to raise the clock divider above 1 it
    still keeps at least 15 bits of counter: the divider lies in
    2..65536 and [top] in 32767..65535. *)
Theorem setup_pwm_outputs_resolution (sys_clock cfg_pwm_freq : Z) :
  let s := setup_pwm_outputs sys_clock cfg_pwm_freq in
  2 * clamp_pwm_freq cfg_pwm_freq <= sys_clock < 4294967296 ->
  clk_div s <> 1 ->
  2 <= clk_div s <= 65536 /\ 32767 <= top s <= 65535 /\
  pwm_out_top s = top s.
Proof.
  intros s Hs Hd.
  destruct (setup_pwm_outputs_ranges sys_clock cfg_pwm_freq Hs)
    as (R & Eo & _ & D).
  fold s in R, Eo, D. specialize (D Hd). repeat split; try lia.
Qed.

Lemma setup_pwm_outputs_resolution_witness :
  let s := setup_pwm_outputs 125000000 10 in
  2 <= clk_div s <= 65536 /\ 32767 <= top s <= 65535 /\
  pwm_out_top s = top s.
Proof.
  apply (setup_pwm_outputs_resolution 125000000 10).
  - vm_compute. split; [discriminate | reflexivity].
  - vm_compute. discriminate.
Defined.

(** X2: a system clock below twice the (clamped) PWM frequency makes
    [sys_clock / clk_div / pwm_freq / 2 - 1] wrap around in [uint]: the
    planner then ends with divider 65536, [top] at [UINT_MAX] and the
    16-bit [pwm_out_top] at 65535. *)
Theorem setup_pwm_outputs_slow_clock (sys_clock cfg_pwm_freq : Z) :
  let s := setup_pwm_outputs sys_clock cfg_pwm_freq in
  0 <= sys_clock < 2 * clamp_pwm_freq cfg_pwm_freq ->
  clk_div s = 65536 /\ top s = 4294967295 /\ pwm_out_top s = 65535 /\
  cfg_wrap s = 65535 /\ cfg_clkdiv_int s = 65536.
Proof.
  intros s Hs.
  pose proof (clamp_pwm_freq_range cfg_pwm_freq) as Hf.
  subst s. unfold setup_pwm_outputs.
  set (f := clamp_pwm_freq cfg_pwm_freq) in *.
  assert (T1 : phase_correct_top sys_clock 1 f = 4294967295).
  { unfold phase_correct_top. rewrite Z.div_1_r.
    assert (sys_clock / f / 2 = 0) as ->.
    { rewrite Z.div_div by lia. apply Z.div_small. lia. }
    reflexivity. }
  rewrite T1.
  change (PWM_TOP_MAX <=? 4294967295) with true. cbv iota.
  change (u32 (4294967295 / PWM_TOP_MAX + 1)) with 65536.
  assert (T2 : phase_correct_top sys_clock 65536 f = 4294967295).
  { unfold phase_correct_top.
    assert (sys_clock / 65536 / f / 2 = 0) as ->.
    { rewrite !Z.div_div by lia. apply Z.div_small. lia. }
    reflexivity. }
  rewrite T2. cbn [clk_div top pwm_out_top cfg_wrap cfg_clkdiv_int].
  repeat split; reflexivity.
Qed.

Lemma setup_pwm_outputs_slow_clock_witness :
  let s := setup_pwm_outputs 150000 100000 in
  clk_div s = 65536 /\ top s = 4294967295 /\ pwm_out_top s = 65535 /\
  cfg_wrap s = 65535 /\ cfg_clkdiv_int s = 65536.
Proof.
  apply (setup_pwm_outputs_slow_clock 150000 100000).
  vm_compute. split; [discriminate | reflexivity].
Defined.

(** *** More on the duty cycle *)

(** [<=] on floats is transitive from a positive finite value on. *)
Lemma SFleb_trans_finite mh eh d1 d2 :
  SFleb (S754_finite false mh eh) d1 = true -> SFleb d1 d2 = true ->
  SFleb (S754_finite false mh eh) d2 = true.
Proof.
  intros H1 H2.
  destruct d1 as [s1|s1| |s1 m1 e1]; try destruct s1; try discriminate H1;
    destruct d2 as [s2|s2| |s2 m2 e2]; try destruct s2; try discriminate H2;
    try reflexivity.
  apply FloatRound.SFleb_finite in H1. apply FloatRound.SFleb_finite in H2.
  apply FloatRound.SFleb_finite. lia.
Qed.

Lemma duty_level_range out_top duty :
  0 <= out_top <= 65535 ->
  valid_binary Float32.prec Float32.emax duty = true ->
  0 <= duty_level out_top duty <= out_top + 1.
Proof.
  intros Ht V.
  destruct (Float32.ge duty Float32.hundred) eqn:G.
  - rewrite (duty_level_full out_top duty Ht G). lia.
  - pose proof (duty_level_below out_top duty Ht V G). lia.
Qed.

Lemma positive_duty duty :
  Float32.ge duty Float32.hundred = false ->
  Float32.gt duty Float32.zero = true ->
  exists m e, duty = S754_finite false m e.
Proof.
  intros G P.
  destruct duty as [s|s| |s m e]; try destruct s; try discriminate P;
    try discriminate G.
  eexists _, _. reflexivity.
Qed.

(** X3: the level never decreases when the duty increases: for any two
    duties with [d1 <= d2], the level programmed for [d1] is at most the
    level programmed for [d2]. *)
Theorem duty_level_monotone (out_top : Z) (d1 d2 : Float32.float32) :
  0 <= out_top <= 65535 ->
  valid_binary Float32.prec Float32.emax d1 = true ->
  valid_binary Float32.prec Float32.emax d2 = true ->
  Float32.le d1 d2 = true ->
  duty_level out_top d1 <= duty_level out_top d2.
Proof.
  intros Ht V1 V2 Hle.
  pose proof (duty_level_range out_top d1 Ht V1) as R1.
  pose proof (duty_level_range out_top d2 Ht V2) as R2.
  destruct (Float32.ge d2 Float32.hundred) eqn:G2.
  { rewrite (duty_level_full out_top d2 Ht G2). lia. }
  assert (G1 : Float32.ge d1 Float32.hundred = false).
  { destruct (Float32.ge d1 Float32.hundred) eqn:G1; [|reflexivity].
    unfold Float32.ge, Float32.hundred in G1, G2.
    rewrite (SFleb_trans_finite _ _ d1 d2 G1 Hle) in G2. discriminate G2. }
  destruct (Float32.gt d1 Float32.zero) eqn:P1.
  2:{ unfold duty_level at 1. rewrite G1, P1. lia. }
  destruct (positive_duty d1 G1 P1) as (m1 & e1 & ->).
  assert (P2 : Float32.gt d2 Float32.zero = true).
  { destruct d2 as [s2|s2| |s2 m2 e2]; try destruct s2;
      try discriminate Hle; reflexivity. }
  destruct (positive_duty d2 G2 P2) as (m2 & e2 & ->).
  unfold Float32.ge in G1, G2.
  rewrite !duty_level_quantize by assumption.
  pose proof (FloatRound.not_ge_hundred m2 e2 G2) as Hb.
  assert (Bb : bounded Float32.prec Float32.emax 13107199 (-17) = true)
    by reflexivity.
  destruct (FloatRound.SFleb_value m2 e2 13107199 (-17) V2 Bb Hb) as [He _].
  destruct (FloatRound.counter_facts (out_top + 1) ltac:(lia))
    as (Hdn & _ & _ & _ & Tn & _).
  cbv zeta in *.
  rewrite FloatRound.of_Z_exact by (change (2 ^ 24) with 16777216; lia).
  set (dn := Zdigits2 (out_top + 1)) in *.
  set (v := 2 ^ (24 - dn)) in *.
  assert (Hc : 2 ^ 23 <= Z.pos (Z.to_pos ((out_top + 1) * v)) < 2 ^ 24).
  { rewrite Z2Pos.id; [exact Tn|]. change (2 ^ 23) with 8388608 in Tn. lia. }
  apply (FloatRound.quantize_mono m1 e1 m2 e2 _ (dn - 24) 13107200 (-17)
           V1 V2 Hle Hc); lia.
Qed.

Lemma duty_level_monotone_witness :
  duty_level 4799 Float32.one <= duty_level 4799 Float32.fifty.
Proof.
  apply (duty_level_monotone 4799 Float32.one Float32.fifty).
  - lia.
  - reflexivity.
  - reflexivity.
  - reflexivity.
Defined.

(** The exact quotient [duty * (pwm_out_top + 1) / 100] truncated toward
    zero, for the positive duty [m * 2^e] with [e <= 0]. *)
Definition exact_level (out_top : Z) (m : positive) (e : Z) : Z :=
  Z.pos m * (out_top + 1) / (100 * 2 ^ (- e)).

(** X4: for every duty strictly between 0.0 and 100.0 the level is the
    exact quotient [duty * (pwm_out_top + 1) / 100] truncated toward
    zero, or one more than that: the two [float] roundings never cost more
    than one step, and never make the level too small. *)
Theorem duty_level_accuracy (out_top : Z) (m : positive) (e : Z) :
  0 <= out_top <= 65535 ->
  bounded Float32.prec Float32.emax m e = true ->
  Float32.lt (S754_finite false m e) Float32.hundred = true ->
  e <= -17 /\
  0 <= exact_level out_top m e <= out_top /\
  exact_level out_top m e
    <= duty_level out_top (S754_finite false m e)
    <= exact_level out_top m e + 1.
Proof.
  intros Ht B Hl.
  pose proof (FloatRound.lt_hundred_not_ge m e Hl) as G.
  pose proof (FloatRound.not_ge_hundred m e G) as Hb.
  assert (Bb : bounded Float32.prec Float32.emax 13107199 (-17) = true)
    by reflexivity.
  destruct (FloatRound.SFleb_value m e 13107199 (-17) B Bb Hb) as [He _].
  rewrite duty_level_quantize by exact G.
  destruct (FloatRound.quantize_near m e (out_top + 1) B G ltac:(lia))
    as [R Q].
  unfold exact_level. split; [exact He|]. split; [lia|exact Q].
Qed.

Lemma duty_level_accuracy_witness :
  -18 <= -17 /\
  0 <= exact_level 2 8738133 (-18) <= 2 /\
  exact_level 2 8738133 (-18)
    <= duty_level 2 (S754_finite false 8738133 (-18))
    <= exact_level 2 8738133 (-18) + 1.
Proof.
  apply (duty_level_accuracy 2 8738133 (-18)).
  - lia.
  - reflexivity.
  - reflexivity.
Defined.

(** X5: a whole-number duty of [k] percent, [0 <= k <= 100], converted to
    [float], programs exactly [k * (pwm_out_top + 1) / 100] rounded
    down. *)
Theorem duty_level_whole_percent (out_top k : Z) :
  0 <= out_top <= 65535 -> 0 <= k <= 100 ->
  duty_level out_top (Float32.of_Z k) = k * (out_top + 1) / 100.
Proof.
  intros Ht Hk.
  destruct (Z.eq_dec k 0) as [->|K0]; [reflexivity|].
  destruct (Z.eq_dec k 100) as [->|K100].
  { rewrite duty_level_full by (assumption || reflexivity).
    rewrite Z.mul_comm, Z.div_mul by lia. reflexivity. }
  assert (HK : 0 < k < 2 ^ 24) by (change (2 ^ 24) with 16777216; lia).
  destruct (FloatRound.normalized k HK) as (Hd & Bd & Tk). cbv zeta in *.
  assert (Hd7 : Zdigits2 k <= 7).
  { apply FloatRound.digits_le; [|lia]. change (2 ^ 7) with 128. lia. }
  rewrite (FloatRound.of_Z_exact k HK).
  set (dk := Zdigits2 k) in *.
  assert (Pk : 0 < 2 ^ (24 - dk)) by (apply Rounding.pow2_pos; lia).
  assert (G : SFleb Float32.hundred
                (S754_finite false (Z.to_pos (k * 2 ^ (24 - dk))) (dk - 24))
              = false).
  { destruct (SFleb Float32.hundred _) eqn:E; [|reflexivity].
    unfold Float32.hundred in E. apply FloatRound.SFleb_finite in E.
    rewrite Z2Pos.id in E by nia.
    destruct E as [E|[E1 E2]]; [lia|].
    assert (dk = 7) by lia.
    replace (24 - dk) with 17 in E2 by lia.
    change (2 ^ 17) with 131072 in E2. lia. }
  rewrite duty_level_quantize by exact G.
  unfold FloatRound.quantize. subst dk.
  rewrite <- (FloatRound.of_Z_exact k HK).
  rewrite FloatRound.mul_whole
    by (try lia; change (2 ^ 24) with 16777216; nia).
  apply FloatRound.whole_div_hundred. nia.
Qed.

Lemma duty_level_whole_percent_witness :
  duty_level 4799 (Float32.of_Z 33) = 33 * (4799 + 1) / 100.
Proof.
  apply (duty_level_whole_percent 4799 33); lia.
Defined.

(** X6: after [setup_pwm_outputs], on a clock of at least twice the PWM
    frequency, every level [set_pwm_duty_cycle] programs lies between 0
    and the counter wrap value plus one, and it is the wrap value plus
    one (output always high) exactly for the duties [>= 100.0]. *)
Theorem setup_then_duty_level (sys_clock cfg_pwm_freq : Z)
    (duty : Float32.float32) :
  let s := setup_pwm_outputs sys_clock cfg_pwm_freq in
  let lv := duty_level (pwm_out_top s) duty in
  2 * clamp_pwm_freq cfg_pwm_freq <= sys_clock < 4294967296 ->
  valid_binary Float32.prec Float32.emax duty = true ->
  0 <= lv <= cfg_wrap s + 1 /\ lv <= 65536 /\
  (lv = cfg_wrap s + 1 <-> Float32.ge duty Float32.hundred = true).
Proof.
  intros s lv Hs V.
  destruct (setup_pwm_outputs_ranges sys_clock cfg_pwm_freq Hs)
    as (R & Eo & Ew & _).
  fold s in R, Eo, Ew. subst lv. rewrite Eo, Ew.
  pose proof (duty_level_range (top s) duty R V) as Rg.
  split; [exact Rg|]. split; [lia|].
  destruct (Float32.ge duty Float32.hundred) eqn:G.
  - rewrite (duty_level_full (top s) duty R G). split; reflexivity || auto.
  - pose proof (duty_level_below (top s) duty R V G).
    split; [lia|discriminate].
Qed.

Lemma setup_then_duty_level_witness :
  let s := setup_pwm_outputs 125000000 1000 in
  let lv := duty_level (pwm_out_top s) Float32.fifty in
  0 <= lv <= cfg_wrap s + 1 /\ lv <= 65536 /\
  (lv = cfg_wrap s + 1 <-> Float32.ge Float32.fifty Float32.hundred = true).
Proof.
  apply (setup_then_duty_level 125000000 1000 Float32.fifty).
  - vm_compute. split; [discriminate | reflexivity].
  - reflexivity.
Defined.

(** *** The duty claim *)

(** The quantization rule as the specification words it, for the duty
    [m * 2^e] strictly between 0 and 100: the level is the quotient
    [duty * (pwm_out_top + 1) / 100] truncated toward zero. *)
Definition level_is_truncated_quotient (out_top : Z) (m : positive) (e : Z)
  : Prop :=
  duty_level out_top (S754_finite false m e) = exact_level out_top m e.

Example duty_level_at_1_4 :
  duty_level 62499 (S754_finite false 11744051 (-23)) = 875 /\
  exact_level 62499 11744051 (-23) = 874.
Proof. vm_compute. split; reflexivity. Qed.

(** C2, as stated, fails: with [pwm_out_top = 62499] (1 kHz on a 125 MHz
    clock) and the duty 1.4 (the [float] [11744051 * 2^-23]) the quotient
    is 874.99998..., which truncates to 874, but the product is rounded to
    the [float] 87500 before it is divided and the code programs 875. *)
Lemma level_is_truncated_quotient_counterexample :
  ~ level_is_truncated_quotient 62499 11744051 (-23).
Proof.
  unfold level_is_truncated_quotient. intros H.
  vm_compute in H. discriminate H.
Qed.

(** C2, amended: for an output index in range, [set_pwm_duty_cycle] makes
    one call [pwm_set_gpio_level(output_gpio_pwm_map[out], level)], where:
    a duty [>= 100.0] gives [level = pwm_out_top + 1], which is strictly
    above the level of every duty that is not [>= 100.0]; a duty [<= 0.0]
    gives level 0; a duty strictly between 0.0 and 100.0 gives the [float]
    value of [duty * (pwm_out_top + 1) / 100] truncated toward zero, which
    is the exact quotient truncated toward zero or one more than it, and
    at most [pwm_out_top]; and duty 50.0 gives [(pwm_out_top + 1) / 2]
    rounded down. *)
Theorem set_pwm_duty_cycle_level
  (NDEBUG : bool) (OUTPUT_COUNT : Z) (output_gpio_pwm_map : list Z)
  (out_top out : Z) (duty : Float32.float32) :
  0 <= out_top <= 65535 -> 0 <= out < OUTPUT_COUNT ->
  valid_binary Float32.prec Float32.emax duty = true ->
  exists lv,
    set_pwm_duty_cycle NDEBUG OUTPUT_COUNT output_gpio_pwm_map out_top out
      duty
    = Some {| gpio := nth (Z.to_nat out) output_gpio_pwm_map 0;
              level := lv |} /\
    (Float32.ge duty Float32.hundred = true ->
       lv = out_top + 1 /\
       forall d, valid_binary Float32.prec Float32.emax d = true ->
                 Float32.ge d Float32.hundred = false ->
                 0 <= duty_level out_top d < lv) /\
    (Float32.le duty Float32.zero = true -> lv = 0) /\
    (Float32.gt duty Float32.zero = true ->
     Float32.lt duty Float32.hundred = true ->
       Float32.trunc
         (Float32.div (Float32.mul duty (Float32.of_Z (out_top + 1)))
            (Float32.of_Z 100)) = Some lv /\
       0 <= lv <= out_top /\
       exists m e,
         duty = S754_finite false m e /\
         0 <= exact_level out_top m e <= out_top /\
         exact_level out_top m e <= lv <= exact_level out_top m e + 1) /\
    (duty = Float32.fifty -> lv = (out_top + 1) / 2).
Proof.
  intros Ht Ho V. exists (duty_level out_top duty).
  split.
  { unfold set_pwm_duty_cycle.
    destruct (Z.ltb_spec out OUTPUT_COUNT); [|lia].
    rewrite orb_true_r. reflexivity. }
  split.
  { intros H. rewrite (duty_level_full out_top duty Ht H).
    split; [reflexivity|]. intros d Vd Hd.
    pose proof (duty_level_below out_top d Ht Vd Hd). lia. }
  split.
  { apply duty_level_zero. }
  split.
  { intros Hp Hl.
    assert (G : Float32.ge duty Float32.hundred = false).
    { destruct duty as [s|s| |s m e]; try destruct s;
        try discriminate Hp; try discriminate Hl.
      apply FloatRound.lt_hundred_not_ge. exact Hl. }
    split; [apply duty_level_mid; assumption|].
    split; [apply duty_level_below; assumption|].
    destruct (positive_duty duty G Hp) as (m & e & ->).
    exists m, e. split; [reflexivity|].
    rewrite duty_level_quantize by exact G.
    destruct (FloatRound.quantize_near m e (out_top + 1) V G ltac:(lia))
      as [R Q].
    unfold exact_level. split; [lia|exact Q]. }
  intros ->. apply duty_level_fifty. exact Ht.
Qed.

(** A board with sixteen outputs on pins 0..15 in a build with the
    [assert], a 62500-step counter, and output 3 driven at the duty 1.4 of
    the counterexample: the level is 875, one above the truncated
    quotient 874. *)
Lemma set_pwm_duty_cycle_level_witness :
  exists lv,
    set_pwm_duty_cycle false 16
      [0; 1; 2; 3; 4; 5; 6; 7; 8; 9; 10; 11; 12; 13; 14; 15]
      62499 3 (S754_finite false 11744051 (-23))
    = Some {| gpio := 3; level := lv |} /\
    (Float32.ge (S754_finite false 11744051 (-23)) Float32.hundred = true ->
       lv = 62499 + 1 /\
       forall d, valid_binary Float32.prec Float32.emax d = true ->
                 Float32.ge d Float32.hundred = false ->
                 0 <= duty_level 62499 d < lv) /\
    (Float32.le (S754_finite false 11744051 (-23)) Float32.zero = true ->
     lv = 0) /\
    (Float32.gt (S754_finite false 11744051 (-23)) Float32.zero = true ->
     Float32.lt (S754_finite false 11744051 (-23)) Float32.hundred = true ->
       Float32.trunc
         (Float32.div
            (Float32.mul (S754_finite false 11744051 (-23))
               (Float32.of_Z (62499 + 1)))
            (Float32.of_Z 100)) = Some lv /\
       0 <= lv <= 62499 /\
       exists m e,
         S754_finite false 11744051 (-23) = S754_finite false m e /\
         0 <= exact_level 62499 m e <= 62499 /\
         exact_level 62499 m e <= lv <= exact_level 62499 m e + 1) /\
    (S754_finite false 11744051 (-23) = Float32.fifty ->
     lv = (62499 + 1) / 2).
Proof.
  apply (set_pwm_duty_cycle_level false 16
           [0; 1; 2; 3; 4; 5; 6; 7; 8; 9; 10; 11; 12; 13; 14; 15]
           62499 3 (S754_finite false 11744051 (-23))).
  - lia.
  - lia.
  - reflexivity.
Defined.

End Pwm.

(* ================================================================= *)
(** ** util.c *)

Module Util.
Import Float32.

Definition digit_of (c : ascii) : option Z :=
  let n := Z.of_N (N_of_ascii c) in
  if (48 <=? n) && (n <=? 57) then Some (n - 48) else None.

(** Reads the leading decimal digits of [s] on top of [acc]: the number
    read, how many digits it took, and what follows them. *)
Fixpoint read_digits (s : string) (acc : Z) (count : nat)
  : Z * nat * string :=
  match s with
  | EmptyString => (acc, count, s)
  | String c s' =>
      match digit_of c with
      | Some d => read_digits s' (10 * acc + d) (S count)
      | None => (acc, count, s)
      end
  end.

(** The binary32 value nearest to [num / 10^k], ties to even. *)
Definition decimal_to_float (neg : bool) (num : Z) (k : nat) : float32 :=
  match num with
  | Z.pos p =>
      SFdiv prec emax (S754_finite neg p 0)
        (S754_finite false (Z.to_pos (10 ^ Z.of_nat k)) 0)
  | _ => S754_zero neg
  end.

(** Modelled from the spec: [str_to_float] is defined in util.c, which is
    not among the sources; the specification only says that a numeric
    token yields its value and that a malformed one is refused.  This
    reader takes an optional minus sign, decimal digits and an optional
    fraction, nothing else, and yields the binary32 value nearest to the
    numeral.  The functions of effects_fade.c take their reader as a
    parameter; this one is used where a concrete reader is called for. *)
Definition str_to_float (s : string) : option float32 :=
  let '(neg, s) :=
    match s with
    | String "-"%char s' => (true, s')
    | _ => (false, s)
    end in
  let '(ip, ni, s) := read_digits s 0 0 in
  let '(num, nf, s) :=
    match s with
    | String "."%char s' => read_digits s' ip 0
    | _ => (ip, 0%nat, s)
    end in
  if (ni + nf =? 0)%nat then None
  else
    match s with
    | EmptyString => Some (decimal_to_float neg num nf)
    | _ => None
    end.

Example str_to_float_2 : str_to_float "2" = Some two.
Proof. reflexivity. Qed.

Example str_to_float_2_000000 : str_to_float "2.000000" = Some two.
Proof. reflexivity. Qed.

Example str_to_float_half :
  str_to_float "0.5" = Some (S754_finite false 8388608 (-24)).
Proof. reflexivity. Qed.

Example str_to_float_negative :
  str_to_float "-3" = Some (S754_finite true 12582912 (-22)).
Proof. reflexivity. Qed.

Example str_to_float_malformed : str_to_float "x" = None.
Proof. reflexivity. Qed.

End Util.

(* ================================================================= *)
(** ** effects_fade.c *)

Module Fade.
Import CInt.
Import Float32.

(** [fade_context_t] *)
Record fade_context := {
  fade_in : float32;
  fade_out : float32;
  in_l : Z;          (* int64_t, microseconds *)
  out_l : Z;         (* int64_t, microseconds *)
  last_state : Z;    (* uint8_t *)
  mode : Z;          (* uint8_t *)
  start_t : Z        (* uint64_t *)
}.

(** Lines 73-79: the tail of [effect_fade_parse_args], once the two
    durations are known. *)
Definition fresh_context (fade_in fade_out : float32) : fade_context :=
  {| fade_in := fade_in;
     fade_out := fade_out;
     in_l := to_int64 (mul fade_in million);
     out_l := to_int64 (mul fade_out million);
     last_state := 0;
     mode := 0;
     start_t := 0 |}.

Section Parse.

(** [str_to_float] belongs to util.c, which is not among the sources;
    brickpico.h declares [int str_to_float(const char *str, float *val)].
    It is a parameter here: [Some v] stands for a non-zero return with
    [*val = v], [None] for a zero return. *)
Variable str_to_float : string -> option float32.

(** Lines 60-71; [fade_in] and [fade_out] come in holding the
    defaults. *)
Definition parse_parameters (s : string) (fade_in fade_out : float32)
  : float32 * float32 :=
  match CStr.strtok_r s ","%string with
  | (Some tok, saveptr) =>
      match str_to_float tok with
      | Some arg =>
          let fade_in := if ge arg zero then arg else fade_in in
          match CStr.strtok_r saveptr ","%string with
          | (Some tok, _) =>
              match str_to_float tok with
              | Some arg =>
                  (fade_in, if ge arg zero then arg else fade_out)
              | None => (fade_in, fade_out)
              end
          | (None, _) => (fade_in, fade_out)
          end
      | None => (fade_in, fade_out)
      end
  | (None, _) => (fade_in, fade_out)
  end.

(** [effect_fade_parse_args]; [args = None] is the NULL pointer and
    [calloc_ok] tells whether [calloc] found memory. *)
Definition effect_fade_parse_args (calloc_ok : bool) (args : option string)
  : option fade_context :=
  match args with
  | None => None
  | Some args =>
      if negb calloc_ok then None
      else
        let s := CStr.strncopy args 64 in
        let '(fade_in, fade_out) := parse_parameters s one one in
        Some (fresh_context fade_in fade_out)
  end.

End Parse.

Section Print.

(** The [%f] conversion of [snprintf] applied to a [float] argument
    (promoted to [double]); it belongs to the C library. *)
Variable fmt_f : float32 -> string.

(** [effect_fade_print_args]: the text left in [buf] and duplicated. *)
Definition effect_fade_print_args (c : fade_context) : string :=
  CStr.snprintf 64 (fmt_f (fade_in c) ++ "," ++ fmt_f (fade_out c))%string.

End Print.

Definition set_mode (c : fade_context) (m : Z) : fade_context :=
  {| fade_in := fade_in c; fade_out := fade_out c;
     in_l := in_l c; out_l := out_l c;
     last_state := last_state c; mode := m; start_t := start_t c |}.

Definition set_start_t (c : fade_context) (t : Z) : fade_context :=
  {| fade_in := fade_in c; fade_out := fade_out c;
     in_l := in_l c; out_l := out_l c;
     last_state := last_state c; mode := mode c; start_t := t |}.

Definition set_last_state (c : fade_context) (p : Z) : fade_context :=
  {| fade_in := fade_in c; fade_out := fade_out c;
     in_l := in_l c; out_l := out_l c;
     last_state := p; mode := mode c; start_t := start_t c |}.

(** [effect_fade(ctx, t_now, pwm, pwr)]: the value returned and the
    context it leaves.  [t_now] is a [uint64_t], [pwm] and [pwr] are
    [uint8_t].  [pwm * t_d / c->in_l] is computed in [int64_t]: the
    product wraps in the model where C leaves overflow undefined, the
    quotient truncates toward zero ([Z.quot], which gives 0 for a zero
    divisor, where C leaves the division undefined), and the result is
    cut to the [uint8_t] of [ret]. *)
Definition effect_fade (c : fade_context) (t_now pwm pwr : Z)
  : Z * fade_context :=
  let '(ret, c) :=
    if negb (last_state c =? pwr) then
      (* Start fade in/out sequence... *)
      let c := set_start_t c t_now in
      if negb (pwr =? 0) then (0, set_mode c 1)
      else (pwm, set_mode c 3)
    else
      let t_d := s64 (u64 (t_now - start_t c)) in
      if mode c =? 1 then           (* Fade in... *)
        if t_d <? in_l c then (u8 (Z.quot (s64 (pwm * t_d)) (in_l c)), c)
        else (pwm, set_mode c 2)
      else if mode c =? 2 then      (* On state after fade in... *)
        (pwm, c)
      else if mode c =? 3 then      (* Fade out... *)
        if t_d <? out_l c then
          (u8 (pwm - Z.quot (s64 (pwm * t_d)) (out_l c)), c)
        else (0, set_mode c 4)
      else if mode c =? 4 then      (* Off state after fade out... *)
        (0, c)
      else (0, c) in
  (ret, set_last_state c pwr).

(** One control tick: the clock reading, the configured duty and the
    commanded power handed to [effect_fade]. *)
Record tick := { t_now : Z; pwm : Z; pwr : Z }.

(** The effect evaluated tick after tick on one context: the values
    returned, in order, and the context left at the end. *)
Fixpoint run (c : fade_context) (ticks : list tick) : list Z * fade_context :=
  match ticks with
  | [] => ([], c)
  | k :: ticks' =>
      let '(ret, c') := effect_fade c (t_now k) (pwm k) (pwr k) in
      let '(rets, c'') := run c' ticks' in
      (ret :: rets, c'')
  end.

(** The scenario of the specification: duty 80, fade-in 2.0 s, fade-out
    1.0 s, power commanded on from t = 0 and off from [t_off] on. *)
Definition scenario_context : fade_context := fresh_context two one.

Definition scenario_tick (t_off t : Z) : tick :=
  {| t_now := t; pwm := 80; pwr := if t <? t_off then 1 else 0 |}.

Example scenario_lengths :
  (in_l scenario_context, out_l scenario_context) = (2000000, 1000000).
Proof. reflexivity. Qed.

Example scenario_five_ticks :
  fst (run scenario_context
         (map (scenario_tick 2000000)
              [0; 500000; 2000000; 2500000; 3000000; 3000001]))
  = [0; 20; 80; 40; 0; 0].
Proof. reflexivity. Qed.

(** What the scenario says the effect returns at a tick taken at [t]. *)
Definition scenario_expected (t_off t : Z) : Z :=
  if t <? 2000000 then 80 * t / 2000000
  else if t <=? t_off then 80
  else if t <? t_off + 1000000 then 80 - 80 * (t - t_off) / 1000000
  else 0.

(** *** Parsing always ends in the idle context *)

Lemma parse_args_fresh stf calloc_ok args c :
  effect_fade_parse_args stf calloc_ok args = Some c ->
  c = fresh_context (fade_in c) (fade_out c).
Proof.
  unfold effect_fade_parse_args.
  destruct args as [a|]; [|discriminate].
  destruct calloc_ok; cbn [negb]; [|discriminate].
  destruct (parse_parameters stf (CStr.strncopy a 64) one one) as [fi fo].
  intros H. injection H as <-. reflexivity.
Qed.

Lemma parse_args_idle stf calloc_ok args c :
  effect_fade_parse_args stf calloc_ok args = Some c ->
  mode c = 0 /\ last_state c = 0 /\ start_t c = 0.
Proof.
  intros H. apply parse_args_fresh in H. rewrite H. cbn. auto.
Qed.

(** *** The idle mode *)

Lemma effect_fade_idle c t p :
  mode c = 0 -> last_state c = 0 ->
  effect_fade c t p 0 = (0, set_last_state c 0).
Proof.
  intros Hm Hl. unfold effect_fade. rewrite Hl, Hm. reflexivity.
Qed.

Lemma run_idle ticks : forall c,
  mode c = 0 -> last_state c = 0 ->
  Forall (fun k => pwr k = 0) ticks ->
  fst (run c ticks) = repeat 0 (List.length ticks) /\
  mode (snd (run c ticks)) = 0 /\
  last_state (snd (run c ticks)) = 0.
Proof.
  induction ticks as [|k ticks IH]; intros c Hm Hl Hall.
  - cbn. auto.
  - inversion Hall as [|? ? Hk Hrest]; subst.
    cbn [run]. rewrite Hk, effect_fade_idle by assumption.
    specialize (IH (set_last_state c 0) Hm eq_refl Hrest).
    destruct (run (set_last_state c 0) ticks) as [rets c''].
    cbn in *. destruct IH as (-> & ? & ?). auto.
Qed.

(** C10.  A context fresh from [effect_fade_parse_args] is idle (mode 0,
    last observed power off); while every tick commands power off, whatever
    duty and clock reading it passes, [effect_fade] returns 0 at each of
    them and the context is still idle with power off afterwards. *)
Theorem fresh_context_stays_idle
    (str_to_float : string -> option float32) (args : option string)
    (c : fade_context) (ticks : list tick) :
  effect_fade_parse_args str_to_float true args = Some c ->
  Forall (fun k => pwr k = 0) ticks ->
  mode c = 0 /\ last_state c = 0 /\
  Forall (fun ret => ret = 0) (fst (run c ticks)) /\
  List.length (fst (run c ticks)) = List.length ticks /\
  mode (snd (run c ticks)) = 0 /\
  last_state (snd (run c ticks)) = 0.
Proof.
  intros Hp Hall.
  destruct (parse_args_idle _ _ _ _ Hp) as (Hm & Hl & _).
  destruct (run_idle ticks c Hm Hl Hall) as (Ho & Hm' & Hl').
  rewrite Ho. repeat split; try assumption.
  - clear. induction (List.length ticks); cbn; constructor; auto.
  - apply repeat_length.
Qed.

(** Three ticks with power off on the default context, at three different
    duties. *)
Lemma fresh_context_stays_idle_witness :
  Forall (fun ret => ret = 0)
    (fst (run (fresh_context one one)
            [ {| t_now := 5; pwm := 80; pwr := 0 |};
              {| t_now := 1000005; pwm := 100; pwr := 0 |};
              {| t_now := 9000000; pwm := 255; pwr := 0 |} ])).
Proof.
  refine (proj1 (proj2 (proj2
    (fresh_context_stays_idle (fun _ => None) (Some EmptyString) _ _ _ _)))).
  - reflexivity.
  - repeat constructor.
Defined.

(** *** The fade scenario *)

(** While power is commanded on: the rising edge was seen at t = 0, and
    the steady-on mode has been entered only by a tick at 2.0 s or later
    ([tl] is the time of the last tick taken). *)
Definition on_phase (c : fade_context) (tl : Z) : Prop :=
  in_l c = 2000000 /\ out_l c = 1000000 /\ last_state c = 1 /\
  start_t c = 0 /\ (mode c = 1 \/ (mode c = 2 /\ 2000000 <= tl)).

(** After the falling edge, seen by the tick at [t_off]. *)
Definition off_phase (t_off : Z) (c : fade_context) (tl : Z) : Prop :=
  in_l c = 2000000 /\ out_l c = 1000000 /\ last_state c = 0 /\
  start_t c = t_off /\
  (mode c = 3 \/ (mode c = 4 /\ t_off + 1000000 <= tl)).

Definition int64_max : Z := 9223372036854775807.

Lemma elapsed_small t t0 :
  0 <= t0 <= t -> t <= int64_max -> s64 (u64 (t - t0)) = t - t0.
Proof.
  unfold int64_max. intros H1 H2.
  rewrite u64_small by lia. apply s64_small. lia.
Qed.

Lemma ramp_small t d :
  0 <= t < d -> d <= 2000000 ->
  Z.quot (s64 (80 * t)) d = 80 * t / d /\ 0 <= 80 * t / d < 80.
Proof.
  intros Ht Hd.
  rewrite s64_small by lia.
  rewrite Z.quot_div_nonneg by lia.
  split; [reflexivity|].
  split; [apply Z.div_pos; lia|].
  apply Z.div_lt_upper_bound; lia.
Qed.

Lemma on_phase_step t_off c tl t :
  on_phase c tl -> 0 <= tl <= t -> t < t_off -> t <= int64_max ->
  exists c',
    effect_fade c t 80 1 = (scenario_expected t_off t, c') /\ on_phase c' t.
Proof.
  intros (Hi & Ho & Hl & Hs & Hm) Htl Hoff Hmax.
  unfold effect_fade. rewrite Hl. cbn [Z.eqb negb Pos.eqb].
  rewrite Hs, (elapsed_small t 0), Z.sub_0_r, Hi by lia.
  unfold scenario_expected.
  destruct Hm as [Hm | [Hm Hlate]]; rewrite Hm; cbn [Z.eqb Pos.eqb].
  - destruct (Z.ltb_spec t 2000000) as [Early|Late].
    + destruct (ramp_small t 2000000) as [E B]; [lia|lia|].
      rewrite E, u8_small by lia.
      eexists; split; [reflexivity|].
      unfold on_phase; cbn. tauto.
    + destruct (Z.leb_spec t t_off); [|lia].
      eexists; split; [reflexivity|].
      unfold on_phase; cbn. repeat split; try assumption. right. lia.
  - destruct (Z.ltb_spec t 2000000); [lia|].
    destruct (Z.leb_spec t t_off); [|lia].
    eexists; split; [reflexivity|].
    unfold on_phase; cbn. repeat split; try assumption. right. lia.
Qed.

Lemma falling_edge_step t_off c tl :
  on_phase c tl -> 2000000 <= t_off ->
  exists c',
    effect_fade c t_off 80 0 = (scenario_expected t_off t_off, c') /\
    off_phase t_off c' t_off.
Proof.
  intros (Hi & Ho & Hl & Hs & Hm) Hoff.
  unfold effect_fade. rewrite Hl. cbn [Z.eqb negb].
  unfold scenario_expected.
  destruct (Z.ltb_spec t_off 2000000); [lia|].
  rewrite Z.leb_refl.
  eexists; split; [reflexivity|].
  unfold off_phase; cbn. tauto.
Qed.

Lemma off_phase_step t_off c tl t :
  off_phase t_off c tl -> 2000000 <= t_off <= tl -> tl <= t ->
  t <= int64_max ->
  exists c',
    effect_fade c t 80 0 = (scenario_expected t_off t, c') /\
    off_phase t_off c' t.
Proof.
  intros (Hi & Ho & Hl & Hs & Hm) Htl Ht Hmax.
  unfold effect_fade. rewrite Hl. cbn [Z.eqb negb].
  rewrite Hs, elapsed_small, Ho by lia.
  unfold scenario_expected.
  destruct (Z.ltb_spec t 2000000); [lia|].
  destruct Hm as [Hm | [Hm Hlate]]; rewrite Hm; cbn [Z.eqb Pos.eqb].
  - destruct (Z.ltb_spec (t - t_off) 1000000) as [Early|Late].
    + destruct (ramp_small (t - t_off) 1000000) as [E B]; [lia|lia|].
      rewrite E, u8_small by lia.
      destruct (Z.leb_spec t t_off).
      * replace t with t_off by lia. rewrite Z.sub_diag. cbn.
        eexists; split; [reflexivity|].
        unfold off_phase; cbn. tauto.
      * destruct (Z.ltb_spec t (t_off + 1000000)); [|lia].
        eexists; split; [reflexivity|].
        unfold off_phase; cbn. tauto.
    + destruct (Z.leb_spec t t_off); [lia|].
      destruct (Z.ltb_spec t (t_off + 1000000)); [lia|].
      eexists; split; [reflexivity|].
      unfold off_phase; cbn. repeat split; try assumption. right. lia.
  - destruct (Z.leb_spec t t_off); [lia|].
    destruct (Z.ltb_spec t (t_off + 1000000)); [lia|].
    eexists; split; [reflexivity|].
    unfold off_phase; cbn. repeat split; try assumption. right. lia.
Qed.

Lemma scenario_tick_on t_off t :
  t < t_off -> scenario_tick t_off t = {| t_now := t; pwm := 80; pwr := 1 |}.
Proof.
  intros H. unfold scenario_tick. destruct (Z.ltb_spec t t_off); [reflexivity|lia].
Qed.

Lemma scenario_tick_off t_off t :
  t_off <= t -> scenario_tick t_off t = {| t_now := t; pwm := 80; pwr := 0 |}.
Proof.
  intros H. unfold scenario_tick. destruct (Z.ltb_spec t t_off); [lia|reflexivity].
Qed.

Lemma run_off_phase t_off : forall ts c tl,
  off_phase t_off c tl -> 2000000 <= t_off <= tl ->
  Sorted Z.le (tl :: ts) -> Forall (fun t => t <= int64_max) ts ->
  fst (run c (map (scenario_tick t_off) ts)) = map (scenario_expected t_off) ts.
Proof.
  induction ts as [|t ts IH]; intros c tl Hph Htl Hsort Hmax; [reflexivity|].
  inversion Hsort as [|? ? Hsort' Hhd]; subst.
  inversion Hhd as [|? ? Hle]; subst.
  inversion Hmax as [|? ? Ht Hmax']; subst.
  destruct (off_phase_step t_off c tl t Hph Htl Hle Ht) as (c' & E & Hph').
  cbn [map run]. rewrite scenario_tick_off by lia. cbn [t_now pwm pwr].
  rewrite E.
  specialize (IH c' t Hph' ltac:(lia) Hsort' Hmax').
  destruct (run c' (map (scenario_tick t_off) ts)) as [rets c''].
  cbn in *. now rewrite IH.
Qed.

Lemma run_on_phase t_off : forall ts c tl,
  on_phase c tl -> 0 <= tl -> 2000000 <= t_off ->
  Sorted Z.le (tl :: ts) -> In t_off ts ->
  Forall (fun t => t <= int64_max) ts ->
  fst (run c (map (scenario_tick t_off) ts)) = map (scenario_expected t_off) ts.
Proof.
  induction ts as [|t ts IH]; intros c tl Hph Htl Hoff Hsort Hin Hmax;
    [reflexivity|].
  inversion Hsort as [|? ? Hsort' Hhd]; subst.
  inversion Hhd as [|? ? Hle]; subst.
  inversion Hmax as [|? ? Ht Hmax']; subst.
  assert (Hfirst : t <= t_off).
  { destruct Hin as [->|Hin]; [lia|].
    apply Sorted_StronglySorted in Hsort'; [|intros x y z; apply Z.le_trans].
    inversion Hsort' as [|? ? _ Hall]; subst.
    rewrite Forall_forall in Hall. now apply Hall. }
  cbn [map run].
  destruct (Z_lt_le_dec t t_off) as [Before|At].
  - destruct (on_phase_step t_off c tl t Hph ltac:(lia) Before Ht)
      as (c' & E & Hph').
    rewrite scenario_tick_on by lia. cbn [t_now pwm pwr]. rewrite E.
    assert (Hin' : In t_off ts) by (destruct Hin; [lia|assumption]).
    specialize (IH c' t Hph' ltac:(lia) Hoff Hsort' Hin' Hmax').
    destruct (run c' (map (scenario_tick t_off) ts)) as [rets c''].
    cbn in *. now rewrite IH.
  - assert (t = t_off) by lia. subst t.
    destruct (falling_edge_step t_off c tl Hph Hoff) as (c' & E & Hph').
    rewrite scenario_tick_off by lia. cbn [t_now pwm pwr]. rewrite E.
    pose proof (run_off_phase t_off ts c' t_off Hph' ltac:(lia) Hsort' Hmax')
      as R.
    destruct (run c' (map (scenario_tick t_off) ts)) as [rets c''].
    cbn in *. now rewrite R.
Qed.

Lemma rising_edge_step t_off :
  0 < t_off ->
  exists c',
    effect_fade scenario_context 0 80 1 = (scenario_expected t_off 0, c') /\
    on_phase c' 0.
Proof.
  intros H. eexists; split; [reflexivity|].
  unfold on_phase; cbn. tauto.
Qed.

(** The whole scenario, for any tick schedule that starts at t = 0, is in
    time order and has a tick at [t_off]. *)
Lemma run_scenario t_off ts :
  2000000 <= t_off ->
  Sorted Z.le (0 :: ts) -> In t_off ts ->
  Forall (fun t => t <= int64_max) ts ->
  fst (run scenario_context (map (scenario_tick t_off) (0 :: ts)))
  = map (scenario_expected t_off) (0 :: ts).
Proof.
  intros Hoff Hsort Hin Hmax.
  destruct (rising_edge_step t_off ltac:(lia)) as (c' & E & Hph).
  cbn [map run]. rewrite scenario_tick_on by lia. cbn [t_now pwm pwr].
  rewrite E.
  pose proof (run_on_phase t_off ts c' 0 Hph ltac:(lia) Hoff Hsort Hin Hmax)
    as R.
  destruct (run c' (map (scenario_tick t_off) ts)) as [rets c''].
  cbn in *. now rewrite R.
Qed.

Lemma scenario_expected_values t_off t :
  2000000 <= t_off ->
  (t = 500000 -> scenario_expected t_off t = 20) /\
  (2000000 <= t <= t_off -> scenario_expected t_off t = 80) /\
  (t = t_off + 500000 -> scenario_expected t_off t = 40) /\
  (t_off + 1000000 <= t -> scenario_expected t_off t = 0).
Proof.
  intros Hoff. unfold scenario_expected. repeat split.
  - intros ->. reflexivity.
  - intros H. destruct (Z.ltb_spec t 2000000); [lia|].
    destruct (Z.leb_spec t t_off); [reflexivity|lia].
  - intros ->. destruct (Z.ltb_spec (t_off + 500000) 2000000); [lia|].
    destruct (Z.leb_spec (t_off + 500000) t_off); [lia|].
    destruct (Z.ltb_spec (t_off + 500000) (t_off + 1000000)); [|lia].
    replace (t_off + 500000 - t_off) with 500000 by lia. reflexivity.
  - intros H. destruct (Z.ltb_spec t 2000000); [lia|].
    destruct (Z.leb_spec t t_off); [lia|].
    destruct (Z.ltb_spec t (t_off + 1000000)); [lia|reflexivity].
Qed.

(** C3.  Fade-in 2.0 s, fade-out 1.0 s, duty 80; the effect is evaluated
    at the ticks [0 :: ts], taken in time order, with power commanded on
    from the tick at t = 0 and off from the tick at [t_off] on, where
    [t_off] is 2.0 s (the scenario as written) or any later time.  Then the
    value returned is 20 at 0.5 s, 80 at every tick from 2.0 s up to and
    including [t_off], 40 half a second after [t_off], and 0 at every tick
    from one second after [t_off] on. *)
Theorem fade_scenario (t_off : Z) (ts : list Z) :
  2000000 <= t_off ->
  Sorted Z.le (0 :: ts) ->
  In t_off ts ->
  Forall (fun t => t <= int64_max) ts ->
  in_l scenario_context = 2000000 /\
  out_l scenario_context = 1000000 /\
  Forall2
    (fun t ret =>
       (t = 500000 -> ret = 20) /\
       (2000000 <= t <= t_off -> ret = 80) /\
       (t = t_off + 500000 -> ret = 40) /\
       (t_off + 1000000 <= t -> ret = 0))
    (0 :: ts)
    (fst (run scenario_context (map (scenario_tick t_off) (0 :: ts)))).
Proof.
  intros Hoff Hsort Hin Hmax.
  split; [reflexivity|]. split; [reflexivity|].
  rewrite run_scenario by assumption.
  generalize (0 :: ts). intros l.
  induction l as [|t l IH]; cbn [map]; constructor.
  - apply scenario_expected_values. assumption.
  - exact IH.
Qed.

(** The scenario as the specification writes it: power off again at 2.0 s,
    ticks at 0, 0.5, 2.0, 2.5, 3.0 and 4.0 s. *)
Lemma fade_scenario_witness :
  Forall2
    (fun t ret =>
       (t = 500000 -> ret = 20) /\
       (2000000 <= t <= 2000000 -> ret = 80) /\
       (t = 2000000 + 500000 -> ret = 40) /\
       (2000000 + 1000000 <= t -> ret = 0))
    [0; 500000; 2000000; 2500000; 3000000; 4000000]
    (fst (run scenario_context
            (map (scenario_tick 2000000)
                 [0; 500000; 2000000; 2500000; 3000000; 4000000]))).
Proof.
  refine (proj2 (proj2
    (fade_scenario 2000000 [500000; 2000000; 2500000; 3000000; 4000000]
       _ _ _ _))).
  - lia.
  - repeat constructor; lia.
  - cbn. tauto.
  - repeat constructor; unfold int64_max; lia.
Defined.

(** *** Argument parsing *)




Section ParseFacts.
Variable str_to_float : string -> option float32.




End ParseFacts.



(** *** Printing and reading back *)

Section RoundTrip.
Variable str_to_float : string -> option float32.
Variable fmt_f : float32 -> string.




End RoundTrip.




(** Both durations at 1e30 seconds (the [float] [13234890 * 2^76]); the
    print reads no other field. *)
Definition long_context : fade_context :=
  {| fade_in := S754_finite false 13234890 76;
     fade_out := S754_finite false 13234890 76;
     in_l := 0; out_l := 0; last_state := 0; mode := 0; start_t := 0 |}.

Example long_context_valid :
  valid_binary prec emax (fade_in long_context) = true /\
  ge (fade_in long_context) zero = true /\
  String.length
    (Printf.fmt_f (fade_in long_context) ++ ","
       ++ Printf.fmt_f (fade_out long_context)) = 77%nat.
Proof. vm_compute. repeat split. Qed.

Example long_context_printed :
  effect_fade_print_args Printf.fmt_f long_context
  = "1000000015047466219876688855040.000000,100000001504746621987668"%string.
Proof. vm_compute. reflexivity. Qed.


(** *** What holds for every context and every run *)

Lemma effect_fade_settings c t p w :
  let c' := snd (effect_fade c t p w) in
  fade_in c' = fade_in c /\ fade_out c' = fade_out c /\
  in_l c' = in_l c /\ out_l c' = out_l c /\
  last_state c' = w /\
  (0 <= mode c <= 4 -> 0 <= mode c' <= 4).
Proof.
  unfold effect_fade.
  destruct (negb (last_state c =? w)).
  - destruct (negb (w =? 0)); cbn; repeat split; lia.
  - destruct (mode c =? 1) eqn:M1.
    { destruct (_ <? in_l c); cbn; repeat split; lia. }
    destruct (mode c =? 2) eqn:M2; [cbn; repeat split; lia|].
    destruct (mode c =? 3) eqn:M3.
    { destruct (_ <? out_l c); cbn; repeat split; lia. }
    destruct (mode c =? 4) eqn:M4; cbn; repeat split; lia.
Qed.

Lemma last_nonempty {A} (l : list A) : forall x d d',
  last (x :: l) d = last (x :: l) d'.
Proof.
  induction l as [|y l IH]; intros x d d'; [reflexivity|].
  change (last (y :: l) d = last (y :: l) d'). apply IH.
Qed.

(** X7: however the effect is driven, it never touches the configured
    durations, it leaves [last_state] at the last power command, it keeps
    a mode that was in 0..4 in 0..4, and it returns one value per tick. *)
Theorem run_keeps_settings (ticks : list tick) (c : fade_context) :
  let c' := snd (run c ticks) in
  fade_in c' = fade_in c /\ fade_out c' = fade_out c /\
  in_l c' = in_l c /\ out_l c' = out_l c /\
  last_state c' = last (map pwr ticks) (last_state c) /\
  (0 <= mode c <= 4 -> 0 <= mode c' <= 4) /\
  List.length (fst (run c ticks)) = List.length ticks.
Proof.
  revert c. induction ticks as [|k ticks IH]; intros c.
  - cbn. repeat split; lia.
  - cbn [run].
    pose proof (effect_fade_settings c (t_now k) (pwm k) (pwr k)) as S.
    destruct (effect_fade c (t_now k) (pwm k) (pwr k)) as [r c1].
    cbn [snd] in S. destruct S as (S1 & S2 & S3 & S4 & S5 & S6).
    specialize (IH c1).
    destruct (run c1 ticks) as [rets c2].
    cbn [fst snd] in *.
    destruct IH as (I1 & I2 & I3 & I4 & I5 & I6 & I7).
    repeat split; try congruence; try (cbn [List.length]; lia); try tauto.
    rewrite I5, S5. cbn [map].
    destruct (map pwr ticks) eqn:E; [reflexivity|].
    change (last (pwr k :: z :: l) (last_state c))
      with (last (z :: l) (last_state c)).
    apply last_nonempty.
Qed.

(** X8: with a clock that does not run backwards (and stays below 2^63
    microseconds), a duty of at most 255 and durations below 2^63 / 255
    microseconds, the value returned is never above the configured duty,
    whatever the mode and the power command. *)
Theorem effect_fade_bounded (c : fade_context) (t p w : Z) :
  0 <= p <= 255 ->
  0 <= start_t c <= t -> t <= int64_max ->
  255 * in_l c <= int64_max -> 255 * out_l c <= int64_max ->
  0 <= fst (effect_fade c t p w) <= p.
Proof.
  intros Hp Ht Hmax Hin Hout. unfold int64_max in *.
  unfold effect_fade.
  destruct (negb (last_state c =? w)).
  { destruct (negb (w =? 0)); cbn; lia. }
  rewrite elapsed_small by (unfold int64_max; lia).
  set (t_d := t - start_t c).
  assert (Hd : 0 <= t_d) by (subst t_d; lia).
  destruct (mode c =? 1).
  { destruct (Z.ltb_spec t_d (in_l c)) as [L|L]; cbn [fst]; [|lia].
    rewrite s64_small by nia.
    rewrite Z.quot_div_nonneg by nia.
    assert (0 <= p * t_d / in_l c) by (apply Z.div_pos; nia).
    assert (p * t_d / in_l c <= p) by (apply Z.div_le_upper_bound; nia).
    rewrite u8_small by lia. lia. }
  destruct (mode c =? 2); [cbn; lia|].
  destruct (mode c =? 3).
  { destruct (Z.ltb_spec t_d (out_l c)) as [L|L]; cbn [fst]; [|lia].
    rewrite s64_small by nia.
    rewrite Z.quot_div_nonneg by nia.
    assert (0 <= p * t_d / out_l c) by (apply Z.div_pos; nia).
    assert (p * t_d / out_l c <= p) by (apply Z.div_le_upper_bound; nia).
    rewrite u8_small by lia. lia. }
  destruct (mode c =? 4); cbn; lia.
Qed.

Lemma effect_fade_bounded_witness :
  0 <= fst (effect_fade
              {| fade_in := two; fade_out := one; in_l := 2000000;
                 out_l := 1000000; last_state := 1; mode := 1;
                 start_t := 1000 |} 501000 80 1) <= 80.
Proof.
  apply (effect_fade_bounded
           {| fade_in := two; fade_out := one; in_l := 2000000;
              out_l := 1000000; last_state := 1; mode := 1;
              start_t := 1000 |} 501000 80 1);
    cbn; unfold int64_max; lia.
Defined.

(** *** A fade from its edge on, for any durations *)

(** The value a fade-in, or a fade-out, of length [d] that began at [t0]
    has reached at tick [k]. *)
Definition ramp_up (d t0 : Z) (k : tick) : Z :=
  let t_d := t_now k - t0 in
  if t_d <? d then pwm k * t_d / d else pwm k.

Definition ramp_down (d t0 : Z) (k : tick) : Z :=
  let t_d := t_now k - t0 in
  if t_d <? d then pwm k - pwm k * t_d / d else 0.

(** A tick that keeps the power command at [w]. *)
Definition steady (w : Z) (k : tick) : Prop :=
  pwr k = w /\ 0 <= pwm k <= 255 /\ t_now k <= int64_max.

Lemma ramp_quot p t_d d :
  0 <= p <= 255 -> 0 <= t_d < d -> 255 * d <= int64_max ->
  Z.quot (s64 (p * t_d)) d = p * t_d / d /\ 0 <= p * t_d / d <= p.
Proof.
  unfold int64_max. intros Hp Ht Hd.
  rewrite s64_small by nia.
  rewrite Z.quot_div_nonneg by nia.
  split; [reflexivity|]. split.
  - apply Z.div_pos; nia.
  - apply Z.div_le_upper_bound; nia.
Qed.

Lemma run_rising w : forall ticks c tl,
  last_state c = w ->
  mode c = 1 \/ (mode c = 2 /\ in_l c <= tl - start_t c) ->
  0 <= start_t c <= tl ->
  Sorted Z.le (tl :: map t_now ticks) -> Forall (steady w) ticks ->
  255 * in_l c <= int64_max ->
  fst (run c ticks) = map (ramp_up (in_l c) (start_t c)) ticks.
Proof.
  induction ticks as [|k ticks IH]; intros c tl Hw Hm Hs Hsort Hst Hin;
    [reflexivity|].
  cbn [map] in Hsort.
  inversion Hsort as [|? ? Hsort' Hhd]; subst.
  inversion Hhd as [|? ? Hle]; subst.
  inversion Hst as [|? ? (Kw & Kp & Kt) Hst']; subst.
  cbn [run map].
  assert (E : exists c',
    effect_fade c (t_now k) (pwm k) (pwr k)
    = (ramp_up (in_l c) (start_t c) k, c') /\
    last_state c' = pwr k /\ in_l c' = in_l c /\ start_t c' = start_t c /\
    (mode c' = 1 \/ (mode c' = 2 /\ in_l c <= t_now k - start_t c))).
  { unfold effect_fade, ramp_up.
    replace (last_state c =? pwr k) with true
      by (symmetry; apply Z.eqb_eq; congruence).
    cbn [negb].
    rewrite elapsed_small by lia.
    destruct Hm as [M|[M Hdone]]; rewrite M; cbn [Z.eqb Pos.eqb].
    - destruct (Z.ltb_spec (t_now k - start_t c) (in_l c)) as [L|L].
      + destruct (ramp_quot (pwm k) (t_now k - start_t c) (in_l c))
          as [Q R]; [lia|lia|lia|].
        rewrite Q, u8_small by lia.
        eexists. split; [reflexivity|]. cbn.
        repeat (split; [first [reflexivity | congruence]|]). left. assumption.
      + eexists. split; [reflexivity|]. cbn.
        repeat (split; [first [reflexivity | congruence]|]). right. split; [reflexivity|lia].
    - destruct (Z.ltb_spec (t_now k - start_t c) (in_l c)) as [L|L]; [lia|].
      eexists. split; [reflexivity|]. cbn.
      repeat (split; [first [reflexivity | congruence]|]). right. split; [assumption|lia]. }
  destruct E as (c' & E & Lw & Li & Lt & Lm). rewrite E.
  specialize (IH c' (t_now k) ltac:(congruence)).
  rewrite Li, Lt in IH.
  specialize (IH Lm ltac:(lia) Hsort' Hst' Hin).
  destruct (run c' ticks) as [rets c'']. cbn [fst] in *. now rewrite IH.
Qed.

Lemma run_falling : forall ticks c tl,
  last_state c = 0 ->
  mode c = 3 \/ (mode c = 4 /\ out_l c <= tl - start_t c) ->
  0 <= start_t c <= tl ->
  Sorted Z.le (tl :: map t_now ticks) -> Forall (steady 0) ticks ->
  255 * out_l c <= int64_max ->
  fst (run c ticks) = map (ramp_down (out_l c) (start_t c)) ticks.
Proof.
  induction ticks as [|k ticks IH]; intros c tl Hw Hm Hs Hsort Hst Hin;
    [reflexivity|].
  cbn [map] in Hsort.
  inversion Hsort as [|? ? Hsort' Hhd]; subst.
  inversion Hhd as [|? ? Hle]; subst.
  inversion Hst as [|? ? (Kw & Kp & Kt) Hst']; subst.
  cbn [run map].
  assert (E : exists c',
    effect_fade c (t_now k) (pwm k) (pwr k)
    = (ramp_down (out_l c) (start_t c) k, c') /\
    last_state c' = 0 /\ out_l c' = out_l c /\ start_t c' = start_t c /\
    (mode c' = 3 \/ (mode c' = 4 /\ out_l c <= t_now k - start_t c))).
  { unfold effect_fade, ramp_down.
    replace (last_state c =? pwr k) with true
      by (symmetry; apply Z.eqb_eq; congruence).
    cbn [negb].
    rewrite elapsed_small by lia.
    destruct Hm as [M|[M Hdone]]; rewrite M; cbn [Z.eqb Pos.eqb].
    - destruct (Z.ltb_spec (t_now k - start_t c) (out_l c)) as [L|L].
      + destruct (ramp_quot (pwm k) (t_now k - start_t c) (out_l c))
          as [Q R]; [lia|lia|lia|].
        rewrite Q, u8_small by lia.
        eexists. split; [reflexivity|]. cbn.
        repeat (split; [first [reflexivity | congruence]|]). left. assumption.
      + eexists. split; [reflexivity|]. cbn.
        repeat (split; [first [reflexivity | congruence]|]). right. split; [reflexivity|lia].
    - destruct (Z.ltb_spec (t_now k - start_t c) (out_l c)) as [L|L]; [lia|].
      eexists. split; [reflexivity|]. cbn.
      repeat (split; [first [reflexivity | congruence]|]). right. split; [assumption|lia]. }
  destruct E as (c' & E & Lw & Li & Lt & Lm). rewrite E.
  specialize (IH c' (t_now k) ltac:(congruence)).
  rewrite Li, Lt in IH.
  specialize (IH Lm ltac:(lia) Hsort' Hst' Hin).
  destruct (run c' ticks) as [rets c'']. cbn [fst] in *. now rewrite IH.
Qed.

(** X9: a rising edge of the power command starts the fade-in afresh,
    whatever the effect was doing before: the edge tick returns 0, and
    while power stays on the tick at [t] returns
    [pwm * (t - t0) / in_l] until [t - t0] reaches [in_l], and [pwm] from
    then on. *)
Theorem fade_in_run (c : fade_context) (t0 p0 w : Z) (ticks : list tick) :
  last_state c <> w -> w <> 0 ->
  0 <= t0 -> Sorted Z.le (t0 :: map t_now ticks) ->
  Forall (steady w) ticks ->
  255 * in_l c <= int64_max ->
  fst (run c ({| t_now := t0; pwm := p0; pwr := w |} :: ticks))
  = 0 :: map (ramp_up (in_l c) t0) ticks.
Proof.
  intros Hl Hw Ht Hsort Hst Hin.
  cbn [run t_now pwm pwr]. unfold effect_fade.
  destruct (Z.eqb_spec (last_state c) w) as [|_]; [contradiction|].
  destruct (Z.eqb_spec w 0) as [|_]; [contradiction|]. cbn [negb].
  set (c1 := set_last_state (set_mode (set_start_t c t0) 1) w).
  pose proof (run_rising w ticks c1 t0 eq_refl (or_introl eq_refl)
                ltac:(cbn; lia) Hsort Hst Hin) as R.
  destruct (run c1 ticks) as [rets c2]. cbn [fst] in *.
  now rewrite R.
Qed.

Lemma fade_in_run_witness :
  fst (run (fresh_context two one)
         ({| t_now := 1000; pwm := 80; pwr := 1 |}
          :: [ {| t_now := 501000; pwm := 80; pwr := 1 |};
               {| t_now := 2001000; pwm := 60; pwr := 1 |};
               {| t_now := 2500000; pwm := 60; pwr := 1 |} ]))
  = 0 :: map (ramp_up (in_l (fresh_context two one)) 1000)
           [ {| t_now := 501000; pwm := 80; pwr := 1 |};
             {| t_now := 2001000; pwm := 60; pwr := 1 |};
             {| t_now := 2500000; pwm := 60; pwr := 1 |} ].
Proof.
  apply (fade_in_run (fresh_context two one) 1000 80 1).
  - cbn. lia.
  - lia.
  - lia.
  - repeat constructor; cbn; lia.
  - repeat constructor; cbn; unfold int64_max; lia.
  - cbn. unfold int64_max. lia.
Defined.

(** X10: a falling edge starts the fade-out from the full duty, whatever
    level a fade-in had reached: the edge tick returns [pwm], and while
    power stays off the tick at [t] returns
    [pwm - pwm * (t - t0) / out_l] until [t - t0] reaches [out_l], and 0
    from then on. *)
Theorem fade_out_run (c : fade_context) (t0 p0 : Z) (ticks : list tick) :
  last_state c <> 0 ->
  0 <= t0 -> Sorted Z.le (t0 :: map t_now ticks) ->
  Forall (steady 0) ticks ->
  255 * out_l c <= int64_max ->
  fst (run c ({| t_now := t0; pwm := p0; pwr := 0 |} :: ticks))
  = p0 :: map (ramp_down (out_l c) t0) ticks.
Proof.
  intros Hl Ht Hsort Hst Hin.
  cbn [run t_now pwm pwr]. unfold effect_fade.
  destruct (Z.eqb_spec (last_state c) 0) as [|_]; [contradiction|].
  cbn [negb Z.eqb].
  set (c1 := set_last_state (set_mode (set_start_t c t0) 3) 0).
  pose proof (run_falling ticks c1 t0 eq_refl (or_introl eq_refl)
                ltac:(cbn; lia) Hsort Hst Hin) as R.
  destruct (run c1 ticks) as [rets c2]. cbn [fst] in *.
  now rewrite R.
Qed.

Lemma fade_out_run_witness :
  fst (run {| fade_in := two; fade_out := one; in_l := 2000000;
              out_l := 1000000; last_state := 1; mode := 1;
              start_t := 1000 |}
         ({| t_now := 501000; pwm := 80; pwr := 0 |}
          :: [ {| t_now := 1001000; pwm := 80; pwr := 0 |};
               {| t_now := 1501000; pwm := 80; pwr := 0 |} ]))
  = 80 :: map (ramp_down 1000000 501000)
            [ {| t_now := 1001000; pwm := 80; pwr := 0 |};
              {| t_now := 1501000; pwm := 80; pwr := 0 |} ].
Proof.
  apply (fade_out_run
           {| fade_in := two; fade_out := one; in_l := 2000000;
              out_l := 1000000; last_state := 1; mode := 1;
              start_t := 1000 |} 501000 80).
  - cbn. lia.
  - lia.
  - repeat constructor; cbn; lia.
  - repeat constructor; cbn; unfold int64_max; lia.
  - cbn. unfold int64_max. lia.
Defined.

(** *** Parsed durations *)

Lemma to_int64_finish_nonneg m e :
  0 <= to_int64 (FloatRound.finish false m e).
Proof.
  unfold FloatRound.finish.
  destruct (shr_fexp prec emax m e loc_Exact) as [mrs e'].
  destruct (shr_m mrs) as [|p|p]; try (cbn; lia).
  destruct (e' <=? emax - prec); [|cbn; lia].
  unfold to_int64, to_int. cbn [trunc cond_Zopp].
  assert (0 <= (if 0 <=? e' then Z.pos p * 2 ^ e' else Z.pos p / 2 ^ (- e'))).
  { destruct (Z.leb_spec 0 e').
    - pose proof (Rounding.pow2_pos e' ltac:(lia)). nia.
    - apply Z.div_pos; [lia|]. apply Rounding.pow2_pos. lia. }
  lia.
Qed.

(** A duration that passed the test [arg >= 0.0] gives a length in
    microseconds that is not negative. *)
Lemma mul_million_nonneg x :
  ge x zero = true -> 0 <= to_int64 (mul x million).
Proof.
  intros H.
  destruct x as [s|s| |s m e]; try destruct s; try discriminate H;
    try (cbn; lia).
  unfold mul, million. rewrite FloatRound.SFmul_round_pos.
  apply to_int64_finish_nonneg.
Qed.

Lemma parse_parameters_nonneg stf s fi fo :
  ge fi zero = true -> ge fo zero = true ->
  ge (fst (parse_parameters stf s fi fo)) zero = true /\
  ge (snd (parse_parameters stf s fi fo)) zero = true.
Proof.
  intros Hi Ho. unfold parse_parameters.
  destruct (CStr.strtok_r s ",") as [[tok|] saveptr]; [|auto].
  destruct (stf tok) as [arg|]; [|auto].
  assert (Hi' : ge (if ge arg zero then arg else fi) zero = true)
    by (destruct (ge arg zero) eqn:E; assumption).
  destruct (CStr.strtok_r saveptr ",") as [[tok'|] rest]; [|auto].
  destruct (stf tok') as [arg'|]; [|auto].
  cbn [fst snd]. split; [exact Hi'|].
  destruct (ge arg' zero) eqn:E; assumption.
Qed.

(** Where C defines the conversion of a [float] to [int64_t]: the value
    is finite and, truncated, lies in the range of the type. *)
Definition int64_defined (x : float32) : bool :=
  match trunc x with
  | Some z => (- 9223372036854775808 <=? z) && (z <=? 9223372036854775807)
  | None => false
  end.

Lemma to_int64_defined x :
  int64_defined x = true -> trunc x = Some (to_int64 x).
Proof.
  unfold int64_defined, to_int64, to_int.
  destruct x as [s|s| |s m e]; cbn [trunc]; try discriminate.
  - intros _. reflexivity.
  - intros H. apply andb_prop in H. destruct H as [H1 H2].
    apply Z.leb_le in H1. apply Z.leb_le in H2. f_equal. lia.
Qed.

Example two_seconds_defined : int64_defined (mul two million) = true.
Proof. reflexivity. Qed.

(** X11: [effect_fade_parse_args] fails only on a NULL argument or when
    [calloc] fails; whatever the text holds and whatever [str_to_float]
    returns for it, the context it builds has durations that are neither
    negative nor NaN; and wherever C defines the conversion of
    [fade_in * 1000000] (of [fade_out * 1000000]) to [int64_t], [in_l]
    ([out_l]) is that product truncated, and is not negative. *)
Theorem parse_args_durations
    (str_to_float : string -> option float32)
    (calloc_ok : bool) (args : option string) :
  (effect_fade_parse_args str_to_float calloc_ok args = None <->
   args = None \/ calloc_ok = false) /\
  (forall c,
     effect_fade_parse_args str_to_float calloc_ok args = Some c ->
     ge (fade_in c) zero = true /\ ge (fade_out c) zero = true /\
     (int64_defined (mul (fade_in c) million) = true ->
      trunc (mul (fade_in c) million) = Some (in_l c) /\ 0 <= in_l c) /\
     (int64_defined (mul (fade_out c) million) = true ->
      trunc (mul (fade_out c) million) = Some (out_l c) /\ 0 <= out_l c)).
Proof.
  unfold effect_fade_parse_args.
  destruct args as [a|].
  2:{ split; [split; auto|intros c H; discriminate H]. }
  destruct calloc_ok; cbn [negb].
  2:{ split; [split; auto|intros c H; discriminate H]. }
  pose proof (parse_parameters_nonneg str_to_float (CStr.strncopy a 64)
                one one eq_refl eq_refl) as [P1 P2].
  destruct (parse_parameters str_to_float (CStr.strncopy a 64) one one)
    as [fi fo].
  cbn [fst snd] in P1, P2.
  split.
  - split; [intros H; discriminate H|].
    intros [H|H]; discriminate H.
  - intros c H. injection H as <-.
    cbn [fade_in fade_out in_l out_l fresh_context].
    split; [exact P1|]. split; [exact P2|]. split; intros D.
    + split; [apply to_int64_defined; exact D|].
      apply mul_million_nonneg; exact P1.
    + split; [apply to_int64_defined; exact D|].
      apply mul_million_nonneg; exact P2.
Qed.

End Fade.

(* ================================================================= *)
(** ** log.c *)

Module Log.
Import CInt.

(** A computation that reads and changes a state of type [W]. *)
Definition act (W A : Type) : Type := W -> A * W.

Definition ret {W A} (a : A) : act W A := fun w => (a, w).

Definition bind {W A B} (c : act W A) (k : A -> act W B) : act W B :=
  fun w => let '(a, w') := c w in k a w'.

Definition when {W} (b : bool) (c : act W unit) : act W unit :=
  if b then c else ret tt.

Definition exec {W A} (c : act W A) (w : W) : W := snd (c w).

Declare Scope act_scope.
Delimit Scope act_scope with act.
Notation "x <- c1 ;; c2" := (bind c1 (fun x => c2))
  (at level 61, c1 at next level, right associativity) : act_scope.
Notation "c1 ;; c2" := (bind c1 (fun _ => c2))
  (at level 61, right associativity) : act_scope.

(** [#define LOG_MAX_MSG_LEN 256] *)
Definition LOG_MAX_MSG_LEN : nat := 256.

Definition newline : ascii := ascii_of_nat 10.
Definition nul : ascii := ascii_of_nat 0.

(** Lines 208-212: a message that ends in a newline loses it. *)
Definition chop_newline (buf : string) : string :=
  let len := CStr.strnlen buf (LOG_MAX_MSG_LEN - 1) in
  if (0 <? len)%nat then
    match String.get (len - 1) buf with
    | Some c => if Ascii.eqb c newline then CStr.prefix (len - 1) buf else buf
    | None => buf
    end
  else buf.

(** Line 216: [snprintf(tstamp, sizeof(tstamp), "[%6llu.%06llu][%u]", ...)]
    into [char tstamp[32]]. *)
Definition timestamp (t core : Z) : string :=
  CStr.snprintf 32
    ("[" ++ Printf.fmt_6llu (t / 1000000) ++ "."
         ++ Printf.fmt_06llu (t mod 1000000) ++ "]["
         ++ Printf.fmt_u core ++ "]")%string.

(** What one call of [log_msg] meets on its way and has no say in: the
    core it runs on, whether its two [malloc] calls find memory, the three
    readings of the microsecond clock, and whether
    [mutex_enter_timeout_us] gets [pmem_mutex] within its timeout. *)
Record call_env := {
  core : Z;
  buf_malloc : bool;
  rbuf_malloc : bool;
  t_start : Z;
  t_stamp : Z;
  t_end : Z;
  mutex_acquired : bool
}.

Section LogMsg.

(** The persistent memory block with its ring buffer, and the two
    functions that write to it, are defined in ringbuffer.c and
    brickpico.c, which are not among the sources. *)
Variable pmem : Type.
Variable u8_ringbuffer_add : pmem -> string -> nat -> bool -> pmem.
Variable update_persistent_memory_crc : pmem -> pmem.

(** The two build switches the function looks at. *)
Variable WIFI_SUPPORT : bool.
Variable NDEBUG : bool.

Record world := {
  global_log_level : Z;
  global_syslog_level : Z;
  console : list string;            (* what printf wrote, oldest first *)
  persistent_mem : pmem;            (* log_rb and the block's CRC *)
  syslog_sent : list (Z * string);  (* calls of syslog_msg *)
  mutex_enters : list Z;            (* timeouts of the attempts on pmem_mutex *)
  mutex_exits : nat                 (* calls of mutex_exit *)
}.

Definition get_log_level : act world Z :=
  fun w => (global_log_level w, w).

Definition get_syslog_level : act world Z :=
  fun w => (global_syslog_level w, w).

Definition printf (text : string) : act world unit := fun w =>
  (tt, {| global_log_level := global_log_level w;
          global_syslog_level := global_syslog_level w;
          console := console w ++ [text];
          persistent_mem := persistent_mem w;
          syslog_sent := syslog_sent w;
          mutex_enters := mutex_enters w;
          mutex_exits := mutex_exits w |}).

Definition on_persistent_mem (f : pmem -> pmem) : act world unit := fun w =>
  (tt, {| global_log_level := global_log_level w;
          global_syslog_level := global_syslog_level w;
          console := console w;
          persistent_mem := f (persistent_mem w);
          syslog_sent := syslog_sent w;
          mutex_enters := mutex_enters w;
          mutex_exits := mutex_exits w |}).

Definition syslog_msg (priority : Z) (text : string) : act world unit :=
  fun w =>
  (tt, {| global_log_level := global_log_level w;
          global_syslog_level := global_syslog_level w;
          console := console w;
          persistent_mem := persistent_mem w;
          syslog_sent := syslog_sent w ++ [(priority, text)];
          mutex_enters := mutex_enters w;
          mutex_exits := mutex_exits w |}).

Definition mutex_enter_timeout_us (outcome : bool) (timeout_us : Z)
  : act world bool := fun w =>
  (outcome, {| global_log_level := global_log_level w;
               global_syslog_level := global_syslog_level w;
               console := console w;
               persistent_mem := persistent_mem w;
               syslog_sent := syslog_sent w;
               mutex_enters := mutex_enters w ++ [timeout_us];
               mutex_exits := mutex_exits w |}).

Definition mutex_exit : act world unit := fun w =>
  (tt, {| global_log_level := global_log_level w;
          global_syslog_level := global_syslog_level w;
          console := console w;
          persistent_mem := persistent_mem w;
          syslog_sent := syslog_sent w;
          mutex_enters := mutex_enters w;
          mutex_exits := S (mutex_exits w) |}).

(** The two lines the console branch can print and the record it
    stores. *)
Definition console_line (tstamp buf : string) : string :=
  (tstamp ++ " " ++ buf ++ String newline "")%string.

Definition timeout_notice (tstamp : string) : string :=
  (tstamp ++ " mutex timeout: FAILED to access log rinbuffer"
          ++ String newline "")%string.

Definition rbuf_text (tstamp buf : string) : string :=
  CStr.snprintf 255 (tstamp ++ " " ++ buf)%string.

Definition slow_path_line (core t_end duration : Z) : string :=
  ("log_msg: core" ++ Printf.fmt_u core ++ ": " ++ Printf.fmt_u t_end
     ++ " (duration=" ++ Printf.fmt_u duration ++ ")"
     ++ String newline "")%string.

Local Open Scope act_scope.

(** [log_msg(priority, format, ...)]; [text] is what [format] and its
    arguments expand to, before [vsnprintf] cuts it to the buffer. *)
Definition log_msg (e : call_env) (priority : Z) (text : string)
  : act world unit :=
  log_level <- get_log_level ;;
  syslog_level <- get_syslog_level ;;
  if (priority >? log_level) && (priority >? syslog_level) then ret tt
  else if negb (buf_malloc e) then ret tt
  else
    let start := t_start e in
    let buf := chop_newline (CStr.snprintf LOG_MAX_MSG_LEN text) in
    when (priority <=? log_level)
      (let tstamp := timestamp (t_stamp e) (core e) in
       printf (console_line tstamp buf) ;;
       when (rbuf_malloc e)
         (got <- mutex_enter_timeout_us (mutex_acquired e) 100 ;;
          if got : bool then
            let rbuf := rbuf_text tstamp buf in
            on_persistent_mem
              (fun m => u8_ringbuffer_add m (rbuf ++ String nul "")%string
                          (String.length rbuf + 1) true) ;;
            on_persistent_mem update_persistent_memory_crc ;;
            mutex_exit
          else printf (timeout_notice tstamp))) ;;
    when (WIFI_SUPPORT && (priority <=? syslog_level))
      (syslog_msg priority buf) ;;
    let duration := u64 (t_end e - start) in
    when ((duration >? 10000) && negb NDEBUG)
      (printf (slow_path_line (core e) (t_end e) duration)).

(** *** The whole effect of one call, in closed form *)

Definition message_buf (text : string) : string :=
  chop_newline (CStr.snprintf LOG_MAX_MSG_LEN text).

Definition slow_path_lines (e : call_env) : list string :=
  let duration := u64 (t_end e - t_start e) in
  if (duration >? 10000) && negb NDEBUG
  then [slow_path_line (core e) (t_end e) duration] else [].

Definition stored_record (e : call_env) (text : string) : string :=
  (rbuf_text (timestamp (t_stamp e) (core e)) (message_buf text)
     ++ String nul "")%string.

Definition stored_size (e : call_env) (text : string) : nat :=
  String.length
    (rbuf_text (timestamp (t_stamp e) (core e)) (message_buf text)) + 1.

Definition processed (e : call_env) (priority : Z) (text : string)
    (w : world) : world :=
  let to_console := priority <=? global_log_level w in
  let to_syslog := WIFI_SUPPORT && (priority <=? global_syslog_level w) in
  let tstamp := timestamp (t_stamp e) (core e) in
  {| global_log_level := global_log_level w;
     global_syslog_level := global_syslog_level w;
     console :=
       console w
         ++ (if to_console then
               console_line tstamp (message_buf text)
                 :: (if rbuf_malloc e && negb (mutex_acquired e)
                     then [timeout_notice tstamp] else [])
             else [])
         ++ slow_path_lines e;
     persistent_mem :=
       if to_console && rbuf_malloc e && mutex_acquired e then
         update_persistent_memory_crc
           (u8_ringbuffer_add (persistent_mem w) (stored_record e text)
              (stored_size e text) true)
       else persistent_mem w;
     syslog_sent :=
       syslog_sent w
         ++ (if to_syslog then [(priority, message_buf text)] else []);
     mutex_enters :=
       mutex_enters w
         ++ (if to_console && rbuf_malloc e then [100] else []);
     mutex_exits :=
       if to_console && rbuf_malloc e && mutex_acquired e
       then S (mutex_exits w) else mutex_exits w |}.

Lemma exec_log_msg e priority text w :
  exec (log_msg e priority text) w
  = if (priority >? global_log_level w)
       && (priority >? global_syslog_level w) then w
    else if negb (buf_malloc e) then w
    else processed e priority text w.
Proof.
  unfold exec, log_msg, bind, get_log_level, get_syslog_level.
  cbn [fst snd].
  destruct ((priority >? global_log_level w)
            && (priority >? global_syslog_level w)); [reflexivity|].
  destruct (buf_malloc e) eqn:Eb; cbn [negb]; [|reflexivity].
  unfold processed, slow_path_lines, stored_record, stored_size.
  fold (message_buf text).
  destruct w as [ll sl con pm sys ent ext]; cbn [global_log_level
    global_syslog_level console persistent_mem syslog_sent mutex_enters
    mutex_exits].
  destruct (priority <=? ll), (rbuf_malloc e), (mutex_acquired e),
    (WIFI_SUPPORT && (priority <=? sl)),
    ((u64 (t_end e - t_start e) >? 10000) && negb NDEBUG);
    cbn; rewrite ?app_nil_r, <- ?app_assoc; reflexivity.
Qed.

End LogMsg.

Arguments global_log_level {pmem} _.
Arguments global_syslog_level {pmem} _.
Arguments console {pmem} _.
Arguments persistent_mem {pmem} _.
Arguments syslog_sent {pmem} _.
Arguments mutex_enters {pmem} _.
Arguments mutex_exits {pmem} _.

(** *** The message text *)

Lemma get_last body c :
  String.get (String.length body) (body ++ String c "") = Some c.
Proof. induction body as [|d body IH]; cbn; [reflexivity|exact IH]. Qed.

Lemma prefix_append body rest :
  CStr.prefix (String.length body) (body ++ rest) = body.
Proof.
  induction body as [|d body IH]; cbn.
  - destruct rest; reflexivity.
  - now rewrite IH.
Qed.

(** A message that ends in a newline is logged without it. *)
Lemma chop_newline_strips body :
  (String.length body < 255)%nat ->
  chop_newline (CStr.snprintf LOG_MAX_MSG_LEN (body ++ String newline ""))
  = body.
Proof.
  intros Hlen.
  assert (L : String.length (body ++ String newline "")
              = S (String.length body)).
  { rewrite CStr.append_length. cbn. lia. }
  rewrite CStr.snprintf_fits by (unfold LOG_MAX_MSG_LEN; lia).
  unfold chop_newline, CStr.strnlen. rewrite L.
  replace (Nat.min (S (String.length body)) (LOG_MAX_MSG_LEN - 1))
    with (S (String.length body)) by (unfold LOG_MAX_MSG_LEN; lia).
  cbn [Nat.ltb Nat.leb].
  replace (S (String.length body) - 1)%nat with (String.length body) by lia.
  rewrite get_last, Ascii.eqb_refl. apply prefix_append.
Qed.

(** Any other message short enough for the buffer is logged as it is. *)
Lemma chop_newline_keeps text :
  (String.length text < 256)%nat ->
  String.get (String.length text - 1) text <> Some newline ->
  chop_newline (CStr.snprintf LOG_MAX_MSG_LEN text) = text.
Proof.
  intros Hlen Hlast.
  rewrite CStr.snprintf_fits by (unfold LOG_MAX_MSG_LEN; lia).
  unfold chop_newline, CStr.strnlen.
  replace (Nat.min (String.length text) (LOG_MAX_MSG_LEN - 1))
    with (String.length text) by (unfold LOG_MAX_MSG_LEN; lia).
  destruct (0 <? String.length text)%nat; [|reflexivity].
  destruct (String.get (String.length text - 1) text) as [c|] eqn:G;
    [|reflexivity].
  destruct (Ascii.eqb_spec c newline) as [->|]; [congruence|reflexivity].
Qed.

(** *** The time stamp *)

(** The stamp as its format string spells it out. *)
Definition stamp_text (t core : Z) : string :=
  ("[" ++ Printf.pad_left " " 6 (Printf.fmt_u (t / 1000000)) ++ "."
       ++ Printf.pad_left "0" 6 (Printf.fmt_u (t mod 1000000)) ++ "]["
       ++ Printf.fmt_u core ++ "]")%string.

(** The 32-byte buffer never cuts the stamp of a 64-bit clock reading
    taken on a core with a one-digit number. *)
Lemma timestamp_whole t core :
  0 <= t < 2 ^ 64 -> 0 <= core < 10 ->
  timestamp t core = stamp_text t core.
Proof.
  intros Ht Hc. unfold timestamp, stamp_text.
  fold (Printf.fmt_6llu (t / 1000000)).
  fold (Printf.fmt_06llu (t mod 1000000)).
  apply CStr.snprintf_fits.
  assert (Hs : 0 <= t / 1000000 < 10 ^ Z.of_nat 14).
  { split; [apply Z.div_pos; lia|].
    apply Z.div_lt_upper_bound; [lia|].
    change (10 ^ Z.of_nat 14) with 100000000000000.
    change (2 ^ 64) with 18446744073709551616 in Ht. lia. }
  pose proof (Printf.fmt_u_length_le 14 _ ltac:(lia) Hs) as L1.
  destruct (Printf.fmt_6llu_length (t / 1000000) (proj1 Hs)) as [L2 _].
  pose proof (Printf.fmt_06llu_length (t mod 1000000)
                (Z.mod_pos_bound t 1000000 eq_refl)) as L3.
  pose proof (Printf.fmt_u_length_le 1 core ltac:(lia) Hc) as L4.
  repeat (rewrite CStr.append_length || cbn [String.length]).
  lia.
Qed.

(** The text between the opening bracket of a line and its first dot. *)
Definition seconds_field (line : string) : string :=
  match line with
  | EmptyString => EmptyString
  | String _ rest => fst (CStr.cut_token "." rest)
  end.

(** *** A concrete setting to run the function in *)

(** log.h is not among the sources; its priorities carry the names of the
    syslog ones, whose standard values these are. *)
Definition LOG_ERR : Z := 3.
Definition LOG_NOTICE : Z := 5.
Definition LOG_DEBUG : Z := 7.

(** A ring buffer that just keeps its records, with a count of the CRC
    updates. *)
Definition demo_pmem : Type := list string * nat.

Definition demo_add (m : demo_pmem) (data : string) (size : nat)
    (overwrite : bool) : demo_pmem :=
  (fst m ++ [CStr.prefix size data], snd m).

Definition demo_crc (m : demo_pmem) : demo_pmem := (fst m, S (snd m)).

(** Lines 45-47: both thresholds start at [LOG_ERR]. *)
Definition demo_world : world demo_pmem :=
  {| global_log_level := LOG_ERR;
     global_syslog_level := LOG_ERR;
     console := [];
     persistent_mem := ([], 0%nat);
     syslog_sent := [];
     mutex_enters := [];
     mutex_exits := 0 |}.

Definition demo_env (t : Z) (got_mutex : bool) : call_env :=
  {| core := 0;
     buf_malloc := true;
     rbuf_malloc := true;
     t_start := t;
     t_stamp := t;
     t_end := t + 40;
     mutex_acquired := got_mutex |}.

Definition demo_log_msg (e : call_env) (priority : Z) (text : string)
  : world demo_pmem :=
  exec (log_msg demo_pmem demo_add demo_crc true false e priority text)
    demo_world.

Example demo_logged :
  let w := demo_log_msg (demo_env 12000345 true) LOG_ERR
             ("pwm: bad pin" ++ String newline "") in
  console w = ["[    12.000345][0] pwm: bad pin" ++ String newline ""]%string
  /\ persistent_mem w
     = (["[    12.000345][0] pwm: bad pin" ++ String nul ""]%string, 1%nat)
  /\ syslog_sent w = [(LOG_ERR, "pwm: bad pin"%string)]
  /\ mutex_enters w = [100] /\ mutex_exits w = 1%nat.
Proof. vm_compute. repeat split. Qed.

Example demo_filtered :
  demo_log_msg (demo_env 12000345 true) LOG_DEBUG "detail" = demo_world.
Proof. reflexivity. Qed.

(** *** The claims about [log_msg] *)

Section Claims.
Variable pmem : Type.
Variable u8_ringbuffer_add : pmem -> string -> nat -> bool -> pmem.
Variable update_persistent_memory_crc : pmem -> pmem.
Variable WIFI_SUPPORT : bool.
Variable NDEBUG : bool.

Let run_log_msg (e : call_env) (priority : Z) (text : string)
    (w : world pmem) : world pmem :=
  exec (log_msg pmem u8_ringbuffer_add update_persistent_memory_crc
          WIFI_SUPPORT NDEBUG e priority text) w.

(** C8.  A priority above both thresholds leaves every part of the
    state as it was: nothing is printed, stored or forwarded and the
    mutex is not touched.  A priority within at least one threshold
    (with memory for the message buffer) reaches the console and the
    ring buffer exactly when it is within the console threshold, and the
    remote sink exactly when it is within the syslog threshold (in a
    build that has the remote sink). *)
Theorem log_msg_thresholds (e : call_env) (priority : Z) (text : string)
    (w : world pmem) :
  let w' := run_log_msg e priority text w in
  let tstamp := timestamp (t_stamp e) (core e) in
  (priority > global_log_level w -> priority > global_syslog_level w ->
   w' = w) /\
  (buf_malloc e = true ->
   priority <= global_log_level w \/ priority <= global_syslog_level w ->
   global_log_level w' = global_log_level w /\
   global_syslog_level w' = global_syslog_level w /\
   syslog_sent w'
     = syslog_sent w
         ++ (if WIFI_SUPPORT && (priority <=? global_syslog_level w)
             then [(priority, message_buf text)] else []) /\
   (priority > global_log_level w ->
      console w' = console w ++ slow_path_lines NDEBUG e /\
      persistent_mem w' = persistent_mem w /\
      mutex_enters w' = mutex_enters w /\
      mutex_exits w' = mutex_exits w) /\
   (priority <= global_log_level w ->
      (exists more,
         console w'
         = console w ++ console_line tstamp (message_buf text) :: more) /\
      persistent_mem w'
        = if rbuf_malloc e && mutex_acquired e then
            update_persistent_memory_crc
              (u8_ringbuffer_add (persistent_mem w)
                 (stored_record e text) (stored_size e text) true)
          else persistent_mem w)).
Proof.
  intros w' tstamp. subst w' run_log_msg. cbv beta.
  rewrite exec_log_msg. split.
  - intros H1 H2.
    destruct (Z.gtb_spec priority (global_log_level w)); [|lia].
    destruct (Z.gtb_spec priority (global_syslog_level w)); [|lia].
    reflexivity.
  - intros Hb Hin. rewrite Hb. cbn [negb].
    assert (F : (priority >? global_log_level w)
                && (priority >? global_syslog_level w) = false).
    { destruct (Z.gtb_spec priority (global_log_level w));
        destruct (Z.gtb_spec priority (global_syslog_level w));
        cbn; try reflexivity; lia. }
    rewrite F. unfold processed.
    cbn [global_log_level global_syslog_level console persistent_mem
         syslog_sent mutex_enters mutex_exits].
    repeat split.
    + destruct (Z.leb_spec priority (global_log_level w)); [lia|].
      reflexivity.
    + destruct (Z.leb_spec priority (global_log_level w)); [lia|].
      reflexivity.
    + destruct (Z.leb_spec priority (global_log_level w)); [lia|].
      cbn. now rewrite app_nil_r.
    + destruct (Z.leb_spec priority (global_log_level w)); [lia|].
      reflexivity.
    + destruct (Z.leb_spec priority (global_log_level w)); [|lia].
      eexists. cbn [app]. reflexivity.
    + destruct (Z.leb_spec priority (global_log_level w)); [|lia].
      reflexivity.
Qed.

(** C7.  When the console branch runs and [mutex_enter_timeout_us]
    returns without the mutex, the message line is on the console,
    followed by the failure notice; the persistent memory block (ring
    buffer and CRC) is what it was; the mutex was tried once, with a
    timeout of 100 microseconds, and never released; and the call goes
    on to the remote sink as for any other message. *)
Theorem log_msg_mutex_timeout (e : call_env) (priority : Z)
    (text : string) (w : world pmem) :
  priority <= global_log_level w ->
  buf_malloc e = true -> rbuf_malloc e = true ->
  mutex_acquired e = false ->
  let w' := run_log_msg e priority text w in
  let tstamp := timestamp (t_stamp e) (core e) in
  console w'
    = console w
        ++ [console_line tstamp (message_buf text); timeout_notice tstamp]
        ++ slow_path_lines NDEBUG e /\
  persistent_mem w' = persistent_mem w /\
  mutex_enters w' = mutex_enters w ++ [100] /\
  mutex_exits w' = mutex_exits w /\
  syslog_sent w'
    = syslog_sent w
        ++ (if WIFI_SUPPORT && (priority <=? global_syslog_level w)
            then [(priority, message_buf text)] else []).
Proof.
  intros Hp Hb Hr Hm w' tstamp. subst w' run_log_msg. cbv beta.
  rewrite exec_log_msg, Hb. cbn [negb].
  destruct (Z.gtb_spec priority (global_log_level w)); [lia|].
  cbn [andb]. unfold processed.
  cbn [global_log_level global_syslog_level console persistent_mem
       syslog_sent mutex_enters mutex_exits].
  destruct (Z.leb_spec priority (global_log_level w)); [|lia].
  rewrite Hr, Hm. cbn [andb negb]. repeat split.
Qed.

(** C6, amended.  The line [log_msg] prints for a message is
    ["[<seconds>.<microseconds>][<core>] <message>"] followed by a
    newline, where the seconds are right-aligned in a field of at least
    six characters (padded with spaces in front; exactly six while the
    clock is below 10^12 microseconds, more after), the microseconds
    always take six digits (padded with zeros in front), and the message
    is the text given, cut to 255 characters, without its one trailing
    newline if it had one.  The record handed to the ring buffer is the
    same text without the final newline, cut to 254 characters, with its
    terminating NUL counted in the size. *)
Theorem log_line_format (e : call_env) (priority : Z)
    (text body : string) (w : world pmem) :
  0 <= t_stamp e < 2 ^ 64 -> 0 <= core e < 10 ->
  priority <= global_log_level w -> buf_malloc e = true ->
  (text = (body ++ String newline "")%string /\
   (String.length body < 255)%nat) \/
  (text = body /\ (String.length body < 256)%nat /\
   String.get (String.length body - 1) body <> Some newline) ->
  let w' := run_log_msg e priority text w in
  let seconds :=
    Printf.pad_left " " 6 (Printf.fmt_u (t_stamp e / 1000000)) in
  let micros :=
    Printf.pad_left "0" 6 (Printf.fmt_u (t_stamp e mod 1000000)) in
  let line :=
    ("[" ++ seconds ++ "." ++ micros ++ "][" ++ Printf.fmt_u (core e)
         ++ "] " ++ body)%string in
  String.length seconds
    = Nat.max 6 (String.length (Printf.fmt_u (t_stamp e / 1000000))) /\
  (t_stamp e < 10 ^ 12 -> String.length seconds = 6%nat) /\
  String.length micros = 6%nat /\
  (exists more,
     console w' = console w ++ (line ++ String newline "")%string :: more) /\
  (rbuf_malloc e = true -> mutex_acquired e = true ->
   persistent_mem w'
   = update_persistent_memory_crc
       (u8_ringbuffer_add (persistent_mem w)
          (CStr.prefix 254 line ++ String nul "")%string
          (String.length (CStr.prefix 254 line) + 1) true)).
Proof.
  intros Ht Hc Hp Hb Hshape w' seconds micros line.
  assert (Hbuf : message_buf text = body).
  { unfold message_buf.
    destruct Hshape as [[-> Hl] | (-> & Hl & Hn)].
    - now apply chop_newline_strips.
    - now apply chop_newline_keeps. }
  assert (Hs : 0 <= t_stamp e / 1000000) by (apply Z.div_pos; lia).
  destruct (Printf.fmt_6llu_length _ Hs) as [L1 L2].
  pose proof (Printf.fmt_06llu_length (t_stamp e mod 1000000)
                (Z.mod_pos_bound _ 1000000 eq_refl)) as L3.
  split; [exact L1|].
  split.
  { intros Hsmall. apply L2. apply Z.div_lt_upper_bound; lia. }
  split; [exact L3|].
  assert (Hline : (timestamp (t_stamp e) (core e) ++ " " ++ body)%string
                  = line).
  { rewrite timestamp_whole by assumption. unfold stamp_text.
    subst line seconds micros.
    repeat (progress cbn [append] || rewrite <- CStr.append_assoc).
    reflexivity. }
  subst w' run_log_msg. cbv beta.
  rewrite exec_log_msg, Hb. cbn [negb].
  destruct (Z.gtb_spec priority (global_log_level w)); [lia|].
  cbn [andb]. unfold processed.
  cbn [global_log_level global_syslog_level console persistent_mem
       syslog_sent mutex_enters mutex_exits].
  destruct (Z.leb_spec priority (global_log_level w)); [|lia].
  split.
  - eexists. cbn [app]. unfold console_line. rewrite Hbuf.
    f_equal. f_equal.
    rewrite <- Hline.
    repeat (progress cbn [append] || rewrite <- CStr.append_assoc).
    reflexivity.
  - intros Hr Hm. rewrite Hr, Hm. cbn [andb].
    unfold stored_record, stored_size, rbuf_text.
    rewrite Hbuf, Hline. reflexivity.
Qed.

End Claims.

(** The claim as the specification words it has the seconds in a field of
    one fixed width, whichever way it is padded. *)
Definition seconds_field_fixed_width : Prop :=
  exists width : nat,
    forall t line,
      0 <= t < 2 ^ 64 ->
      In line (console (demo_log_msg (demo_env t true) LOG_ERR "boot")) ->
      String.length (seconds_field line) = width.

(** C6, as stated, fails: a message logged at boot carries a seconds field
    of six characters, one logged after 10^12 microseconds (a little over
    eleven and a half days) a field of seven. *)
Lemma seconds_field_counterexample : ~ seconds_field_fixed_width.
Proof.
  intros [width H].
  pose proof (H 0 ("[     0.000000][0] boot" ++ String newline "")%string
                ltac:(vm_compute; split; [discriminate|reflexivity])
                ltac:(left; reflexivity)) as H0.
  pose proof (H 1000000000000
                ("[1000000.000000][0] boot" ++ String newline "")%string
                ltac:(vm_compute; split; [discriminate|reflexivity])
                ltac:(left; reflexivity)) as H1.
  vm_compute in H0, H1. congruence.
Qed.

(** A message ending in a newline, logged 12.000345 s after boot with the
    mutex free. *)
Lemma log_line_format_witness :
  let w := demo_log_msg (demo_env 12000345 true) LOG_ERR
             ("pwm: bad pin" ++ String newline "") in
  (exists more,
     console w
     = [] ++ ("[    12.000345][0] pwm: bad pin" ++ String newline "")%string
             :: more) /\
  persistent_mem w
  = (["[    12.000345][0] pwm: bad pin" ++ String nul ""]%string, 1%nat).
Proof.
  pose proof (log_line_format demo_pmem demo_add demo_crc true false
                (demo_env 12000345 true) LOG_ERR
                ("pwm: bad pin" ++ String newline "") "pwm: bad pin"
                demo_world
                ltac:(vm_compute; split; [discriminate|reflexivity])
                ltac:(vm_compute; split; [discriminate|reflexivity])
                ltac:(vm_compute; discriminate) eq_refl
                ltac:(left; split; [reflexivity|cbn; lia])) as H.
  cbv zeta in H. destruct H as (_ & _ & _ & Hc & Hm).
  split; [exact Hc|].
  exact (Hm eq_refl eq_refl).
Defined.

(** The mutex held elsewhere while an error is logged. *)
Lemma log_msg_mutex_timeout_witness :
  let w := demo_log_msg (demo_env 7000001 false) LOG_ERR "fault" in
  console w
    = [ "[     7.000001][0] fault" ++ String newline "";
        "[     7.000001][0] mutex timeout: FAILED to access log rinbuffer"
          ++ String newline "" ]%string /\
  persistent_mem w = ([], 0%nat) /\
  mutex_enters w = [100] /\ mutex_exits w = 0%nat.
Proof.
  pose proof (log_msg_mutex_timeout demo_pmem demo_add demo_crc true false
                (demo_env 7000001 false) LOG_ERR "fault" demo_world
                ltac:(vm_compute; discriminate) eq_refl eq_refl eq_refl) as H.
  cbv zeta in H. destruct H as (H1 & H2 & H3 & H4 & _).
  repeat split; assumption.
Defined.

(** A notice while both thresholds sit at [LOG_ERR]: filtered; an error:
    printed and forwarded. *)
Lemma log_msg_thresholds_witness :
  demo_log_msg (demo_env 7000001 true) LOG_NOTICE "hello" = demo_world /\
  syslog_sent (demo_log_msg (demo_env 7000001 true) LOG_ERR "fault")
    = [(LOG_ERR, "fault"%string)].
Proof.
  pose proof (log_msg_thresholds demo_pmem demo_add demo_crc true false
                (demo_env 7000001 true) LOG_NOTICE "hello" demo_world) as H1.
  pose proof (log_msg_thresholds demo_pmem demo_add demo_crc true false
                (demo_env 7000001 true) LOG_ERR "fault" demo_world) as H2.
  cbv zeta in H1, H2. split.
  - apply (proj1 H1); reflexivity.
  - destruct (proj2 H2 eq_refl) as (_ & _ & S & _).
    + left. vm_compute. discriminate.
    + exact S.
Defined.

(** *** Lengths, and the mutex *)

Lemma prefix_prefix n : forall m s,
  CStr.prefix n (CStr.prefix m s) = CStr.prefix (Nat.min n m) s.
Proof.
  induction n as [|n IH]; intros [|m] [|c s]; cbn; try reflexivity.
  now rewrite IH.
Qed.

Lemma prefix_length_min n : forall s,
  String.length (CStr.prefix n s) = Nat.min n (String.length s).
Proof.
  induction n as [|n IH]; intros [|c s]; cbn; try reflexivity.
  now rewrite IH.
Qed.

Lemma chop_newline_prefix buf :
  exists k, chop_newline buf = CStr.prefix k buf /\
            (String.length (chop_newline buf) <= String.length buf)%nat.
Proof.
  unfold chop_newline.
  set (len := CStr.strnlen buf (LOG_MAX_MSG_LEN - 1)).
  assert (Whole : CStr.prefix (String.length buf) buf = buf)
    by (apply CStr.prefix_all; lia).
  destruct (0 <? len)%nat;
    [|exists (String.length buf); split; [now rewrite Whole|lia]].
  destruct (String.get (len - 1) buf) as [c|];
    [|exists (String.length buf); split; [now rewrite Whole|lia]].
  destruct (Ascii.eqb c newline);
    [|exists (String.length buf); split; [now rewrite Whole|lia]].
  exists (len - 1)%nat. split; [reflexivity|].
  rewrite prefix_length_min. lia.
Qed.

Lemma message_buf_prefix text :
  exists k, (k <= 255)%nat /\ message_buf text = CStr.prefix k text.
Proof.
  unfold message_buf.
  destruct (chop_newline_prefix (CStr.snprintf LOG_MAX_MSG_LEN text))
    as (k & E & _).
  rewrite E. unfold CStr.snprintf. rewrite prefix_prefix.
  exists (Nat.min k (Nat.pred LOG_MAX_MSG_LEN)). split; [|reflexivity].
  unfold LOG_MAX_MSG_LEN. cbn [Nat.pred]. lia.
Qed.

Lemma message_buf_length text : (String.length (message_buf text) <= 255)%nat.
Proof.
  destruct (message_buf_prefix text) as (k & Hk & ->).
  rewrite prefix_length_min. lia.
Qed.

Section Bounds.
Variable pmem : Type.
Variable u8_ringbuffer_add : pmem -> string -> nat -> bool -> pmem.
Variable update_persistent_memory_crc : pmem -> pmem.
Variable WIFI_SUPPORT : bool.
Variable NDEBUG : bool.

Let run_log_msg (e : call_env) (priority : Z) (text : string)
    (w : world pmem) : world pmem :=
  exec (log_msg pmem u8_ringbuffer_add update_persistent_memory_crc
          WIFI_SUPPORT NDEBUG e priority text) w.

(** X12: however long the message is, the console gets the time stamp, a
    space and at most the first 255 characters of the text; the record
    handed to the ring buffer is that line cut to 254 characters, with its
    NUL, and the size handed over is the record's length with the NUL,
    never more than 255. *)
Theorem log_msg_lengths (e : call_env) (priority : Z) (text : string)
    (w : world pmem) :
  priority <= global_log_level w ->
  buf_malloc e = true -> rbuf_malloc e = true -> mutex_acquired e = true ->
  let w' := run_log_msg e priority text w in
  let tstamp := timestamp (t_stamp e) (core e) in
  exists (k : nat) (more : list string),
    (k <= 255)%nat /\
    console w'
    = console w
        ++ (tstamp ++ " " ++ CStr.prefix k text ++ String newline "")%string
        :: more /\
    let rbuf := CStr.prefix 254 (tstamp ++ " " ++ CStr.prefix k text) in
    persistent_mem w'
    = update_persistent_memory_crc
        (u8_ringbuffer_add (persistent_mem w) (rbuf ++ String nul "")
           (String.length rbuf + 1) true) /\
    (String.length rbuf + 1 <= 255)%nat.
Proof.
  intros Hp Hb Hr Hm w' tstamp. subst w'. unfold run_log_msg.
  rewrite exec_log_msg.
  apply Z.leb_le in Hp.
  replace (priority >? global_log_level w) with false
    by (symmetry; rewrite Z.gtb_ltb; apply Z.ltb_ge; apply Z.leb_le; exact Hp).
  cbn [andb]. rewrite Hb. cbn [negb].
  unfold processed. cbn [console persistent_mem].
  rewrite Hp, Hr, Hm. cbn [andb negb].
  destruct (message_buf_prefix text) as (k & Hk & Ek).
  exists k, (slow_path_lines NDEBUG e). split; [exact Hk|].
  unfold stored_record, stored_size, rbuf_text, console_line.
  fold tstamp. rewrite Ek. unfold CStr.snprintf. cbn [Nat.pred].
  split; [reflexivity|]. split; [reflexivity|].
  rewrite prefix_length_min. lia.
Qed.

(** X13: [log_msg] tries [pmem_mutex] at most once, with a timeout of
    100 microseconds; it calls [mutex_exit] exactly once when it got the
    mutex and never otherwise; and the persistent memory is left as it was
    unless the mutex was tried and obtained. *)
Theorem log_msg_mutex_discipline (e : call_env) (priority : Z)
    (text : string) (w : world pmem) :
  let w' := run_log_msg e priority text w in
  exists attempts : list Z,
    mutex_enters w' = mutex_enters w ++ attempts /\
    (attempts = [] \/ attempts = [100]) /\
    mutex_exits w'
    = (mutex_exits w
       + (if mutex_acquired e then List.length attempts else 0))%nat /\
    (attempts = [] \/ mutex_acquired e = false ->
     persistent_mem w' = persistent_mem w).
Proof.
  intros w'. subst w'. unfold run_log_msg. rewrite exec_log_msg.
  destruct ((priority >? global_log_level w)
            && (priority >? global_syslog_level w)).
  { exists []. rewrite app_nil_r.
    repeat split; auto; destruct (mutex_acquired e); cbn; lia. }
  destruct (negb (buf_malloc e)).
  { exists []. rewrite app_nil_r.
    repeat split; auto; destruct (mutex_acquired e); cbn; lia. }
  unfold processed. cbn [mutex_enters mutex_exits persistent_mem].
  destruct ((priority <=? global_log_level w) && rbuf_malloc e) eqn:A.
  - exists [100]. split; [reflexivity|]. split; [right; reflexivity|].
    destruct (mutex_acquired e); cbn [andb List.length].
    + split; [lia|]. intros [H|H]; discriminate H.
    + split; [lia|]. intros _. reflexivity.
  - exists []. split; [reflexivity|]. split; [left; reflexivity|].
    cbn [andb]. split; [destruct (mutex_acquired e); cbn; lia|].
    intros _. reflexivity.
Qed.

End Bounds.

Lemma log_msg_lengths_witness :
  let w := demo_log_msg (demo_env 12000345 true) LOG_ERR "pwm: bad pin" in
  exists (k : nat) (more : list string),
    (k <= 255)%nat /\
    console w
    = [] ++ ("[    12.000345][0]" ++ " " ++ CStr.prefix k "pwm: bad pin"
               ++ String newline "")%string :: more /\
    let rbuf :=
      CStr.prefix 254
        ("[    12.000345][0]" ++ " " ++ CStr.prefix k "pwm: bad pin") in
    persistent_mem w
    = demo_crc (demo_add ([], 0%nat) (rbuf ++ String nul "")%string
                  (String.length rbuf + 1) true) /\
    (String.length rbuf + 1 <= 255)%nat.
Proof.
  apply (log_msg_lengths demo_pmem demo_add demo_crc true false
           (demo_env 12000345 true) LOG_ERR "pwm: bad pin" demo_world).
  - cbn. lia.
  - reflexivity.
  - reflexivity.
  - reflexivity.
Defined.

(** X14: for every 64-bit clock reading and a core number of one digit,
    the time stamp is never cut by its 32-byte buffer: it is 18
    characters long while the uptime is below 10^6 seconds and never
    longer than 26. *)
Theorem timestamp_length (t core : Z) :
  0 <= t < 2 ^ 64 -> 0 <= core < 10 ->
  timestamp t core = stamp_text t core /\
  (18 <= String.length (timestamp t core) <= 26)%nat /\
  (t < 1000000000000 -> String.length (timestamp t core) = 18%nat).
Proof.
  intros Ht Hc.
  rewrite (timestamp_whole t core Ht Hc). split; [reflexivity|].
  unfold stamp_text.
  fold (Printf.fmt_6llu (t / 1000000)).
  fold (Printf.fmt_06llu (t mod 1000000)).
  assert (Hs : 0 <= t / 1000000 < 10 ^ Z.of_nat 14).
  { split; [apply Z.div_pos; lia|].
    apply Z.div_lt_upper_bound; [lia|].
    change (10 ^ Z.of_nat 14) with 100000000000000.
    change (2 ^ 64) with 18446744073709551616 in Ht. lia. }
  pose proof (Printf.fmt_u_length_le 14 _ ltac:(lia) Hs) as L1.
  destruct (Printf.fmt_6llu_length (t / 1000000) (proj1 Hs)) as [L2 L2'].
  pose proof (Printf.fmt_06llu_length (t mod 1000000)
                (Z.mod_pos_bound t 1000000 eq_refl)) as L3.
  pose proof (Printf.fmt_u_length_le 1 core ltac:(lia) Hc) as L4.
  repeat (rewrite CStr.append_length || cbn [String.length]).
  split; [lia|].
  intros Hsmall.
  assert (t / 1000000 < 1000000) by (apply Z.div_lt_upper_bound; lia).
  specialize (L2' ltac:(lia)). lia.
Qed.

Lemma timestamp_length_witness :
  timestamp 12000345 0 = stamp_text 12000345 0 /\
  (18 <= String.length (timestamp 12000345 0) <= 26)%nat /\
  (12000345 < 1000000000000 ->
   String.length (timestamp 12000345 0) = 18%nat).
Proof.
  apply (timestamp_length 12000345 0).
  - vm_compute. split; [discriminate | reflexivity].
  - lia.
Defined.

End Log.

(* ================================================================= *)
(** ** log.c: the names of priorities and facilities *)

Module LogNames.
Import CInt.

(** [tolower] of the C locale, on character codes. *)
Definition tolower (c : ascii) : nat :=
  let n := nat_of_ascii c in
  if ((65 <=? n) && (n <=? 90))%nat then (n + 32)%nat else n.

(** [strcasecmp]: the difference of the first two characters that differ
    after [tolower], the end of a string counting as NUL. *)
Fixpoint strcasecmp (s1 s2 : string) : Z :=
  match s1, s2 with
  | EmptyString, EmptyString => 0
  | EmptyString, String c2 _ => - Z.of_nat (tolower c2)
  | String c1 _, EmptyString => Z.of_nat (tolower c1)
  | String c1 r1, String c2 r2 =>
      if (tolower c1 =? tolower c2)%nat then strcasecmp r1 r2
      else Z.of_nat (tolower c1) - Z.of_nat (tolower c2)
  end.

(** One element of [log_priorities] or [log_facilities]: the [uint8_t]
    code and the name, [None] for the NULL that ends the table. *)
Definition entry : Type := Z * option string.

(** The loop of [str2log_priority] and [str2log_facility]:
    [while (tab[i].name) { if (!strcasecmp(tab[i].name, s)) return
    tab[i].code; i++; } return -1;] *)
Fixpoint scan_name (tab : list entry) (s : string) : Z :=
  match tab with
  | (code, Some name) :: rest =>
      if strcasecmp name s =? 0 then code else scan_name rest s
  | _ => -1
  end.

(** The loop of [log_priority2str] and [log_facility2str]:
    [while (tab[i].name) { if (tab[i].code == v) return tab[i].name;
    i++; } return NULL;] *)
Fixpoint scan_code (tab : list entry) (v : Z) : option string :=
  match tab with
  | (code, Some name) :: rest =>
      if code =? v then Some name else scan_code rest v
  | _ => None
  end.

(** The elements a loop can reach: those before the first NULL name. *)
Fixpoint live (tab : list entry) : list (Z * string) :=
  match tab with
  | (code, Some name) :: rest => (code, name) :: live rest
  | _ => []
  end.

Section Tables.

(** The priorities and facilities are macros of log.h, which is not among
    the sources. *)
Variables LOG_EMERG LOG_ALERT LOG_CRIT LOG_ERR LOG_WARNING LOG_NOTICE
          LOG_INFO LOG_DEBUG : Z.
Variables LOG_KERN LOG_USER LOG_MAIL LOG_DAEMON LOG_AUTH LOG_SYSLOG LOG_LPR
          LOG_NEWS LOG_UUCP LOG_CRON LOG_AUTHPRIV LOG_FTP LOG_LOCAL0
          LOG_LOCAL1 LOG_LOCAL2 LOG_LOCAL3 LOG_LOCAL4 LOG_LOCAL5 LOG_LOCAL6
          LOG_LOCAL7 : Z.

Definition log_priorities : list entry :=
  [ (u8 LOG_EMERG, Some "EMERG"%string);
    (u8 LOG_ALERT, Some "ALERT"%string);
    (u8 LOG_CRIT, Some "CRIT"%string);
    (u8 LOG_ERR, Some "ERR"%string);
    (u8 LOG_WARNING, Some "WARNING"%string);
    (u8 LOG_NOTICE, Some "NOTICE"%string);
    (u8 LOG_INFO, Some "INFO"%string);
    (u8 LOG_DEBUG, Some "DEBUG"%string);
    (0, None) ].

Definition log_facilities : list entry :=
  [ (u8 LOG_KERN, Some "KERN"%string);
    (u8 LOG_USER, Some "USER"%string);
    (u8 LOG_MAIL, Some "MAIL"%string);
    (u8 LOG_DAEMON, Some "DAEMON"%string);
    (u8 LOG_AUTH, Some "AUTH"%string);
    (u8 LOG_SYSLOG, Some "SYSLOG"%string);
    (u8 LOG_LPR, Some "LPR"%string);
    (u8 LOG_NEWS, Some "NEWS"%string);
    (u8 LOG_UUCP, Some "UUCP"%string);
    (u8 LOG_CRON, Some "CRON"%string);
    (u8 LOG_AUTHPRIV, Some "AUTHPRIV"%string);
    (u8 LOG_FTP, Some "FTP"%string);
    (u8 LOG_LOCAL0, Some "LOCAL0"%string);
    (u8 LOG_LOCAL1, Some "LOCAL1"%string);
    (u8 LOG_LOCAL2, Some "LOCAL2"%string);
    (u8 LOG_LOCAL3, Some "LOCAL3"%string);
    (u8 LOG_LOCAL4, Some "LOCAL4"%string);
    (u8 LOG_LOCAL5, Some "LOCAL5"%string);
    (u8 LOG_LOCAL6, Some "LOCAL6"%string);
    (u8 LOG_LOCAL7, Some "LOCAL7"%string);
    (0, None) ].

(** [str2log_priority]; [None] is the NULL pointer. *)
Definition str2log_priority (pri : option string) : Z :=
  match pri with
  | None => -2
  | Some s => scan_name log_priorities s
  end.

(** [log_priority2str]; [None] is the NULL it returns. *)
Definition log_priority2str (pri : Z) : option string :=
  scan_code log_priorities pri.

(** [str2log_facility] *)
Definition str2log_facility (facility : option string) : Z :=
  match facility with
  | None => -2
  | Some s => scan_name log_facilities s
  end.

(** [log_facility2str] *)
Definition log_facility2str (facility : Z) : option string :=
  scan_code log_facilities facility.

End Tables.

Example priority_of_lower_case :
  str2log_priority 0 1 2 3 4 5 6 7 (Some "warning"%string) = 4.
Proof. reflexivity. Qed.

Example priority_unknown :
  str2log_priority 0 1 2 3 4 5 6 7 (Some "WARN"%string) = -1.
Proof. reflexivity. Qed.

Example priority_name : log_priority2str 0 1 2 3 4 5 6 7 6 = Some "INFO"%string.
Proof. reflexivity. Qed.

(** *** The two loops on any table *)

(** The lower-cased form of a name, and names without a NUL inside. *)
Fixpoint lower (s : string) : list nat :=
  match s with
  | EmptyString => []
  | String c r => tolower c :: lower r
  end.

Fixpoint nul_free (s : string) : bool :=
  match s with
  | EmptyString => true
  | String c r => negb (tolower c =? 0)%nat && nul_free r
  end.

Lemma strcasecmp_refl s : strcasecmp s s = 0.
Proof.
  induction s as [|c s IH]; cbn; [reflexivity|].
  now rewrite Nat.eqb_refl.
Qed.

(** Two names without NUL that compare equal to the same string have the
    same lower-cased form. *)
Lemma strcasecmp_same n1 : forall n2 s,
  nul_free n1 = true -> nul_free n2 = true ->
  strcasecmp n1 s = 0 -> strcasecmp n2 s = 0 -> lower n1 = lower n2.
Proof.
  induction n1 as [|c1 r1 IH]; intros [|c2 r2] [|d s] F1 F2 E1 E2;
    cbn in *; try reflexivity;
    repeat match goal with
    | H : (_ && _)%bool = true |- _ => apply andb_prop in H; destruct H
    | H : negb (_ =? _)%nat = true |- _ =>
        apply negb_true_iff, Nat.eqb_neq in H
    end; try lia.
  - destruct (Nat.eqb_spec (tolower c2) (tolower d)); lia.
  - destruct (Nat.eqb_spec (tolower c1) (tolower d)); lia.
  - destruct (Nat.eqb_spec (tolower c1) (tolower d)); [|lia].
    destruct (Nat.eqb_spec (tolower c2) (tolower d)); [|lia].
    f_equal; [congruence|]. eapply IH; eassumption.
Qed.

(** The names of a table are told apart by [strcasecmp]. *)
Definition names_apart (tab : list entry) : Prop :=
  NoDup (map (fun e => lower (snd e)) (live tab)) /\
  Forall (fun e => nul_free (snd e) = true) (live tab).

Lemma scan_name_hit tab : forall code name s,
  names_apart tab -> In (code, name) (live tab) -> strcasecmp name s = 0 ->
  scan_name tab s = code.
Proof.
  induction tab as [|[c0 [n0|]] rest IH]; intros code name s [ND NF] Hin E;
    cbn in *; try contradiction.
  inversion ND as [|? ? Hnot ND']; subst.
  inversion NF as [|? ? F0 NF']; subst. cbn [snd] in *.
  assert (Fn : nul_free name = true).
  { destruct Hin as [H|H]; [injection H as <- <-; exact F0|].
    rewrite Forall_forall in NF'. exact (NF' _ H). }
  destruct (Z.eqb_spec (strcasecmp n0 s) 0) as [E0|NE0].
  - destruct Hin as [H|H]; [now injection H|].
    exfalso. apply Hnot.
    rewrite (strcasecmp_same n0 name s F0 Fn E0 E).
    apply (in_map (fun e => lower (snd e)) _ _ H).
  - destruct Hin as [H|H]; [injection H as <- <-; contradiction|].
    apply (IH code name s (conj ND' NF') H E).
Qed.

Lemma scan_name_found tab : forall s,
  scan_name tab s <> -1 ->
  exists name, In (scan_name tab s, name) (live tab) /\
               strcasecmp name s = 0.
Proof.
  induction tab as [|[c0 [n0|]] rest IH]; intros s H; cbn in *;
    try contradiction.
  destruct (Z.eqb_spec (strcasecmp n0 s) 0) as [E0|NE0].
  - exists n0. split; [left; reflexivity|exact E0].
  - destruct (IH s H) as (name & Hin & E). exists name. auto.
Qed.

Lemma scan_name_miss tab : forall s,
  (forall code name, In (code, name) (live tab) -> strcasecmp name s <> 0) ->
  scan_name tab s = -1.
Proof.
  induction tab as [|[c0 [n0|]] rest IH]; intros s H; cbn in *;
    try reflexivity.
  destruct (Z.eqb_spec (strcasecmp n0 s) 0) as [E0|NE0].
  - exfalso. apply (H c0 n0); auto.
  - apply IH. intros code name Hin. apply (H code name). auto.
Qed.

Lemma scan_code_hit tab : forall code name,
  NoDup (map fst (live tab)) -> In (code, name) (live tab) ->
  scan_code tab code = Some name.
Proof.
  induction tab as [|[c0 [n0|]] rest IH]; intros code name ND Hin;
    cbn in *; try contradiction.
  inversion ND as [|? ? Hnot ND']; subst.
  destruct (Z.eqb_spec c0 code) as [E0|NE0].
  - destruct Hin as [H|H]; [now injection H as _ <-|].
    exfalso. apply Hnot. subst c0. apply (in_map fst _ _ H).
  - destruct Hin as [H|H]; [injection H as <- _; contradiction|].
    apply (IH code name ND' H).
Qed.

Lemma scan_code_found tab : forall v name,
  scan_code tab v = Some name -> In (v, name) (live tab).
Proof.
  induction tab as [|[c0 [n0|]] rest IH]; intros v name H; cbn in *;
    try discriminate.
  destruct (Z.eqb_spec c0 v) as [E0|NE0].
  - injection H as <-. left. now subst.
  - right. apply IH. exact H.
Qed.

Lemma scan_code_miss tab : forall v,
  ~ In v (map fst (live tab)) -> scan_code tab v = None.
Proof.
  induction tab as [|[c0 [n0|]] rest IH]; intros v H; cbn in *;
    try reflexivity.
  destruct (Z.eqb_spec c0 v) as [E0|NE0]; [exfalso; auto|].
  apply IH. auto.
Qed.

Lemma scan_code_none tab : forall v,
  scan_code tab v = None -> ~ In v (map fst (live tab)).
Proof.
  induction tab as [|[c0 [n0|]] rest IH]; intros v H; cbn in *; auto.
  destruct (Z.eqb_spec c0 v) as [E0|NE0]; [discriminate|].
  intros [E|Hin]; [contradiction|]. exact (IH v H Hin).
Qed.

(** A check of [NoDup] that computes. *)
Fixpoint same_codes (a b : list nat) : bool :=
  match a, b with
  | [], [] => true
  | x :: a', y :: b' => (x =? y)%nat && same_codes a' b'
  | _, _ => false
  end.

Fixpoint occurs (a : list nat) (l : list (list nat)) : bool :=
  match l with
  | [] => false
  | b :: l' => same_codes a b || occurs a l'
  end.

Fixpoint all_apart (l : list (list nat)) : bool :=
  match l with
  | [] => true
  | a :: l' => negb (occurs a l') && all_apart l'
  end.

Lemma same_codes_refl a : same_codes a a = true.
Proof.
  induction a as [|x a IH]; cbn; [reflexivity|].
  now rewrite Nat.eqb_refl.
Qed.

Lemma occurs_in a l : In a l -> occurs a l = true.
Proof.
  induction l as [|b l IH]; cbn; [contradiction|].
  intros [->|H]; [now rewrite same_codes_refl|].
  rewrite (IH H). apply orb_true_r.
Qed.

Lemma all_apart_NoDup l : all_apart l = true -> NoDup l.
Proof.
  induction l as [|a l IH]; cbn; intros H; constructor;
    apply andb_prop in H; destruct H as [H1 H2].
  - intros Hin. rewrite (occurs_in a l Hin) in H1. discriminate H1.
  - exact (IH H2).
Qed.

(** Codes that differ from one another. *)
Fixpoint distinct (l : list Z) : bool :=
  match l with
  | [] => true
  | x :: l' => negb (existsb (Z.eqb x) l') && distinct l'
  end.

Lemma distinct_NoDup l : distinct l = true -> NoDup l.
Proof.
  induction l as [|x l IH]; cbn; intros H; constructor;
    apply andb_prop in H; destruct H as [H1 H2].
  - intros Hin. apply negb_true_iff in H1.
    assert (E : existsb (Z.eqb x) l = true).
    { apply existsb_exists. exists x. split; [exact Hin|apply Z.eqb_refl]. }
    congruence.
  - exact (IH H2).
Qed.

(** What the two loops do on a table whose names [strcasecmp] tells
    apart and whose codes are [uint8_t]. *)
Lemma table_lookup tab :
  names_apart tab ->
  Forall (fun e => 0 <= fst e <= 255) (live tab) ->
  (forall s,
     let r := scan_name tab s in
     (r = -1 /\
      forall code name, In (code, name) (live tab) ->
                        strcasecmp name s <> 0) \/
     (0 <= r <= 255 /\
      exists name, In (r, name) (live tab) /\ strcasecmp name s = 0)) /\
  (forall v,
     match scan_code tab v with
     | Some name => In (v, name) (live tab) /\ scan_name tab name = v
     | None => ~ In v (map fst (live tab))
     end).
Proof.
  intros NA R. rewrite Forall_forall in R. split.
  - intros s r. subst r.
    destruct (Z.eq_dec (scan_name tab s) (-1)) as [E|NE].
    + left. split; [exact E|]. intros code name Hin Hs.
      rewrite (scan_name_hit tab code name s NA Hin Hs) in E.
      specialize (R _ Hin). cbn in R. lia.
    + right. destruct (scan_name_found tab s NE) as (name & Hin & Hs).
      specialize (R _ Hin). cbn in R. split; [exact R|].
      exists name. auto.
  - intros v. destruct (scan_code tab v) as [name|] eqn:E.
    + pose proof (scan_code_found tab v name E) as Hin.
      split; [exact Hin|].
      apply (scan_name_hit tab v name name NA Hin (strcasecmp_refl name)).
    + apply scan_code_none. exact E.
Qed.

Lemma table_round_trip tab code name s :
  names_apart tab -> distinct (map fst (live tab)) = true ->
  In (code, name) (live tab) -> strcasecmp name s = 0 ->
  scan_name tab s = code /\ scan_code tab (scan_name tab s) = Some name.
Proof.
  intros NA ND Hin Hs.
  rewrite (scan_name_hit tab code name s NA Hin Hs).
  split; [reflexivity|].
  apply scan_code_hit; [apply distinct_NoDup|]; assumption.
Qed.

Lemma u8_range x : 0 <= u8 x <= 255.
Proof.
  pose proof (to_unsigned_range 8 x ltac:(lia)) as R.
  unfold u8. change (2 ^ 8) with 256 in R. lia.
Qed.

(** *** Priorities *)

Section Priorities.
Variables LOG_EMERG LOG_ALERT LOG_CRIT LOG_ERR LOG_WARNING LOG_NOTICE
          LOG_INFO LOG_DEBUG : Z.

Let tab : list entry :=
  log_priorities LOG_EMERG LOG_ALERT LOG_CRIT LOG_ERR LOG_WARNING
    LOG_NOTICE LOG_INFO LOG_DEBUG.
Let str2pri : option string -> Z :=
  str2log_priority LOG_EMERG LOG_ALERT LOG_CRIT LOG_ERR LOG_WARNING
    LOG_NOTICE LOG_INFO LOG_DEBUG.
Let pri2str : Z -> option string :=
  log_priority2str LOG_EMERG LOG_ALERT LOG_CRIT LOG_ERR LOG_WARNING
    LOG_NOTICE LOG_INFO LOG_DEBUG.

Lemma priorities_apart : names_apart tab.
Proof.
  split.
  - apply all_apart_NoDup. vm_compute. reflexivity.
  - repeat constructor.
Qed.

Lemma priorities_range : Forall (fun e => 0 <= fst e <= 255) (live tab).
Proof. repeat constructor; apply u8_range. Qed.

(** X15: when the eight priorities are distinct as [uint8_t] values, a
    priority name in any letter case is translated to its priority by
    [str2log_priority], and [log_priority2str] translates that priority
    back to the upper-case name of the table. *)
Theorem priority_name_round_trip (code : Z) (name s : string) :
  distinct (map fst (live tab)) = true ->
  In (code, name) (live tab) -> strcasecmp name s = 0 ->
  str2pri (Some s) = code /\ pri2str (str2pri (Some s)) = Some name.
Proof.
  intros ND Hin Hs.
  exact (table_round_trip tab code name s priorities_apart ND Hin Hs).
Qed.

(** X16: [str2log_priority] returns -2 for a NULL pointer and -1 for a
    string that matches no name of the table, and otherwise the 8-bit
    priority of the name it matches, so the two error values are never a
    priority; [log_priority2str] returns NULL exactly for the values that
    are no priority of the table, and a name it returns is translated
    back to the same value. *)
Theorem priority_lookup :
  str2pri None = -2 /\
  (forall s,
     let r := str2pri (Some s) in
     (r = -1 /\
      forall code name, In (code, name) (live tab) ->
                        strcasecmp name s <> 0) \/
     (0 <= r <= 255 /\
      exists name, In (r, name) (live tab) /\ strcasecmp name s = 0)) /\
  (forall v,
     match pri2str v with
     | Some name => In (v, name) (live tab) /\ str2pri (Some name) = v
     | None => ~ In v (map fst (live tab))
     end).
Proof.
  split; [reflexivity|].
  exact (table_lookup tab priorities_apart priorities_range).
Qed.

End Priorities.

Lemma priority_name_round_trip_witness :
  str2log_priority 0 1 2 3 4 5 6 7 (Some "warning"%string) = 4 /\
  log_priority2str 0 1 2 3 4 5 6 7
    (str2log_priority 0 1 2 3 4 5 6 7 (Some "warning"%string))
  = Some "WARNING"%string.
Proof.
  apply (priority_name_round_trip 0 1 2 3 4 5 6 7 4 "WARNING" "warning").
  - reflexivity.
  - cbn. do 4 right. left. reflexivity.
  - reflexivity.
Defined.

(** *** Facilities *)

Section Facilities.
Variables LOG_KERN LOG_USER LOG_MAIL LOG_DAEMON LOG_AUTH LOG_SYSLOG LOG_LPR
          LOG_NEWS LOG_UUCP LOG_CRON LOG_AUTHPRIV LOG_FTP LOG_LOCAL0
          LOG_LOCAL1 LOG_LOCAL2 LOG_LOCAL3 LOG_LOCAL4 LOG_LOCAL5 LOG_LOCAL6
          LOG_LOCAL7 : Z.

Let tab : list entry :=
  log_facilities LOG_KERN LOG_USER LOG_MAIL LOG_DAEMON LOG_AUTH LOG_SYSLOG
    LOG_LPR LOG_NEWS LOG_UUCP LOG_CRON LOG_AUTHPRIV LOG_FTP LOG_LOCAL0
    LOG_LOCAL1 LOG_LOCAL2 LOG_LOCAL3 LOG_LOCAL4 LOG_LOCAL5 LOG_LOCAL6
    LOG_LOCAL7.
Let str2fac : option string -> Z :=
  str2log_facility LOG_KERN LOG_USER LOG_MAIL LOG_DAEMON LOG_AUTH LOG_SYSLOG
    LOG_LPR LOG_NEWS LOG_UUCP LOG_CRON LOG_AUTHPRIV LOG_FTP LOG_LOCAL0
    LOG_LOCAL1 LOG_LOCAL2 LOG_LOCAL3 LOG_LOCAL4 LOG_LOCAL5 LOG_LOCAL6
    LOG_LOCAL7.
Let fac2str : Z -> option string :=
  log_facility2str LOG_KERN LOG_USER LOG_MAIL LOG_DAEMON LOG_AUTH LOG_SYSLOG
    LOG_LPR LOG_NEWS LOG_UUCP LOG_CRON LOG_AUTHPRIV LOG_FTP LOG_LOCAL0
    LOG_LOCAL1 LOG_LOCAL2 LOG_LOCAL3 LOG_LOCAL4 LOG_LOCAL5 LOG_LOCAL6
    LOG_LOCAL7.

Lemma facilities_apart : names_apart tab.
Proof.
  split.
  - apply all_apart_NoDup. vm_compute. reflexivity.
  - repeat constructor.
Qed.

Lemma facilities_range : Forall (fun e => 0 <= fst e <= 255) (live tab).
Proof. repeat constructor; apply u8_range. Qed.

(** X17: when the twenty facilities are distinct as [uint8_t] values, a
    facility name in any letter case is translated to its facility by
    [str2log_facility], and [log_facility2str] translates that facility
    back to the upper-case name of the table. *)
Theorem facility_name_round_trip (code : Z) (name s : string) :
  distinct (map fst (live tab)) = true ->
  In (code, name) (live tab) -> strcasecmp name s = 0 ->
  str2fac (Some s) = code /\ fac2str (str2fac (Some s)) = Some name.
Proof.
  intros ND Hin Hs.
  exact (table_round_trip tab code name s facilities_apart ND Hin Hs).
Qed.

(** X18: [str2log_facility] returns -2 for a NULL pointer and -1 for a
    string that matches no name of the table, and otherwise the 8-bit
    facility of the name it matches; [log_facility2str] returns NULL
    exactly for the values that are no facility of the table, and a name
    it returns is translated back to the same value. *)
Theorem facility_lookup :
  str2fac None = -2 /\
  (forall s,
     let r := str2fac (Some s) in
     (r = -1 /\
      forall code name, In (code, name) (live tab) ->
                        strcasecmp name s <> 0) \/
     (0 <= r <= 255 /\
      exists name, In (r, name) (live tab) /\ strcasecmp name s = 0)) /\
  (forall v,
     match fac2str v with
     | Some name => In (v, name) (live tab) /\ str2fac (Some name) = v
     | None => ~ In v (map fst (live tab))
     end).
Proof.
  split; [reflexivity|].
  exact (table_lookup tab facilities_apart facilities_range).
Qed.

End Facilities.

Lemma facility_name_round_trip_witness :
  str2log_facility 0 8 16 24 32 40 48 56 64 72 80 88 128 136 144 152 160
    168 176 184 (Some "Local3"%string) = 152 /\
  log_facility2str 0 8 16 24 32 40 48 56 64 72 80 88 128 136 144 152 160
    168 176 184
    (str2log_facility 0 8 16 24 32 40 48 56 64 72 80 88 128 136 144 152 160
       168 176 184 (Some "Local3"%string))
  = Some "LOCAL3"%string.
Proof.
  apply (facility_name_round_trip 0 8 16 24 32 40 48 56 64 72 80 88 128 136
           144 152 160 168 176 184 152 "LOCAL3" "Local3").
  - reflexivity.
  - cbn. do 15 right. left. reflexivity.
  - reflexivity.
Defined.

End LogNames.
